(** * TropiX (obsidian-tropix): note classifier and file-label reconciler

    A shallow embedding of the classifier and of the file-explorer label
    code of the plugin's main class [STAPlugin], of the default templates
    of [src/templates.ts], and of the code around them: the tag fields of
    the settings tab, the note listings, the DOI lookup with its BibTeX
    fallback, and the template escaping of [scripts/build.mjs].

    Texts are JavaScript strings.  They are modelled as lists of code units
    below 256 (ASCII and Latin-1), the range on which [toLowerCase], [trim]
    and the [\s] class are defined below exactly as the language defines
    them.  File paths, CSS class names and messages are opaque [string]s. *)

From Stdlib Require Import Ascii String Lia DecimalString.
From stdpp Require Import base list strings gmap.
From Equations Require Import Equations.

Local Open Scope nat_scope.

(** ** Code units and JavaScript string primitives *)

Module Js.

Abbreviation text := (list ascii).

Definition str (s : string) : text := list_ascii_of_string s.

Definition code (c : ascii) : nat := nat_of_ascii c.

Definition between (lo hi : nat) (c : ascii) : bool :=
  (lo <=? code c) && (code c <=? hi).

(** [\s]: TAB, LF, VT, FF, CR, SP and NBSP are the white space and line
    terminator code units below 256. *)
Definition is_space (c : ascii) : bool :=
  between 9 13 c || (code c =? 32) || (code c =? 160).

(** Letters with a lowercase partner: A-Z, and U+00C0..U+00DE except the
    multiplication sign U+00D7. *)
Definition is_upper (c : ascii) : bool :=
  between 65 90 c || (between 192 222 c && negb (code c =? 215)).

(** Letters with an uppercase partner below 256: a-z, and U+00E0..U+00FE
    except the division sign U+00F7. *)
Definition is_lower_paired (c : ascii) : bool :=
  between 97 122 c || (between 224 254 c && negb (code c =? 247)).

Definition lower_char (c : ascii) : ascii :=
  if is_upper c then ascii_of_nat (code c + 32) else c.

Definition upper_char (c : ascii) : ascii :=
  if is_lower_paired c then ascii_of_nat (code c - 32) else c.

(** [String.prototype.toLowerCase] *)
Definition toLowerCase (s : text) : text := map lower_char s.

(** [String.prototype.trim] *)
Fixpoint trimStart (s : text) : text :=
  match s with
  | c :: s' => if is_space c then trimStart s' else s
  | [] => []
  end.

Definition trimEnd (s : text) : text := rev (trimStart (rev s)).

Definition trim (s : text) : text := trimEnd (trimStart s).

(** [String.prototype.startsWith] *)
Fixpoint startsWith (w s : text) : bool :=
  match w, s with
  | [], _ => true
  | c :: w', d :: s' => bool_decide (c = d) && startsWith w' s'
  | _ :: _, [] => false
  end.

(** The length of the longest prefix made of code units of a class. *)
Fixpoint spanLength (p : ascii → bool) (s : text) : nat :=
  match s with
  | c :: s' => if p c then S (spanLength p s') else 0
  | [] => 0
  end.

(** [[...new Set(xs)]]: duplicates removed, first occurrences kept, in
    insertion order. *)
Fixpoint uniqueFrom (seen xs : list text) : list text :=
  match xs with
  | [] => []
  | x :: xs' =>
      if bool_decide (x ∈ seen) then uniqueFrom seen xs'
      else x :: uniqueFrom (x :: seen) xs'
  end.

Definition unique (xs : list text) : list text := uniqueFrom [] xs.

(** [new Set(xs).size] *)
Definition setSize (xs : list text) : nat := length (unique xs).

(** [Array.prototype.includes] on strings. *)
Definition includes (xs : list text) (x : text) : bool := bool_decide (x ∈ xs).

End Js.

(** ** Regular expressions

    A backtracking matcher for the fragment of JavaScript regular
    expressions the plugin uses: literals, classes, sequence, alternation,
    greedy and lazy [*], one capturing group, [^] without the [m] flag, and
    the [i] and [g] flags. *)

Module Re.
Import Js.

Inductive regex : Type :=
| Empty
| Lit (c : ascii)
| Class (p : ascii → bool)
| Seq (r1 r2 : regex)
| Alt (r1 r2 : regex)
| Star (greedy : bool) (r : regex)
| Group (r : regex)
| Bos.

Definition Plus (r : regex) : regex := Seq r (Star true r).
Definition Opt (r : regex) : regex := Alt r Empty.

Fixpoint lit (s : text) : regex :=
  match s with
  | [] => Empty
  | [c] => Lit c
  | c :: s' => Seq (Lit c) (lit s')
  end.

Record state : Type := State {
  pos : nat;                 (* index of the next code unit *)
  rest : text;               (* input from [pos] on *)
  caps : list text           (* captures, in closing order *)
}.

(** A literal code unit under the [i] flag matches up to canonicalisation
    (upper-casing of a single code unit). *)
Definition lit_matches (icase : bool) (c d : ascii) : bool :=
  if icase then bool_decide (upper_char c = upper_char d)
  else bool_decide (c = d).

Section Matcher.
Context {R : Type}.
Variable icase : bool.

Definition step1 (ok : ascii → bool) (s : state) (k : state → option R)
  : option R :=
  match rest s with
  | d :: tl => if ok d then k (State (S (pos s)) tl (caps s)) else None
  | [] => None
  end.

(** One pass of the quantifier loop: an iteration that consumes nothing
    is rejected, as in the language's RepeatMatcher. *)
Definition star_pass (greedy : bool)
    (iter : state → (state → option R) → option R)
    (again : state → option R) (k : state → option R) (s : state)
  : option R :=
  let more := iter s (λ s', if pos s <? pos s' then again s' else None) in
  if greedy then
    match more with Some x => Some x | None => k s end
  else
    match k s with Some x => Some x | None => more end.

Fixpoint star_loop (fuel : nat) (greedy : bool)
    (iter : state → (state → option R) → option R)
    (k : state → option R) (s : state) : option R :=
  match fuel with
  | 0 => k s
  | S fuel' => star_pass greedy iter (star_loop fuel' greedy iter k) k s
  end.

Fixpoint run (r : regex) (s : state) (k : state → option R) : option R :=
  match r with
  | Empty => k s
  | Lit c => step1 (lit_matches icase c) s k
  | Class p => step1 p s k
  | Seq r1 r2 => run r1 s (λ s1, run r2 s1 k)
  | Alt r1 r2 =>
      match run r1 s k with
      | Some x => Some x
      | None => run r2 s k
      end
  | Star greedy r1 => star_loop (length (rest s)) greedy (run r1) k s
  | Group r1 =>
      run r1 s (λ s1,
        k (State (pos s1) (rest s1)
             (caps s1 ++ [take (pos s1 - pos s) (rest s)])))
  | Bos => if pos s =? 0 then k s else None
  end.
End Matcher.

(** The result of [RegExp.prototype.exec]. *)
Record found : Type := Found {
  index : nat;               (* where the match starts *)
  whole : text;              (* element 0 of the match array *)
  groups : list text;        (* elements 1.. *)
  stop : nat;                (* index after the match *)
  after : text               (* input after the match *)
}.

Definition group1 (m : found) : text := default [] (head (groups m)).

(** A match attempt at one position. *)
Definition match_at (icase : bool) (r : regex) (p : nat) (s : text)
  : option found :=
  run icase r (State p s [])
    (λ e, Some (Found p (take (pos e - p) s) (caps e) (pos e) (rest e))).

(** The leftmost match at or after position [p], [s] being the input from
    [p] on. *)
Fixpoint exec_from (icase : bool) (r : regex) (p : nat) (s : text)
  : option found :=
  match match_at icase r p s with
  | Some m => Some m
  | None =>
      match s with
      | [] => None
      | _ :: s' => exec_from icase r (S p) s'
      end
  end.

Definition exec (icase : bool) (r : regex) (s : text) : option found :=
  exec_from icase r 0 s.

(** [s.match(/r/g)]: every match in turn, an empty match advancing the
    position by one; [null] when there is none. *)
Fixpoint matches_from (fuel : nat) (icase : bool) (r : regex)
    (p : nat) (s : text) : list text :=
  match fuel with
  | 0 => []
  | S fuel' =>
      match exec_from icase r p s with
      | None => []
      | Some m =>
          whole m ::
          (if stop m =? index m then
             match after m with
             | [] => []
             | _ :: tl => matches_from fuel' icase r (S (stop m)) tl
             end
           else matches_from fuel' icase r (stop m) (after m))
      end
  end.

Definition matchAll (icase : bool) (r : regex) (s : text)
  : option (list text) :=
  match matches_from (S (length s)) icase r 0 s with
  | [] => None
  | ms => Some ms
  end.

(** The replacement text of [String.prototype.replace] (GetSubstitution):
    [$$], [$&], [$`], [$'] and [$1]..[$9] are expanded; the patterns of
    the plugin have fewer than ten groups. *)
Definition digit_of (c : ascii) : option nat :=
  if between 49 57 c then Some (code c - 48) else None.

Fixpoint getSubstitution (repl before : text) (m : found) : text :=
  match repl with
  | [] => []
  | c :: tl =>
      if bool_decide (c = "$"%char) then
        match tl with
        | [] => [c]
        | d :: tl' =>
            if bool_decide (d = "$"%char) then d :: getSubstitution tl' before m
            else if bool_decide (d = "&"%char) then whole m ++ getSubstitution tl' before m
            else if bool_decide (d = "`"%char) then before ++ getSubstitution tl' before m
            else if bool_decide (d = "'"%char) then after m ++ getSubstitution tl' before m
            else
              match digit_of d with
              | Some n =>
                  match groups m !! (n - 1) with
                  | Some g => g ++ getSubstitution tl' before m
                  | None => c :: d :: getSubstitution tl' before m
                  end
              | None => c :: getSubstitution tl before m
              end
        end
      else c :: getSubstitution tl before m
  end.

(** [s.replace(/r/, repl)] *)
Definition replaceFirst (icase : bool) (r : regex) (repl s : text) : text :=
  match exec icase r s with
  | None => s
  | Some m =>
      take (index m) s ++ getSubstitution repl (take (index m) s) m ++ after m
  end.

(** [s.replace(/r/g, repl)]: [seen] is the input before position [p]. *)
Fixpoint replace_from (fuel : nat) (icase : bool) (r : regex) (repl : text)
    (seen : text) (p : nat) (s : text) : text :=
  match fuel with
  | 0 => s
  | S fuel' =>
      match exec_from icase r p s with
      | None => s
      | Some m =>
          let skipped := take (index m - p) s in
          let before := seen ++ skipped in
          skipped ++ getSubstitution repl before m ++
          (if stop m =? index m then
             match after m with
             | [] => []
             | c :: tl =>
                 c :: replace_from fuel' icase r repl
                        (before ++ [c]) (S (stop m)) tl
             end
           else replace_from fuel' icase r repl
                  (before ++ whole m) (stop m) (after m))
      end
  end.

Definition replaceAll (icase : bool) (r : regex) (repl s : text) : text :=
  replace_from (S (length s)) icase r repl [] 0 s.

(** [s.split(/r/)]: [p] is where the pending piece starts, [piece] the
    input from [p] up to the position [q] being tried, [sq] the input
    from [q] on. *)
Fixpoint split_loop (fuel : nat) (icase : bool) (r : regex)
    (p q : nat) (piece sq : text) : list text :=
  match fuel with
  | 0 => [piece ++ sq]
  | S fuel' =>
      match sq with
      | [] => [piece]
      | c :: sq' =>
          match match_at icase r q sq with
          | Some m =>
              if stop m =? p
              then split_loop fuel' icase r p (S q) (piece ++ [c]) sq'
              else piece :: split_loop fuel' icase r (stop m) (stop m) [] (after m)
          | None => split_loop fuel' icase r p (S q) (piece ++ [c]) sq'
          end
      end
  end.

Definition split (icase : bool) (r : regex) (s : text) : list text :=
  match s with
  | [] => match match_at icase r 0 [] with Some _ => [] | None => [[]] end
  | _ => split_loop (S (length s)) icase r 0 0 [] s
  end.

End Re.


(** ** The plugin *)

Import Js Re.

Infix "@@" := Seq (at level 60, right associativity).

Definition nl : ascii := "010"%char.
Definition dquote : ascii := "034"%char.
Definition squote : ascii := "039"%char.
Definition backslash : ascii := "092"%char.

Definition one_of (cs : list ascii) : regex := Class (λ c, bool_decide (c ∈ cs)).
Definition none_of (cs : list ascii) : regex := Class (λ c, negb (bool_decide (c ∈ cs))).
Definition ws : regex := Class is_space.
Definition any : regex := Class (λ c, is_space c || negb (is_space c)).

(** [[a-zA-Z0-9_-]] *)
Definition is_tag_char (c : ascii) : bool :=
  between 97 122 c || between 65 90 c || between 48 57 c
  || bool_decide (c = "_"%char) || bool_decide (c = "-"%char).

Module Pattern.
(** [/#[a-zA-Z0-9_-]+/g] *)
Definition hashtag : regex := Lit "#" @@ Plus (Class is_tag_char).
(** [/^---\s*\n([\s\S]*?)\n---/] *)
Definition frontmatter : regex :=
  Bos @@ lit (str "---") @@ Star true ws @@ Lit nl @@
  Group (Star false any) @@ Lit nl @@ lit (str "---").
(** [/tags:\s*\[([^\]]+)\]/] *)
Definition tagsArray : regex :=
  lit (str "tags:") @@ Star true ws @@ Lit "[" @@
  Group (Plus (none_of ["]"%char])) @@ Lit "]".
(** [/tags:\s*\n( (?:\s*-\s*[^\n]+\n?)* )/], the group spaced out here *)
Definition tagsList : regex :=
  lit (str "tags:") @@ Star true ws @@ Lit nl @@
  Group (Star true (Star true ws @@ Lit "-" @@ Star true ws @@
                    Plus (none_of [nl]) @@ Opt (Lit nl))).
(** [/\s*-\s*([^\n]+)/g] *)
Definition listItem : regex :=
  Star true ws @@ Lit "-" @@ Star true ws @@ Group (Plus (none_of [nl])).
(** [/\s*-\s*/] *)
Definition dash : regex := Star true ws @@ Lit "-" @@ Star true ws.
(** the class of the single quote, the double quote and [#], with the [g] flag *)
Definition quoteOrHash : regex := one_of [squote; dquote; "#"%char].
(** [/##\s*Tags\s*\n( [^\n#]* )/i], the group spaced out here *)
Definition tagsSection : regex :=
  lit (str "##") @@ Star true ws @@ lit (str "Tags") @@ Star true ws @@
  Lit nl @@ Group (Star true (none_of [nl; "#"%char])).
(** [/[,\s]+/] *)
Definition separators : regex :=
  Plus (Class (λ c, bool_decide (c = ","%char) || is_space c)).
(** [/^#/] *)
Definition leadingHash : regex := Bos @@ Lit "#".
(** the class of the single quote and the double quote, with the [g] flag *)
Definition quote : regex := one_of [squote; dquote].
(** [/\*\*Type:\*\*\s*(Source|Topic|Argument)/], the alternation first *)
Definition typeValue : regex :=
  Alt (lit (str "Source")) (Alt (lit (str "Topic")) (lit (str "Argument"))).
Definition typeMarker : regex :=
  lit (str "**Type:**") @@ Star true ws @@ Group typeValue.
(** [/{{title}}/g] and [/{{date}}/g] *)
Definition titleVar : regex := lit (str "{{title}}").
Definition dateVar : regex := lit (str "{{date}}").
End Pattern.

(** [STANoteType = 'source' | 'topic' | 'argument'] *)
Inductive STANoteType : Type := source | topic | argument.

Global Instance STANoteType_eq_dec : EqDecision STANoteType.
Proof. solve_decision. Defined.

Definition typeName (t : STANoteType) : text :=
  match t with
  | source => str "source"
  | topic => str "topic"
  | argument => str "argument"
  end.

(** Reading a string as a value of the union type. *)
Definition asNoteType (s : text) : option STANoteType :=
  if bool_decide (s = typeName source) then Some source
  else if bool_decide (s = typeName topic) then Some topic
  else if bool_decide (s = typeName argument) then Some argument
  else None.

(** The settings the classifier and the labels read. *)
Record STAPluginSettings : Type := Settings {
  sourceTemplate : text;
  topicTemplate : text;
  argumentTemplate : text;
  useTagBasedIdentification : bool;
  sourceTags : list text;
  topicTags : list text;
  argumentTags : list text;
  showFileExplorerLabels : bool
}.

(** [String.prototype.split] with the separator [','] *)
Fixpoint splitComma (s : text) : list text :=
  match s with
  | [] => [[]]
  | c :: s' =>
      if bool_decide (c = ","%char) then [] :: splitComma s'
      else
        match splitComma s' with
        | piece :: pieces => (c :: piece) :: pieces
        | [] => [[c]]
        end
  end.

Definition hashtagTags (content : text) : list text :=
  match matchAll false Pattern.hashtag content with
  | Some hashtagMatches => map (λ tag, toLowerCase (drop 1 tag)) hashtagMatches
  | None => []
  end.

Definition frontmatterTags (content : text) : list text :=
  match exec false Pattern.frontmatter content with
  | Some frontmatterMatch =>
      let frontmatter := group1 frontmatterMatch in
      match exec false Pattern.tagsArray frontmatter with
      | Some tagsArrayMatch =>
          map (λ tag, toLowerCase (replaceAll false Pattern.quoteOrHash [] (trim tag)))
              (splitComma (group1 tagsArrayMatch))
      | None =>
          match exec false Pattern.tagsList frontmatter with
          | Some tagsListMatch =>
              match matchAll false Pattern.listItem (group1 tagsListMatch) with
              | Some listItems =>
                  map (λ item,
                         toLowerCase
                           (replaceAll false Pattern.quoteOrHash []
                              (trim (replaceFirst false Pattern.dash [] item))))
                      listItems
              | None => []
              end
          | None => []
          end
      end
  | None => []
  end.

Definition sectionTags (content : text) : list text :=
  match exec true Pattern.tagsSection content with
  | Some tagsSectionMatch =>
      filter (λ tag, 0 < length tag)
        (map (λ tag, toLowerCase (trim (replaceFirst false Pattern.leadingHash [] tag)))
             (split false Pattern.separators (group1 tagsSectionMatch)))
  | None => []
  end.

(** [extractTagsFromContent]: the three pushes onto [tags], then the
    conversion through a [Set]. *)
Definition extractTagsFromContent (content : text) : list text :=
  unique (hashtagTags content ++ frontmatterTags content ++ sectionTags content).

(** The normalisation of [identifyTypeByTags]: a leading [#] is removed, then
    every single and double quote, then the tag is lower-cased.  The source
    applies the same chain to the note's tags and, as [normalizeConfigTag], to
    the configured ones. *)
Definition normalizeConfigTag (tag : text) : text :=
  toLowerCase (replaceAll false Pattern.quote [] (replaceFirst false Pattern.leadingHash [] tag)).

(** [configured.some(tag => normalizedNoteTags.includes(normalizeConfigTag(tag)))] *)
Definition someTagIncluded (configured normalizedNoteTags : list text) : bool :=
  existsb (λ tag, includes normalizedNoteTags (normalizeConfigTag tag)) configured.

Definition identifyTypeByTags (settings : STAPluginSettings) (noteTags : list text)
  : option STANoteType :=
  let normalizedNoteTags := map normalizeConfigTag noteTags in
  if someTagIncluded (argumentTags settings) normalizedNoteTags then Some argument
  else if someTagIncluded (sourceTags settings) normalizedNoteTags then Some source
  else if someTagIncluded (topicTags settings) normalizedNoteTags then Some topic
  else None.

(** The fallback of [identifyNoteType]: the template marker. *)
Definition identifyTypeByMarker (content : text) : option STANoteType :=
  match exec false Pattern.typeMarker content with
  | Some typeMatch => asNoteType (toLowerCase (group1 typeMatch))
  | None => None
  end.

(** [identifyNoteType], on the content read from the file. *)
Definition identifyNoteType (settings : STAPluginSettings) (content : text)
  : option STANoteType :=
  let typeByTags :=
    if useTagBasedIdentification settings
    then identifyTypeByTags settings (extractTagsFromContent content)
    else None in
  match typeByTags with
  | Some t => Some t
  | None => identifyTypeByMarker content
  end.

(** ** Templates ([src/templates.ts]) and default settings *)

Definition unlines (ls : list text) : text := concat (map (λ l, l ++ [nl]) ls).

Definition quoted (s : text) : text := [dquote] ++ s ++ [dquote].

Definition DEFAULT_SOURCE_TEMPLATE : text :=
  unlines [
    str "---";
    str "DOI:";
    str "Title: {{title}}";
    str "Summary:";
    str "Year:";
    str "Journal:";
    str "Added: {{date}}";
    str "Rating: 0/5";
    str "tags:";
    str "  - " ++ quoted (str "#research");
    str "  - " ++ quoted (str "#source");
    str "---";
    str "";
    str "### [Link To PDF]()";
    str "";
    str "> [!author]";
    str "";
    str "> [!summary]";
    str "";
    str "> [!quote] Quotes";
    str "";
    str "> [!note] BibTeX Citation"
  ].

Definition DEFAULT_TOPIC_TEMPLATE : text :=
  unlines [
    str "---";
    str "tags:";
    str "  - " ++ quoted (str "#research");
    str "  - " ++ quoted (str "#topic");
    str "---";
    str "";
    str "> [!example] Sources";
    str "";
    str "> ![tip] Related Arguments";
    str "";
    str "## Overview";
    str "";
    str "## Questions";
    str "";
    str "-"
  ].

Definition DEFAULT_ARGUMENT_TEMPLATE : text :=
  unlines [
    str "---";
    str "tags:";
    str "  - " ++ quoted (str "#research");
    str "  - " ++ quoted (str "#argument");
    str "---";
    str "";
    str "## Basics";
    str "";
    str "> [!tip] Claim";
    str "";
    str "## Evidence";
    str "";
    str "> [!info] Sources";
    str "";
    str "## Reasoning and Dispute";
    str "";
    str "> [!warning] Counter-Arguments"
  ].

Definition DEFAULT_SETTINGS : STAPluginSettings := {|
  sourceTemplate := DEFAULT_SOURCE_TEMPLATE;
  topicTemplate := DEFAULT_TOPIC_TEMPLATE;
  argumentTemplate := DEFAULT_ARGUMENT_TEMPLATE;
  useTagBasedIdentification := true;
  sourceTags := [str "source"; str "research"; str "reference"];
  topicTags := [str "topic"; str "theme"; str "subject"];
  argumentTags := [str "argument"; str "claim"; str "position"];
  showFileExplorerLabels := true
|}.

(** The template [createNoteFromTemplate] picks for a note type. *)
Definition templateFor (settings : STAPluginSettings) (type : STANoteType) : text :=
  match type with
  | source => sourceTemplate settings
  | topic => topicTemplate settings
  | argument => argumentTemplate settings
  end.

(** The content of [createNoteFromTemplate] after the replacement of the
    two template variables; [date] is the current date in ISO form.  It is
    the content written for a topic and for an argument, and for a source
    when the call has no metadata.  A source created with metadata, as the
    creation modal always does, is rewritten further with the fields of the
    modal; that rewriting is outside this development, and no statement
    below is about the content of a source note. *)
Definition noteContent (settings : STAPluginSettings) (type : STANoteType)
    (title date : text) : text :=
  replaceAll false Pattern.dateVar date
    (replaceAll false Pattern.titleVar title (templateFor settings type)).

(** [validateTagConfiguration]: the flag [isValid] and the warnings. *)
Definition emptyWarning (tags : list text) (message : string) : list string :=
  if length tags =? 0 then [message] else [].

Definition overlapMessage : string :=
  "Some tags are used for multiple note types - this may cause ambiguous identification".

Definition validateTagConfiguration (settings : STAPluginSettings)
  : bool * list string :=
  let allTags := sourceTags settings ++ topicTags settings ++ argumentTags settings in
  let uniqueTags := setSize (map toLowerCase allTags) in
  let warnings :=
    emptyWarning (sourceTags settings) "Source tags list is empty" ++
    emptyWarning (topicTags settings) "Topic tags list is empty" ++
    emptyWarning (argumentTags settings) "Argument tags list is empty" ++
    (if negb (length allTags =? uniqueTags) then [overlapMessage] else []) in
  (length warnings =? 0, warnings).

(** ** The file explorer's elements *)

Module Dom.

(** An element: its class list, its own text, its [title] attribute and
    its child elements. *)
Inductive element : Type :=
| Element (classList : list string) (ownText tooltip : string)
          (children : list element).

Definition classList (e : element) : list string :=
  match e with Element c _ _ _ => c end.
Definition children (e : element) : list element :=
  match e with Element _ _ _ k => k end.
Definition withChildren (e : element) (k : list element) : element :=
  match e with Element c t a _ => Element c t a k end.

Definition hasClass (cls : string) (e : element) : bool :=
  bool_decide (cls ∈ classList e).

(** An element is referred to by the child indices leading to it. *)
Abbreviation path := (list nat).

(** The first element of a forest, in document order, that carries the
    class: the forest's trees are searched in turn, each root before its
    descendants. *)
Fixpoint firstWithClass (cls : string) (e : element) : option path :=
  match e with
  | Element c _ _ kids =>
      if bool_decide (cls ∈ c) then Some []
      else
        (fix among (ks : list element) (i : nat) : option path :=
           match ks with
           | [] => None
           | k :: ks' =>
               match firstWithClass cls k with
               | Some p => Some (i :: p)
               | None => among ks' (S i)
               end
           end) kids 0
  end.

Fixpoint firstAmong (cls : string) (ks : list element) (i : nat) : option path :=
  match ks with
  | [] => None
  | k :: ks' =>
      match firstWithClass cls k with
      | Some p => Some (i :: p)
      | None => firstAmong cls ks' (S i)
      end
  end.

(** [e.querySelector('.cls')]: descendants only. *)
Definition querySelector (cls : string) (e : element) : option path :=
  firstAmong cls (children e) 0.

(** [child.remove()], the child being at path [p] in the forest [ks]. *)
Fixpoint removeAmong (p : path) (ks : list element) : list element :=
  match p with
  | [] => ks
  | i :: p' =>
      match p' with
      | [] => delete i ks
      | _ =>
          match ks !! i with
          | Some k => <[i := withChildren k (removeAmong p' (children k))]> ks
          | None => ks
          end
      end
  end.

(** Removal of the descendant of [e] at path [p]. *)
Definition removeBelow (p : path) (e : element) : element :=
  withChildren e (removeAmong p (children e)).

(** [target.appendChild(child)], the target being at path [p] in the
    forest [ks]; with the empty path the child joins the forest itself. *)
Fixpoint appendAmong (p : path) (child : element) (ks : list element)
  : list element :=
  match p with
  | [] => ks ++ [child]
  | i :: p' =>
      match ks !! i with
      | Some k => <[i := withChildren k (appendAmong p' child (children k))]> ks
      | None => ks
      end
  end.

(** [appendChild] on [e] itself (empty path) or on its descendant at [p]. *)
Definition appendChild (p : path) (child : element) (e : element) : element :=
  withChildren e (appendAmong p child (children e)).

(** The element at a path in a forest. *)
Fixpoint subtreeAt (p : path) (ks : list element) : option element :=
  match p with
  | [] => None
  | i :: p' =>
      match ks !! i with
      | Some k =>
          match p' with
          | [] => Some k
          | _ => subtreeAt p' (children k)
          end
      | None => None
      end
  end.

(** The number of elements of a tree that carry the class. *)
Fixpoint countClass (cls : string) (e : element) : nat :=
  match e with
  | Element c _ _ kids =>
      (if bool_decide (cls ∈ c) then 1 else 0) +
      (fix total (ks : list element) : nat :=
         match ks with
         | [] => 0
         | k :: ks' => countClass cls k + total ks'
         end) kids
  end.

Fixpoint countAmong (cls : string) (ks : list element) : nat :=
  match ks with
  | [] => 0
  | k :: ks' => countClass cls k + countAmong cls ks'
  end.

(** The number of descendants of [e] that carry the class. *)
Definition countBelow (cls : string) (e : element) : nat :=
  countAmong cls (children e).

End Dom.

(** ** File labels *)

Import Dom.

Definition labelClass : string := "sta-file-label".
Definition titleContentClass : string := "nav-file-title-content".

Definition capitalize (s : text) : text :=
  match s with
  | c :: tl => upper_char c :: tl
  | [] => []
  end.

Definition emoji (noteType : STANoteType) : string :=
  match noteType with
  | source => "🌊"
  | topic => "🌿"
  | argument => "🌺"
  end.

(** The [span] that [addLabelToElement] builds. *)
Definition labelEl (noteType : STANoteType) : element :=
  let name := string_of_list_ascii (typeName noteType) in
  let Name := string_of_list_ascii (capitalize (typeName noteType)) in
  Element [labelClass; ("sta-label-" +:+ name)%string] ""
          ("TropiX " +:+ Name +:+ " Note")%string
    [ Element ["sta-label-icon"%string] (emoji noteType) "" [];
      Element ["sta-label-text"%string] Name "" [] ].

(** A title element as a lookup hands it over: the element itself and,
    when it has a parent element, that parent's own data and the siblings
    before and after the title. *)
Record parentContext : Type := ParentContext {
  parentShell : element;           (* the parent, its children left out *)
  before : list element;
  after : list element
}.

Record site : Type := Site {
  parentElement : option parentContext;
  titleEl : element
}.

Definition plug (ctx : parentContext) (title : element) : element :=
  withChildren (parentShell ctx) (before ctx ++ title :: after ctx).

(** [titleEl.parentElement || titleEl] *)
Definition parentEl (s : site) : element :=
  match parentElement s with
  | Some ctx => plug ctx (titleEl s)
  | None => titleEl s
  end.

(** What a call leaves behind: the title element with its parent, and the
    former parent when the call removed the title element itself from it. *)
Record labelled : Type := Labelled {
  now : site;
  formerParent : option element
}.

(** [existingLabel.remove()], [existingLabel] being the descendant of
    [parentEl] at path [p]. *)
Definition removeExisting (s : site) (p : path) : labelled :=
  match parentElement s with
  | None => Labelled (Site None (removeBelow p (titleEl s))) None
  | Some ctx =>
      match p with
      | [] => Labelled s None
      | i :: p' =>
          if i <? length (before ctx) then
            Labelled
              (Site (Some (ParentContext (parentShell ctx)
                             (removeAmong p (before ctx)) (after ctx)))
                    (titleEl s)) None
          else if i =? length (before ctx) then
            match p' with
            | [] =>
                (* the label found is the title element itself *)
                Labelled (Site None (titleEl s))
                  (Some (withChildren (parentShell ctx) (before ctx ++ after ctx)))
            | _ => Labelled (Site (Some ctx) (removeBelow p' (titleEl s))) None
            end
          else
            Labelled
              (Site (Some (ParentContext (parentShell ctx) (before ctx)
                             (removeAmong (i - S (length (before ctx)) :: p') (after ctx))))
                    (titleEl s)) None
      end
  end.

(** The three places the new label can go: the title element when it is
    the title content, else the title content below it, else [parentEl],
    which still names the element computed on entry. *)
Definition attach (r : labelled) (label : element) : labelled :=
  let s := now r in
  if hasClass titleContentClass (titleEl s) then
    Labelled (Site (parentElement s) (appendChild [] label (titleEl s))) (formerParent r)
  else
    match querySelector titleContentClass (titleEl s) with
    | Some navTitleContent =>
        Labelled (Site (parentElement s) (appendChild navTitleContent label (titleEl s)))
                 (formerParent r)
    | None =>
        match formerParent r with
        | Some old => Labelled s (Some (appendChild [] label old))
        | None =>
            match parentElement s with
            | Some ctx =>
                Labelled (Site (Some (ParentContext (parentShell ctx) (before ctx)
                                        (after ctx ++ [label])))
                               (titleEl s)) None
            | None => Labelled (Site None (appendChild [] label (titleEl s))) None
            end
        end
    end.

(** The first half of [addLabelToElement]: the existing label, if the
    query finds one, is removed. *)
Definition clearExisting (s : site) : labelled :=
  match querySelector labelClass (parentEl s) with
  | Some existingLabel => removeExisting s existingLabel
  | None => Labelled s None
  end.

Definition addLabelToElement (s : site) (noteType : option STANoteType) : labelled :=
  let cleared := clearExisting s in
  match noteType with
  | Some t => attach cleared (labelEl t)
  | None => cleared
  end.

(** ** The lookup by [data-path]

    [updateVisualLabel] and [createNoteFromTemplate] look the element of a
    file up with [document.querySelector], the path of the file put between
    double quotes as it is.  What the host makes of such a text is given
    here as far as these texts need it, after CSS Syntax (the string token)
    and Selectors (the attribute selector): a text that is not a selector
    makes the call throw a [SyntaxError]. *)

Inductive queried (A : Type) : Type :=
| SyntaxError
| Null
| Node (node : A).

Arguments SyntaxError {A}.
Arguments Null {A}.
Arguments Node {A} node.

Module Css.

(** Line feed, form feed and carriage return end a line; with the tab and
    the space they are the white space. *)
Definition is_newline (c : ascii) : bool := bool_decide (code c ∈ [10; 12; 13]).

Definition is_whitespace (c : ascii) : bool :=
  is_newline c || bool_decide (code c ∈ [9; 32]).

(** A string token, read from behind its opening double quote: it is
    closed by the next double quote; a line break before that makes it a
    bad string.  A backslash starts an escape and a NUL is replaced on
    input: texts with one of them before the closing quote, and texts that
    end before it, are left unread. *)
Inductive stringToken : Type :=
| Closed (value rest : text)
| BadString
| UnreadString.

Fixpoint consumeString (s : text) : stringToken :=
  match s with
  | [] => UnreadString
  | c :: tl =>
      if bool_decide (c = dquote) then Closed [] tl
      else if is_newline c then BadString
      else if bool_decide (c = backslash) || (code c =? 0) then UnreadString
      else
        match consumeString tl with
        | Closed value rest => Closed (c :: value) rest
        | BadString => BadString
        | UnreadString => UnreadString
        end
  end.

Fixpoint skipWhitespace (s : text) : text :=
  match s with
  | c :: tl => if is_whitespace c then skipWhitespace tl else s
  | [] => []
  end.

(** The texts read: [[data-path=], a string and, after white space if
    any, the closing bracket at the end of the text select the elements
    whose [data-path] attribute is the value of the string.  With a bad
    string the text is not a selector; neither is it when the string is
    followed by something that is not the bracket and cannot begin a
    modifier ([i] or [s], possibly behind a comment or written with an
    escape).  All other texts are left to the document. *)
Inductive selector : Type :=
| DataPathIs (value : text)
| NotASelector
| OtherText.

Definition canFollowValue (c : ascii) : bool :=
  bool_decide (c ∈ ["i"; "I"; "s"; "S"; backslash; "/"]%char).

Definition parse (s : text) : selector :=
  if startsWith (str "[data-path=" ++ [dquote]) s then
    match consumeString (drop 12 s) with
    | Closed value rest =>
        match skipWhitespace rest with
        | c :: tl =>
            if bool_decide (c = "]"%char) then
              match tl with
              | [] => DataPathIs value
              | _ :: _ => OtherText
              end
            else if canFollowValue c then OtherText
            else NotASelector
        | [] => OtherText
        end
    | BadString => NotASelector
    | UnreadString => OtherText
    end
  else OtherText.

End Css.

(** What the lookups of [updateVisualLabel] find in the explorer at some
    moment: the explorer's own item for the path of the file, a title
    whose text is the name of the file, and the answers of the document to
    its queries.  An element found by a query is given by the title
    content below it, if it has one.  [byDataPath] has the first element
    whose [data-path] attribute is a given value; [byOtherSelector]
    answers for the texts that [Css.parse] leaves to the document. *)
Record lookups : Type := Lookups {
  byFileItem : option site;
  byFileName : option site;
  byDataPath : text → option (option site);
  byOtherSelector : text → queried (option site)
}.

Definition nothingVisible : lookups :=
  Lookups None None (λ _, None) (λ _, Null).

(** [document.querySelector(selector)] *)
Definition documentQuerySelector (view : lookups) (selector : text)
  : queried (option site) :=
  match Css.parse selector with
  | Css.DataPathIs value =>
      match byDataPath view value with
      | Some fileElement => Node fileElement
      | None => Null
      end
  | Css.NotASelector => SyntaxError
  | Css.OtherText => byOtherSelector view selector
  end.

(** The selector of a file: the path goes into the template literal
    unescaped. *)
Definition dataPathSelector (path : string) : text :=
  str "[data-path=" ++ [dquote] ++ str path ++ [dquote] ++ str "]".

(** The label map, a [Map] from paths to note types.  Its lookups,
    insertions and deletions are what is modelled; the order in which a
    [Map] is iterated is not. *)
Abbreviation labelMap := (gmap string STANoteType).

(** A call returns or throws. *)
Inductive outcome (A : Type) : Type :=
| Thrown
| Returned (value : A).

Arguments Thrown {A}.
Arguments Returned {A} value.

(** [updateVisualLabel]: the call returns [None] when no element is
    touched. *)
Definition updateVisualLabel (settings : STAPluginSettings) (fileLabels : labelMap)
    (path : string) (view : lookups) : outcome (option labelled) :=
  if negb (showFileExplorerLabels settings) then Returned None
  else
    let noteType := fileLabels !! path in
    match byFileItem view with
    | Some titleEl => Returned (Some (addLabelToElement titleEl noteType))
    | None =>
        match byFileName view with
        | Some titleContent => Returned (Some (addLabelToElement titleContent noteType))
        | None =>
            match documentQuerySelector view (dataPathSelector path) with
            | SyntaxError => Thrown
            | Null => Returned None
            | Node None => Returned None
            | Node (Some titleEl) => Returned (Some (addLabelToElement titleEl noteType))
            end
        end
    end.

(** [updateFileLabel], on the content read from the file: the label map
    after the call, and how the call ended and what it did to the
    explorer.  The map is set before the lookups are made, so it is
    updated also when they throw. *)
Definition updateFileLabel (settings : STAPluginSettings) (fileLabels : labelMap)
    (path : string) (content : text) (view : lookups)
  : labelMap * outcome (option labelled) :=
  let fileLabels' :=
    match identifyNoteType settings content with
    | Some noteType => <[path := noteType]> fileLabels
    | None => delete path fileLabels
    end in
  (fileLabels', updateVisualLabel settings fileLabels' path view).

(** The vault's [delete] and [rename] handlers of [initializeFileLabeling];
    [isFile] is [file instanceof TFile]. *)
Definition onDelete (isFile : bool) (path : string) (fileLabels : labelMap) : labelMap :=
  if isFile then delete path fileLabels else fileLabels.

Definition onRename (isFile : bool) (newPath oldPath : string)
    (fileLabels : labelMap) : labelMap :=
  if isFile && bool_decide (is_Some (fileLabels !! oldPath)) then
    let label := fileLabels !! oldPath in
    let fileLabels' := delete oldPath fileLabels in
    match label with
    | Some l => <[newPath := l]> fileLabels'
    | None => fileLabels'
    end
  else fileLabels.

(** ** The retry chain of [createNoteFromTemplate]

    [element n] is what the query for the element of the file gives when
    the timer of attempt [n] fires.  The result lists the delays of the
    timers armed, in order, and how the chain ended: with
    [updateFileLabel] called, with nothing more done, or with the error of
    the query, which the timer's callback does not catch. *)
Inductive chainEnd : Type := LabelUpdated | GivenUp | Threw.

Equations? attemptLabelUpdate {A : Type} (element : nat → queried A)
    (delay attempt : nat) : list nat * chainEnd by wf (5 - attempt) lt :=
  attemptLabelUpdate element delay attempt with element attempt => {
    | SyntaxError := ([delay], Threw);
    | Node _ := ([delay], LabelUpdated);
    | Null with decide (attempt < 5) => {
        | left _ :=
            let next := attemptLabelUpdate element (delay * 2) (attempt + 1) in
            (delay :: fst next, snd next);
        | right _ := ([delay], GivenUp) } }.
Proof. lia. Qed.

(** The part of [createNoteFromTemplate] after the file is created: the
    label map entry, and the chain when labels are shown.  [views n] is
    the explorer as it is when the timer of attempt [n] fires. *)
Definition labelNewNote (settings : STAPluginSettings) (fileLabels : labelMap)
    (path : string) (type : STANoteType) (views : nat → lookups)
  : labelMap * option (list nat * chainEnd) :=
  if showFileExplorerLabels settings then
    (<[path := type]> fileLabels,
     Some (attemptLabelUpdate
             (λ attempt, documentQuerySelector (views attempt) (dataPathSelector path))
             500 1))
  else (fileLabels, None).


(** ** Listings of notes and tags *)

(** [Array.prototype.join] *)
Fixpoint join (sep : text) (xs : list text) : text :=
  match xs with
  | [] => []
  | x :: xs' =>
      match xs' with
      | [] => x
      | _ :: _ => x ++ sep ++ join sep xs'
      end
  end.

(** [settings[`${noteType}Tags`]] *)
Definition tagsOfType (settings : STAPluginSettings) (noteType : STANoteType)
  : list text :=
  match noteType with
  | source => sourceTags settings
  | topic => topicTags settings
  | argument => argumentTags settings
  end.

(** [getAllSTANotes]: the markdown files of the vault, each with its path
    and the content read from it, are pushed in turn when their type is
    detected and is the one asked for, if one is asked for. *)
Fixpoint getAllSTANotes (settings : STAPluginSettings)
    (files : list (string * text)) (type : option STANoteType)
  : list (string * text) :=
  match files with
  | [] => []
  | file :: files' =>
      let detectedType := identifyNoteType settings file.2 in
      let wanted :=
        match detectedType with
        | Some detected =>
            match type with
            | None => true
            | Some asked => bool_decide (detected = asked)
            end
        | None => false
        end in
      if wanted then file :: getAllSTANotes settings files' type
      else getAllSTANotes settings files' type
  end.

(** [getRelevantTags] of the reference modal. *)
Definition getRelevantTags (settings : STAPluginSettings) (allTags : list text)
    (noteType : option STANoteType) : list text :=
  match noteType with
  | None => take 3 allTags
  | Some type =>
      let typeTags := tagsOfType settings type in
      let relevantTags :=
        filter (λ tag, existsb (λ typeTag,
                          bool_decide (toLowerCase typeTag = toLowerCase tag)) typeTags)
               allTags in
      if length relevantTags =? 0 then take 2 allTags
      else take 3 relevantTags
  end.

(** The tag matches that [testTagIdentification] reports for one note
    type: [configured.filter(tag => extractedTags.includes(tag.toLowerCase()))]. *)
Definition matchingTags (configured extractedTags : list text) : list text :=
  filter (λ tag, includes extractedTags (toLowerCase tag)) configured.

(** The report is made when tag-based identification is on and the note
    has tags. *)
Definition reportsMatches (settings : STAPluginSettings) (extractedTags : list text)
  : bool :=
  useTagBasedIdentification settings && (0 <? length extractedTags).

(** ** The tag fields of the settings tab *)

(** What the text area of a tag setting shows: [tags.join(', ')]. *)
Definition tagSettingValue (tags : list text) : text := join (str ", ") tags.

(** What its [onChange] stores:
    [value.split(',').map(tag => tag.trim()).filter(tag => tag.length > 0)]. *)
Definition tagSettingOnChange (value : text) : list text :=
  filter (λ tag, 0 < length tag) (map trim (splitComma value)).

(** ** Removal of all labels *)

(** [document.querySelectorAll('.cls').forEach(el => el.remove())]: what
    is left of an element, and of a forest, once every element carrying
    the class has been detached from its parent. *)
Fixpoint removeAllBelow (cls : string) (e : element) : element :=
  match e with
  | Element c t a kids =>
      Element c t a
        ((fix among (ks : list element) : list element :=
            match ks with
            | [] => []
            | k :: ks' =>
                if hasClass cls k then among ks'
                else removeAllBelow cls k :: among ks'
            end) kids)
  end.

Fixpoint removeAllAmong (cls : string) (ks : list element) : list element :=
  match ks with
  | [] => []
  | k :: ks' =>
      if hasClass cls k then removeAllAmong cls ks'
      else removeAllBelow cls k :: removeAllAmong cls ks'
  end.

(** [cleanupFileLabeling], on the elements of the document and the label
    map. *)
Definition cleanupFileLabeling (document : list element) (fileLabels : labelMap)
  : list element * labelMap :=
  (removeAllAmong labelClass document, ∅).

(** One label after the other: the first element carrying the class is
    looked up and removed, [n] times at most. *)
Fixpoint removeFirstRepeatedly (n : nat) (cls : string) (ks : list element)
  : list element :=
  match n with
  | 0 => ks
  | S n' =>
      match firstAmong cls ks 0 with
      | Some p => removeFirstRepeatedly n' cls (removeAmong p ks)
      | None => ks
      end
  end.

(** ** The DOI lookup of the note creation modal *)

Module Doi.

(** [/^(https?:\/\/)?(dx\.)?doi\.org\//] *)
Definition resolver : regex :=
  Bos @@ Opt (Group (lit (str "http") @@ Opt (Lit "s") @@ lit (str "://"))) @@
  Opt (Group (lit (str "dx."))) @@ lit (str "doi.org/").
(** [/<[^>]*>/g] *)
Definition htmlTag : regex := Lit "<" @@ Star true (none_of [">"%char]) @@ Lit ">".
(** [/&[^;]+;/g] *)
Definition entity : regex := Lit "&" @@ Plus (none_of [";"%char]) @@ Lit ";".

End Doi.

(** [doi.replace(/^(https?:\/\/)?(dx\.)?doi\.org\//, '')] *)
Definition cleanDOI (doi : text) : text := replaceFirst false Doi.resolver [] doi.

(** [DOIMetadata] of [src/templates.ts]: every field is optional. *)
Record authorName : Type := AuthorName {
  given : option text;
  family : option text
}.

Record dated : Type := Dated {
  date_parts : option (list (list nat))
}.

Record linkEntry : Type := LinkEntry {
  content_type : option text;
  URL : option text
}.

Record DOIMetadata : Type := Metadata {
  title : option (list text);
  author : option (list authorName);
  published_print : option dated;
  published_online : option dated;
  container_title : option (list text);
  abstract : option text;
  link : option (list linkEntry)
}.

(** [x || y] on optional strings: the empty string is falsy. *)
Definition orElse (x : option text) (y : text) : text :=
  match x with
  | Some (c :: s) => c :: s
  | _ => y
  end.

(** [xs?.[0]] *)
Definition firstOf {A : Type} (xs : option (list A)) : option A :=
  match xs with
  | Some (x :: _) => Some x
  | _ => None
  end.

(** [d?.['date-parts']?.[0]?.[0]], as the operand of [||]: zero is falsy. *)
Definition firstDatePart (d : option dated) : option nat :=
  match d with
  | Some (Dated (Some ((year :: _) :: _))) => if year =? 0 then None else Some year
  | _ => None
  end.

(** [`${n}`] for a year: its decimal digits. *)
Definition decimal (n : nat) : text := str (NilZero.string_of_uint (Nat.to_uint n)).

(** [name.replace(/, $/, '')]: a comma and a space at the very end are
    removed. *)
Definition dropTrailingComma (name : text) : text :=
  match rev name with
  | sp :: comma :: front =>
      if bool_decide (sp = " "%char) && bool_decide (comma = ","%char)
      then rev front else name
  | _ => name
  end.

(** [generateBibTeX]; [thisYear] is [new Date().getFullYear()]. *)
Definition generateBibTeX (thisYear : nat) (metadata : DOIMetadata) (doi : text)
  : text :=
  let year :=
    decimal
      (match firstDatePart (published_print metadata) with
       | Some y => y
       | None =>
           match firstDatePart (published_online metadata) with
           | Some y => y
           | None => thisYear
           end
       end) in
  let authors :=
    orElse
      (option_map
         (λ names,
            join (str " and ")
              (map (λ a, dropTrailingComma
                           (orElse (family a) [] ++ str ", " ++ orElse (given a) []))
                   names))
         (author metadata))
      (str "Unknown") in
  let title := orElse (firstOf (title metadata)) (str "Unknown Title") in
  let journal := orElse (firstOf (container_title metadata)) (str "Unknown Journal") in
  let firstAuthorLastName :=
    orElse (match firstOf (author metadata) with Some a => family a | None => None end) (str "unknown") in
  let key := toLowerCase firstAuthorLastName ++ year in
  str "@article{" ++ key ++ str "," ++ [nl] ++
  str "  title={" ++ title ++ str "}," ++ [nl] ++
  str "  author={" ++ authors ++ str "}," ++ [nl] ++
  str "  journal={" ++ journal ++ str "}," ++ [nl] ++
  str "  year={" ++ year ++ str "}," ++ [nl] ++
  str "  doi={" ++ doi ++ str "}" ++ [nl] ++ str "}".

(** What a [fetch] ends in: an exception, or a response with its [ok]
    flag and its body. *)
Inductive response (A : Type) : Type :=
| FetchFailed
| Response (ok : bool) (body : A).
Arguments FetchFailed {A}.
Arguments Response {A} ok body.

(** The body of an answer of the CrossRef API, read with [response.json()]:
    not JSON, or an object with its [message], which can be missing. *)
Inductive jsonBody : Type :=
| NotJson
| Json (message : option DOIMetadata).

(** The servers, as the answers they give to the URLs asked. *)
Record network : Type := Network {
  fetchText : text → response text;
  fetchJson : text → response jsonBody
}.

(** [fetchDOIMetadata]: [None] when it throws, else [data.message]. *)
Definition fetchDOIMetadata (net : network) (doi : text)
  : option (option DOIMetadata) :=
  let url := str "https://api.crossref.org/works/" ++ cleanDOI doi in
  match fetchJson net url with
  | Response true (Json message) => Some message
  | _ => None
  end.

(** The test both BibTeX services are put to:
    [bibtex.trim() && bibtex.includes('@')]. *)
Definition looksLikeBibTeX (bibtex : text) : bool :=
  (0 <? length (trim bibtex)) && bool_decide ("@"%char ∈ bibtex).

Definition bibtexFrom (answer : response text) : option text :=
  match answer with
  | Response true bibtex => if looksLikeBibTeX bibtex then Some (trim bibtex) else None
  | _ => None
  end.

(** [fetchBibTeXFromDOI]: [None] when it throws. *)
Definition fetchBibTeXFromDOI (thisYear : nat) (net : network) (doi : text)
  : option text :=
  let clean := cleanDOI doi in
  match bibtexFrom (fetchText net (str "https://doi.org/" ++ clean)) with
  | Some bibtex => Some bibtex
  | None =>
      match bibtexFrom (fetchText net
                          (str "https://citation.crosscite.org/format?doi=" ++ clean ++
                           str "&style=bibtex&lang=en-US")) with
      | Some bibtex => Some bibtex
      | None =>
          match fetchDOIMetadata net doi with
          | Some (Some metadata) => Some (generateBibTeX thisYear metadata clean)
          | _ => None
          end
      end
  end.

(** The summary [populateFieldsFromMetadata] fills in from the abstract. *)
Definition summaryFromAbstract (abstract : text) : text :=
  let cleanAbstract :=
    trim (replaceAll false Doi.entity (str " ")
            (replaceAll false Doi.htmlTag [] abstract)) in
  let maxLength := 200 in
  if maxLength <? length cleanAbstract
  then take maxLength cleanAbstract ++ str "..."
  else cleanAbstract.

(** ** The generated templates file ([scripts/build.mjs]) *)

Definition backtick : ascii := "096"%char.
Definition carriageReturn : ascii := "013"%char.

(** The escaping of [generateTemplatesFile]: every backslash is doubled,
    then every backtick and every [${] is given a backslash. *)
Definition escapedContent (content : text) : text :=
  replaceAll false (lit (str "${")) (backslash :: str "${")
    (replaceAll false (Lit backtick) [backslash; backtick]
       (replaceAll false (Lit backslash) [backslash; backslash] content)).

(** The value of the template literal that the generated file holds, its
    text between the backticks being [body]: a backslash before a
    backslash, a backtick or a dollar sign stands for that code unit, a
    carriage return, with the line feed after it if there is one, is read
    as a line feed; [None] where the body ends the literal early, starts a
    substitution or has another escape. *)
Fixpoint templateValue (body : text) : option text :=
  match body with
  | [] => Some []
  | c :: rest =>
      if bool_decide (c = backslash) then
        match rest with
        | d :: rest' =>
            if bool_decide (d ∈ [backslash; backtick; "$"%char])
            then option_map (cons d) (templateValue rest')
            else None
        | [] => None
        end
      else if bool_decide (c = backtick) then None
      else if bool_decide (c = "$"%char) then
        match rest with
        | d :: _ =>
            if bool_decide (d = "{"%char) then None
            else option_map (cons c) (templateValue rest)
        | [] => Some [c]
        end
      else if bool_decide (c = carriageReturn) then
        match rest with
        | d :: rest' =>
            if bool_decide (d = nl) then option_map (cons nl) (templateValue rest')
            else option_map (cons nl) (templateValue rest)
        | [] => Some [nl]
        end
      else option_map (cons c) (templateValue rest)
  end.

(** ** The label map after a refresh *)

(** [refreshAllFileLabels]: [updateFileLabel] for every markdown file of
    the vault in turn, each with its path and the content read from it;
    [view path] is the explorer as the lookups for that file find it.  A
    call that throws ends the loop, and the files after it are not
    reached.  The result is the label map and how the loop ended; the
    refresh of the visible labels that a timer makes afterwards is not
    part of it. *)
Fixpoint refreshAllFileLabels (settings : STAPluginSettings)
    (markdownFiles : list (string * text)) (view : string → lookups)
    (fileLabels : labelMap) : labelMap * outcome unit :=
  match markdownFiles with
  | [] => (fileLabels, Returned ())
  | file :: rest =>
      let updated := updateFileLabel settings fileLabels file.1 file.2 (view file.1) in
      match updated.2 with
      | Thrown => (updated.1, Thrown)
      | Returned _ => refreshAllFileLabels settings rest view updated.1
      end
  end.


(** ** Vocabulary of the statements *)

(** A configured tag and a tag of the note agree after normalisation. *)
Definition sharesTag (configured noteTags : list text) : Prop :=
  ∃ c n, c ∈ configured ∧ n ∈ noteTags ∧ normalizeConfigTag c = normalizeConfigTag n.

(** Some tag, compared without regard to case, is configured for two note
    types. *)
Definition tagInTwoTypes (settings : STAPluginSettings) (a b : text) : Prop :=
  toLowerCase a = toLowerCase b ∧
  ((a ∈ sourceTags settings ∧ b ∈ topicTags settings) ∨
   (a ∈ sourceTags settings ∧ b ∈ argumentTags settings) ∨
   (a ∈ topicTags settings ∧ b ∈ argumentTags settings)).

(** The value a template marker spells for a note type: [Source], [Topic]
    or [Argument]. *)
Definition markerValue (t : STANoteType) : text := capitalize (typeName t).

(** A marker for [t] starts at index [i] of the content: the text
    [**Type:**], then white space, possibly none, then the value. *)
Definition markerAt (content : text) (i : nat) (t : STANoteType) : Prop :=
  ∃ front spaces tail,
    content = front ++ str "**Type:**" ++ spaces ++ markerValue t ++ tail
    ∧ length front = i
    ∧ Forall (λ c, is_space c = true) spaces.

(** The marker that starts at the very beginning of a text, read directly. *)
Definition markerHere (s : text) : option STANoteType :=
  if startsWith (str "**Type:**") s then
    let value := trimStart (drop 9 s) in
    if startsWith (markerValue source) value then Some source
    else if startsWith (markerValue topic) value then Some topic
    else if startsWith (markerValue argument) value then Some argument
    else None
  else None.

(** The first marker of a text, read directly. *)
Fixpoint firstMarker (s : text) : option STANoteType :=
  match markerHere s with
  | Some t => Some t
  | None =>
      match s with
      | [] => None
      | _ :: s' => firstMarker s'
      end
  end.

(** A text without its leading [#], if it has one. *)
Definition dropLeadingHash (s : text) : text :=
  match s with
  | c :: tl => if bool_decide (c = "#"%char) then tl else s
  | [] => []
  end.

(** A text without the code units of a class. *)
Fixpoint removeClass (p : ascii → bool) (s : text) : text :=
  match s with
  | c :: s' => if p c then removeClass p s' else c :: removeClass p s'
  | [] => []
  end.

Definition isQuote (c : ascii) : bool := bool_decide (c ∈ [squote; dquote]).

(** [tag'] is [tag] with a leading [#] added, or put between two single or
    two double quotes, or with the case of its letters changed. *)
Definition decorationOf (tag tag' : text) : Prop :=
  tag' = "#"%char :: tag
  ∨ (∃ q, q ∈ [squote; dquote] ∧ tag' = q :: tag ++ [q])
  ∨ toLowerCase tag' = toLowerCase tag.

(** A list of configured tags in which some tags have been replaced by
    decorations of themselves: any tag by one that differs in the case of
    letters only, a tag that does not begin with [#] by any decoration. *)
Definition redecorated (tags tags' : list text) : Prop :=
  Forall2 (λ tag tag',
             toLowerCase tag' = toLowerCase tag
             ∨ (head tag ≠ Some "#"%char ∧ decorationOf tag tag'))
          tags tags'.

(** A continuation of the matcher that fails whenever the input goes on
    with a code unit of the class. *)
Definition blockedBy {R : Type} (p : ascii → bool) (k : state → option R) : Prop :=
  ∀ s d tl, rest s = d :: tl → p d = true → k s = None.

(** The note type a match of the marker pattern is read as. *)
Definition readType (typeMatch : found) : option STANoteType :=
  asNoteType (toLowerCase (group1 typeMatch)).

(** The answer to the query for the element of a file. *)
Definition byQuery (view : lookups) (path : string) : queried (option site) :=
  documentQuerySelector view (dataPathSelector path).


(** The first two lookups find nothing for the file. *)
Definition unlisted (view : lookups) : Prop :=
  byFileItem view = None ∧ byFileName view = None.

(** A path without double quote, backslash, line break and NUL. *)
Definition plainPathChar (c : ascii) : bool :=
  negb (bool_decide (c = dquote)) && negb (Css.is_newline c)
  && negb (bool_decide (c = backslash)) && negb (code c =? 0).

Definition plainPath (path : string) : Prop :=
  Forall (λ c, plainPathChar c = true) (str path).

(** A path with a double quote in it. *)
Definition quotedPath : string :=
  string_of_list_ascii (str "Topics/a" ++ [dquote] ++ str "b.md").





(** The lookups for a file throw. *)
Definition throwsFor (settings : STAPluginSettings) (view : string → lookups)
    (path : string) : Prop :=
  showFileExplorerLabels settings = true ∧ unlisted (view path)
  ∧ byQuery (view path) path = SyntaxError.

(** A title content element of the explorer below its title element, as
    the host renders it. *)
Definition exampleTitle : site :=
  Site (Some (ParentContext (Element ["nav-file-title"%string] "" "" []) [] []))
       (Element [titleContentClass] "Reading notes" "" []).

(** Every text of the list is the lower-casing of some text. *)
Definition lowered (xs : list text) : Prop :=
  ∀ t, t ∈ xs → ∃ u, t = toLowerCase u.

(** The number of labels below the parent element of a title. *)
Definition labelsAt (s : site) : nat := countBelow labelClass (parentEl s).

(** The settings with tag-based identification switched off. *)
Definition withoutTags (settings : STAPluginSettings) : STAPluginSettings :=
  Settings (sourceTemplate settings) (topicTemplate settings) (argumentTemplate settings)
           false (sourceTags settings) (topicTags settings) (argumentTags settings)
           (showFileExplorerLabels settings).

(** The settings with other source tags. *)
Definition withSourceTags (settings : STAPluginSettings) (tags : list text)
  : STAPluginSettings :=
  Settings (sourceTemplate settings) (topicTemplate settings) (argumentTemplate settings)
           (useTagBasedIdentification settings) tags (topicTags settings)
           (argumentTags settings) (showFileExplorerLabels settings).

(** The texts a pattern can match, with the captures the matcher records
    on the way. *)
Inductive denotes (icase : bool) : regex → text → list text → Prop :=
| denotes_empty : denotes icase Empty [] []
| denotes_lit c d : lit_matches icase c d = true → denotes icase (Lit c) [d] []
| denotes_class p d : p d = true → denotes icase (Class p) [d] []
| denotes_seq r1 r2 w1 w2 cs1 cs2 :
    denotes icase r1 w1 cs1 → denotes icase r2 w2 cs2 →
    denotes icase (Seq r1 r2) (w1 ++ w2) (cs1 ++ cs2)
| denotes_alt_l r1 r2 w cs : denotes icase r1 w cs → denotes icase (Alt r1 r2) w cs
| denotes_alt_r r1 r2 w cs : denotes icase r2 w cs → denotes icase (Alt r1 r2) w cs
| denotes_star_stop g r : denotes icase (Star g r) [] []
| denotes_star_more g r w1 w2 cs1 cs2 :
    denotes icase r w1 cs1 → denotes icase (Star g r) w2 cs2 →
    denotes icase (Star g r) (w1 ++ w2) (cs1 ++ cs2)
| denotes_group r w cs : denotes icase r w cs → denotes icase (Group r) w (cs ++ [w])
| denotes_bos : denotes icase Bos [] [].

(** Where the matcher goes on after a pattern, it has consumed a text the
    pattern denotes and recorded its captures. *)
Definition passes {R : Type} (icase : bool) (r : regex) (s : state)
    (k : state → option R) (x : R) : Prop :=
  ∃ w cs s', denotes icase r w cs
    ∧ rest s = w ++ rest s'
    ∧ pos s' = pos s + length w
    ∧ caps s' = caps s ++ cs
    ∧ k s' = Some x.

(** A tag as the settings tab stores it: not empty, without white space
    around it and without a comma. *)
Definition plainTag (tag : text) : Prop :=
  tag ≠ [] ∧ trim tag = tag ∧ ","%char ∉ tag.

(** The delays of a number of timers, each twice the one before. *)
Definition delaysFrom (delay timers : nat) : list nat :=
  map (λ i, delay * 2 ^ i) (seq 0 timers).

(** The ways a DOI is written as an address of the resolver. *)
Definition resolverPrefixes : list text :=
  map str ["doi.org/"; "dx.doi.org/"; "http://doi.org/"; "https://doi.org/";
           "http://dx.doi.org/"; "https://dx.doi.org/"]%string.

(** The code units that separate the tags under a [## Tags] heading. *)
Definition is_separator (c : ascii) : bool := bool_decide (c = ","%char) || is_space c.

(** No [<] of the text is followed, anywhere after it, by a [>]. *)
Fixpoint tagFree (s : text) : Prop :=
  match s with
  | [] => True
  | c :: s' => (c = "<"%char → ">"%char ∉ s') ∧ tagFree s'
  end.

(** The code units other than [>]. *)
Definition notGt (c : ascii) : bool := negb (bool_decide (c ∈ [">"%char])).

(** A text in which every occurrence of a word, found from left to right,
    is replaced by another text; the first [skip] code units are passed
    over. *)
Fixpoint substitute (w out : text) (skip : nat) (s : text) : text :=
  match s with
  | [] => []
  | c :: s' =>
      match skip with
      | S k => substitute w out k s'
      | 0 =>
          if startsWith w s then out ++ substitute w out (length w - 1) s'
          else c :: substitute w out 0 s'
      end
  end.

(** The escaping of a template in one pass. *)
Fixpoint escaped (s : text) : text :=
  match s with
  | [] => []
  | c :: s' =>
      if bool_decide (c = backslash) then backslash :: backslash :: escaped s'
      else if bool_decide (c = backtick) then backslash :: backtick :: escaped s'
      else if bool_decide (c = "$"%char) then
        match s' with
        | d :: _ =>
            if bool_decide (d = "{"%char) then backslash :: c :: escaped s'
            else c :: escaped s'
        | [] => [c]
        end
      else c :: escaped s'
  end.

(** Backslashes doubled and backticks given a backslash. *)
Fixpoint escapedTicks (s : text) : text :=
  match s with
  | [] => []
  | c :: s' =>
      if bool_decide (c = backslash) then backslash :: backslash :: escapedTicks s'
      else if bool_decide (c = backtick) then backslash :: backtick :: escapedTicks s'
      else c :: escapedTicks s'
  end.

(** The rank of a result of [identifyTypeByTags] in the order in which the
    tag lists are consulted. *)
Definition priority (result : option STANoteType) : nat :=
  match result with
  | Some argument => 3
  | Some source => 2
  | Some topic => 1
  | None => 0
  end.

(** * Properties *)

Ltac in_list :=
  vm_compute; repeat first [apply list_elem_of_here | apply list_elem_of_further].

(** ** Code units and sets of tags *)

Section Primitives.

Lemma lower_char_not_upper (c : ascii) : is_upper (lower_char c) = false.
Proof. destruct c as [[] [] [] [] [] [] [] []]; reflexivity. Qed.

Lemma lower_char_fixed (c : ascii) : is_upper c = false → lower_char c = c.
Proof. unfold lower_char. intros ->. reflexivity. Qed.

Lemma toLowerCase_no_upper (s : text) :
  Forall (λ c, is_upper c = false) (toLowerCase s).
Proof.
  unfold toLowerCase. induction s as [|c s IH]; simpl; constructor; auto.
  apply lower_char_not_upper.
Qed.

Lemma toLowerCase_idemp (s : text) : toLowerCase (toLowerCase s) = toLowerCase s.
Proof.
  unfold toLowerCase. induction s as [|c s IH]; simpl; [reflexivity|].
  rewrite IH. f_equal. apply lower_char_fixed, lower_char_not_upper.
Qed.

Lemma uniqueFrom_elem (seen xs : list text) (x : text) :
  x ∈ uniqueFrom seen xs ↔ x ∈ xs ∧ x ∉ seen.
Proof.
  revert seen. induction xs as [|y xs IH]; intros seen; simpl.
  - split; [intros H; inversion H | intros [H _]; inversion H].
  - case_bool_decide as Hy.
    + rewrite IH, elem_of_cons. split; [tauto|].
      intros [[->|H] Hs]; [contradiction | tauto].
    + rewrite !elem_of_cons, IH, elem_of_cons.
      destruct (decide (x = y)) as [->|Hne]; tauto.
Qed.

Lemma uniqueFrom_NoDup (seen xs : list text) : NoDup (uniqueFrom seen xs).
Proof.
  revert seen. induction xs as [|y xs IH]; intros seen; simpl.
  - constructor.
  - case_bool_decide as Hy; [apply IH|].
    constructor; [|apply IH].
    rewrite uniqueFrom_elem, elem_of_cons. tauto.
Qed.

Lemma unique_elem (xs : list text) (x : text) : x ∈ unique xs ↔ x ∈ xs.
Proof.
  unfold unique. rewrite uniqueFrom_elem. split; [tauto|].
  intros H; split; [assumption|]. intros H'; inversion H'.
Qed.

Lemma unique_NoDup (xs : list text) : NoDup (unique xs).
Proof. apply uniqueFrom_NoDup. Qed.

Lemma uniqueFrom_length (seen xs : list text) :
  length (uniqueFrom seen xs) ≤ length xs.
Proof.
  revert seen. induction xs as [|y xs IH]; intros seen; simpl; [lia|].
  case_bool_decide; simpl;
    [specialize (IH seen) | specialize (IH (y :: seen))]; lia.
Qed.

Lemma uniqueFrom_full (seen xs : list text) :
  length (uniqueFrom seen xs) = length xs → uniqueFrom seen xs = xs.
Proof.
  revert seen. induction xs as [|y xs IH]; intros seen; simpl; [reflexivity|].
  case_bool_decide; simpl; intros Hlen.
  - pose proof (uniqueFrom_length seen xs). lia.
  - f_equal. apply IH. lia.
Qed.

(** The size of the set is the length of the list only when the list
    has no repetition. *)
Lemma setSize_full (xs : list text) : setSize xs = length xs → NoDup xs.
Proof.
  unfold setSize, unique. intros H.
  rewrite <- (uniqueFrom_full [] xs H). apply uniqueFrom_NoDup.
Qed.

End Primitives.

(** ** Tags of a note *)

Section Tags.

Lemma elem_of_map {A B : Type} (f : A → B) (l : list A) (y : B) :
  y ∈ map f l ↔ ∃ x, y = f x ∧ x ∈ l.
Proof. exact (list_elem_of_fmap f l y). Qed.

Lemma lowered_map (f : text → text) (xs : list text) :
  lowered (map (λ x, toLowerCase (f x)) xs).
Proof.
  intros t Ht. apply elem_of_map in Ht as (x & -> & _). eauto.
Qed.

Lemma lowered_nil : lowered [].
Proof. intros t Ht. inversion Ht. Qed.

Lemma lowered_app (xs ys : list text) : lowered xs → lowered ys → lowered (xs ++ ys).
Proof. intros Hx Hy t [H|H]%elem_of_app; auto. Qed.

Lemma hashtagTags_lowered (content : text) : lowered (hashtagTags content).
Proof.
  unfold hashtagTags. destruct (matchAll _ _ _);
    [apply (lowered_map (drop 1)) | apply lowered_nil].
Qed.

Lemma frontmatterTags_lowered (content : text) : lowered (frontmatterTags content).
Proof.
  unfold frontmatterTags.
  repeat match goal with
         | |- lowered (match ?x with _ => _ end) => destruct x
         | |- lowered [] => apply lowered_nil
         end.
  - apply (lowered_map (λ tag, replaceAll false Pattern.quoteOrHash [] (trim tag))).
  - apply (lowered_map
             (λ item, replaceAll false Pattern.quoteOrHash []
                        (trim (replaceFirst false Pattern.dash [] item)))).
Qed.

Lemma sectionTags_lowered (content : text) : lowered (sectionTags content).
Proof.
  unfold sectionTags. destruct (exec _ _ _); [|apply lowered_nil].
  intros t [_ Ht]%list_elem_of_filter. revert t Ht.
  apply (lowered_map (λ tag, trim (replaceFirst false Pattern.leadingHash [] tag))).
Qed.

Lemma extractTags_lowered (content : text) : lowered (extractTagsFromContent content).
Proof.
  intros t Ht. unfold extractTagsFromContent in Ht.
  apply (proj1 (unique_elem _ _)) in Ht.
  apply (lowered_app _ _ (hashtagTags_lowered content)
           (lowered_app _ _ (frontmatterTags_lowered content)
              (sectionTags_lowered content))).
  exact Ht.
Qed.

(** C5: the tags extracted from a text have no repetition, every one of
    them is entirely lower case (it holds no letter that has a lowercase
    partner, and lower-casing leaves it as it is), and the result depends
    on the text alone: equal texts give the same tags up to order. *)
Theorem extractTags_set_of_lowercase (content : text) :
  NoDup (extractTagsFromContent content)
  ∧ (∀ tag, tag ∈ extractTagsFromContent content →
       Forall (λ c, is_upper c = false) tag ∧ toLowerCase tag = tag)
  ∧ (∀ content', content' = content →
       extractTagsFromContent content' ≡ₚ extractTagsFromContent content).
Proof.
  split; [apply unique_NoDup|]. split.
  - intros tag (u & ->)%extractTags_lowered.
    split; [apply toLowerCase_no_upper | apply toLowerCase_idemp].
  - intros content' ->. reflexivity.
Qed.

Lemma extractTags_set_of_lowercase_witness :
  let content := str "#Alpha #alpha #BETA" in
  extractTagsFromContent content = [str "alpha"; str "beta"]
  ∧ NoDup (extractTagsFromContent content)
  ∧ (str "beta" ∈ extractTagsFromContent content → toLowerCase (str "beta") = str "beta")
  ∧ extractTagsFromContent (str "#Alpha #alpha #BETA") ≡ₚ extractTagsFromContent content.
Proof.
  intros content.
  destruct (extractTags_set_of_lowercase content) as (Hnd & Hlow & Hdet).
  split; [vm_compute; reflexivity|].
  split; [exact Hnd|].
  split; [intros Hin; exact (proj2 (Hlow _ Hin))|].
  apply Hdet. reflexivity.
Defined.

End Tags.

(** ** Classification by tags *)

Section ByTags.

Lemma someTagIncluded_spec (configured noteTags : list text) :
  someTagIncluded configured (map normalizeConfigTag noteTags) = true
  ↔ sharesTag configured noteTags.
Proof.
  unfold someTagIncluded, sharesTag, includes.
  rewrite existsb_exists. split.
  - intros (c & Hc%list_elem_of_In & Hin%bool_decide_eq_true).
    apply elem_of_map in Hin as (n & Heq & Hn). eauto.
  - intros (c & n & Hc & Hn & Heq). exists c.
    split; [apply list_elem_of_In, Hc|].
    apply bool_decide_eq_true, elem_of_map. eauto.
Qed.

Lemma someTagIncluded_false (configured noteTags : list text) :
  someTagIncluded configured (map normalizeConfigTag noteTags) = false
  ↔ ¬ sharesTag configured noteTags.
Proof.
  rewrite <- someTagIncluded_spec.
  destruct (someTagIncluded _ _); split; congruence.
Qed.

Lemma sharesTag_literal (configured noteTags : list text) (t : text) :
  t ∈ configured → t ∈ noteTags → sharesTag configured noteTags.
Proof. intros Hc Hn. exists t, t. auto. Qed.

(** The result of [identifyTypeByTags] in terms of the lists that share a
    tag with the note. *)
Lemma identifyTypeByTags_cases (settings : STAPluginSettings) (noteTags : list text) :
  let A := sharesTag (argumentTags settings) noteTags in
  let S := sharesTag (sourceTags settings) noteTags in
  let T := sharesTag (topicTags settings) noteTags in
  (identifyTypeByTags settings noteTags = Some argument ↔ A)
  ∧ (identifyTypeByTags settings noteTags = Some source ↔ ¬ A ∧ S)
  ∧ (identifyTypeByTags settings noteTags = Some topic ↔ ¬ A ∧ ¬ S ∧ T)
  ∧ (identifyTypeByTags settings noteTags = None ↔ ¬ A ∧ ¬ S ∧ ¬ T).
Proof.
  intros A S T.
  assert (HA := someTagIncluded_spec (argumentTags settings) noteTags).
  assert (HS := someTagIncluded_spec (sourceTags settings) noteTags).
  assert (HT := someTagIncluded_spec (topicTags settings) noteTags).
  fold A in HA. fold S in HS. fold T in HT.
  unfold identifyTypeByTags.
  destruct (someTagIncluded (argumentTags settings) _),
           (someTagIncluded (sourceTags settings) _),
           (someTagIncluded (topicTags settings) _);
    intuition congruence.
Qed.

(** C1: the configured tag lists are consulted in the order argument,
    source, topic, and the first whose tags meet the note's tags, both
    normalised, decides; no list meeting them gives no type.  A note that
    carries a configured source tag and a configured argument tag is an
    argument. *)
Theorem identifyTypeByTags_priority (settings : STAPluginSettings) (noteTags : list text) :
  let A := sharesTag (argumentTags settings) noteTags in
  let S := sharesTag (sourceTags settings) noteTags in
  let T := sharesTag (topicTags settings) noteTags in
  (identifyTypeByTags settings noteTags = Some argument ↔ A)
  ∧ (identifyTypeByTags settings noteTags = Some source ↔ ¬ A ∧ S)
  ∧ (identifyTypeByTags settings noteTags = Some topic ↔ ¬ A ∧ ¬ S ∧ T)
  ∧ (identifyTypeByTags settings noteTags = None ↔ ¬ A ∧ ¬ S ∧ ¬ T)
  ∧ (∀ s a, s ∈ sourceTags settings → a ∈ argumentTags settings →
            s ∈ noteTags → a ∈ noteTags →
            identifyTypeByTags settings noteTags = Some argument).
Proof.
  intros A S T.
  destruct (identifyTypeByTags_cases settings noteTags) as (HA & HS & HT & HN).
  repeat (split; [assumption|]).
  intros s a _ Ha _ Ha'. apply HA. exact (sharesTag_literal _ _ a Ha Ha').
Qed.

Lemma identifyTypeByTags_priority_witness :
  let settings := DEFAULT_SETTINGS in
  let noteTags := [str "source"; str "draft"; str "claim"] in
  str "source" ∈ sourceTags settings ∧ str "claim" ∈ argumentTags settings
  ∧ str "source" ∈ noteTags ∧ str "claim" ∈ noteTags
  ∧ identifyTypeByTags settings noteTags = Some argument.
Proof.
  intros settings noteTags.
  assert (Hs : str "source" ∈ sourceTags settings) by in_list.
  assert (Ha : str "claim" ∈ argumentTags settings) by in_list.
  assert (Hs' : str "source" ∈ noteTags) by in_list.
  assert (Ha' : str "claim" ∈ noteTags) by in_list.
  repeat (split; [assumption|]).
  exact (proj2 (proj2 (proj2 (proj2 (identifyTypeByTags_priority settings noteTags))))
           _ _ Hs Ha Hs' Ha').
Defined.

End ByTags.

(** ** The two strategies together *)

Section Strategies.

(** C3: with tag-based identification on, the type found from the tags
    is returned when there is one, and the template marker decides
    otherwise; with it off, the marker alone decides and the configured
    tags play no part. *)
Theorem identifyNoteType_composition (settings : STAPluginSettings) (content : text) :
  (useTagBasedIdentification settings = true →
     identifyNoteType settings content =
     match identifyTypeByTags settings (extractTagsFromContent content) with
     | Some t => Some t
     | None => identifyTypeByMarker content
     end)
  ∧ (useTagBasedIdentification settings = false →
     identifyNoteType settings content = identifyTypeByMarker content
     ∧ ∀ settings', useTagBasedIdentification settings' = false →
         identifyNoteType settings' content = identifyNoteType settings content).
Proof.
  unfold identifyNoteType. split.
  - intros ->. reflexivity.
  - intros ->. split; [reflexivity|]. intros settings' ->. reflexivity.
Qed.

Lemma identifyNoteType_composition_witness :
  let tagged := str "#claim **Type:** Source" in
  let plain := str "**Type:** Source" in
  (useTagBasedIdentification DEFAULT_SETTINGS = true ∧
   identifyNoteType DEFAULT_SETTINGS tagged = Some argument ∧
   identifyNoteType DEFAULT_SETTINGS plain = Some source)
  ∧ (useTagBasedIdentification (withoutTags DEFAULT_SETTINGS) = false ∧
     identifyNoteType (withoutTags DEFAULT_SETTINGS) tagged = Some source).
Proof.
  intros tagged plain. split.
  - split; [reflexivity|]. split.
    + rewrite (proj1 (identifyNoteType_composition DEFAULT_SETTINGS tagged) eq_refl).
      vm_compute. reflexivity.
    + rewrite (proj1 (identifyNoteType_composition DEFAULT_SETTINGS plain) eq_refl).
      vm_compute. reflexivity.
  - split; [reflexivity|].
    rewrite (proj1 (proj2 (identifyNoteType_composition
                             (withoutTags DEFAULT_SETTINGS) tagged) eq_refl)).
    vm_compute. reflexivity.
Defined.

Lemma replaceAll_no_match (icase : bool) (r : regex) (repl s : text) :
  exec icase r s = None → replaceAll icase r repl s = s.
Proof.
  unfold replaceAll, exec. intros H. cbn [replace_from]. rewrite H. reflexivity.
Qed.

Lemma topic_note_content (title date : text) :
  noteContent DEFAULT_SETTINGS topic title date = DEFAULT_TOPIC_TEMPLATE.
Proof.
  unfold noteContent.
  change (templateFor DEFAULT_SETTINGS topic) with DEFAULT_TOPIC_TEMPLATE.
  rewrite (replaceAll_no_match false Pattern.titleVar title DEFAULT_TOPIC_TEMPLATE)
    by (vm_compute; reflexivity).
  apply replaceAll_no_match. vm_compute. reflexivity.
Qed.

(** C4: with the default settings, a note made from the default topic
    template is identified as a source.  Its tags are [research] and
    [topic]; [research] is a default source tag, and the source tags are
    consulted before the topic tags. *)
Theorem default_topic_note_is_source (title date : text) :
  let content := noteContent DEFAULT_SETTINGS topic title date in
  extractTagsFromContent content = [str "research"; str "topic"]
  ∧ str "research" ∈ sourceTags DEFAULT_SETTINGS
  ∧ str "topic" ∈ topicTags DEFAULT_SETTINGS
  ∧ identifyTypeByTags DEFAULT_SETTINGS (extractTagsFromContent content) = Some source
  ∧ identifyNoteType DEFAULT_SETTINGS content = Some source.
Proof.
  intros content. subst content. rewrite topic_note_content.
  split; [vm_compute; reflexivity|].
  split; [in_list|]. split; [in_list|].
  split; vm_compute; reflexivity.
Qed.

(** [identifyTypeByTags] at a configured tag spelled with a leading hash
    inside quotes, the spelling of the default templates.  The configured
    tag [#source] identifies a note tagged [source]; the same tag in quotes
    does not: the hash is looked for at the very start only, before the
    quotes are removed.  The front matter path of [extractTagsFromContent]
    reads the same spelling as [source]. *)
Lemma quoted_hash_tag_not_recognised :
  let bare := withSourceTags DEFAULT_SETTINGS [str "#source"] in
  let inQuotes := withSourceTags DEFAULT_SETTINGS [quoted (str "#source")] in
  identifyTypeByTags bare [str "source"] = Some source
  ∧ identifyTypeByTags inQuotes [str "source"] = None
  ∧ normalizeConfigTag (str "#source") = str "source"
  ∧ normalizeConfigTag (quoted (str "#source")) = str "#source"
  ∧ frontmatterTags
      (unlines [str "---"; str "tags:"; str "  - " ++ quoted (str "#source"); str "---"])
    = [str "source"].
Proof. repeat split; vm_compute; reflexivity. Qed.

End Strategies.

(** ** Validation of the configured tags *)

Section Validation.

Lemma emptyWarning_elem (tags : list text) (message w : string) :
  w ∈ emptyWarning tags message ↔ tags = [] ∧ w = message.
Proof.
  unfold emptyWarning. destruct tags as [|t tags]; simpl.
  - rewrite list_elem_of_singleton. tauto.
  - split; [intros H; inversion H | intros [H _]; discriminate].
Qed.

Lemma overlap_detected (settings : STAPluginSettings) (a b : text) :
  tagInTwoTypes settings a b →
  length (sourceTags settings ++ topicTags settings ++ argumentTags settings)
  ≠ setSize (map toLowerCase
               (sourceTags settings ++ topicTags settings ++ argumentTags settings)).
Proof.
  intros (Heq & Hwhere) Hlen.
  assert (Hnd : NoDup (map toLowerCase (sourceTags settings) ++
                       map toLowerCase (topicTags settings) ++
                       map toLowerCase (argumentTags settings))).
  { rewrite <- !map_app. apply setSize_full. rewrite length_map. auto. }
  apply NoDup_app in Hnd as (_ & Hst & Hnd).
  apply NoDup_app in Hnd as (_ & Hta & _).
  assert (Hin : ∀ x l, x ∈ l → toLowerCase x ∈ map toLowerCase l)
    by (intros x l Hx; apply elem_of_map; eauto).
  destruct Hwhere as [[Ha Hb]|[[Ha Hb]|[Ha Hb]]].
  - apply (Hst (toLowerCase a)); [auto|]. rewrite Heq. apply elem_of_app. auto.
  - apply (Hst (toLowerCase a)); [auto|]. rewrite Heq. apply elem_of_app. auto.
  - apply (Hta (toLowerCase a)); [auto|]. rewrite Heq. auto.
Qed.

(** C6: [validateTagConfiguration] gives one warning for each note type
    whose tag list is empty, and the overlap warning whenever some tag,
    compared without regard to case, is configured for two note types.
    It returns its warnings for every configuration, and a note that
    carries such a tag is still given a type. *)
Theorem validateTagConfiguration_warnings (settings : STAPluginSettings) :
  let warnings := (validateTagConfiguration settings).2 in
  NoDup warnings
  ∧ ("Source tags list is empty"%string ∈ warnings ↔ sourceTags settings = [])
  ∧ ("Topic tags list is empty"%string ∈ warnings ↔ topicTags settings = [])
  ∧ ("Argument tags list is empty"%string ∈ warnings ↔ argumentTags settings = [])
  ∧ (∀ a b, tagInTwoTypes settings a b → overlapMessage ∈ warnings)
  ∧ (∀ a b, tagInTwoTypes settings a b →
       (validateTagConfiguration settings).1 = false
       ∧ ∀ noteTags, a ∈ noteTags →
           ∃ t, identifyTypeByTags settings noteTags = Some t).
Proof.
  intros warnings. subst warnings. unfold validateTagConfiguration. cbn [fst snd].
  set (allTags := sourceTags settings ++ topicTags settings ++ argumentTags settings).
  assert (Hover : ∀ a b, tagInTwoTypes settings a b →
            negb (length allTags =? setSize (map toLowerCase allTags)) = true).
  { intros a b H%overlap_detected. apply negb_true_iff, Nat.eqb_neq, H. }
  split.
  { unfold emptyWarning.
    destruct (length (sourceTags settings) =? 0), (length (topicTags settings) =? 0),
      (length (argumentTags settings) =? 0),
      (negb (length allTags =? setSize (map toLowerCase allTags)));
      cbn [app]; refine (@bool_decide_unpack _ (NoDup_dec _) _); vm_compute; exact I. }
  assert (Hmem : ∀ w, w ≠ overlapMessage →
    w ∈ emptyWarning (sourceTags settings) "Source tags list is empty" ++
        emptyWarning (topicTags settings) "Topic tags list is empty" ++
        emptyWarning (argumentTags settings) "Argument tags list is empty" ++
        (if negb (length allTags =? setSize (map toLowerCase allTags))
         then [overlapMessage] else [])
    ↔ (sourceTags settings = [] ∧ w = "Source tags list is empty"%string)
      ∨ (topicTags settings = [] ∧ w = "Topic tags list is empty"%string)
      ∨ (argumentTags settings = [] ∧ w = "Argument tags list is empty"%string)).
  { intros w Hw. rewrite !elem_of_app, !emptyWarning_elem.
    destruct (negb _).
    - rewrite list_elem_of_singleton. tauto.
    - rewrite elem_of_nil. tauto. }
  split; [rewrite Hmem by discriminate; intuition discriminate|].
  split; [rewrite Hmem by discriminate; intuition discriminate|].
  split; [rewrite Hmem by discriminate; intuition discriminate|].
  split.
  - intros a b H. rewrite (Hover a b H), !elem_of_app, list_elem_of_singleton. tauto.
  - intros a b H. split.
    + rewrite (Hover a b H). rewrite !length_app. cbn [length]. apply Nat.eqb_neq. lia.
    + intros noteTags Ha.
      destruct (identifyTypeByTags_cases settings noteTags)
        as (HA & HS & HT & HN).
      destruct (identifyTypeByTags settings noteTags) as [t|]; [eauto|].
      exfalso. destruct (proj1 HN eq_refl) as (NA & NS & NT).
      destruct H as (_ & [[Hs _]|[[Hs _]|[Ht _]]]).
      * apply NS. exact (sharesTag_literal _ _ a Hs Ha).
      * apply NS. exact (sharesTag_literal _ _ a Hs Ha).
      * apply NT. exact (sharesTag_literal _ _ a Ht Ha).
Qed.

Lemma validateTagConfiguration_warnings_witness :
  let settings := withSourceTags DEFAULT_SETTINGS [str "Claim"] in
  tagInTwoTypes settings (str "Claim") (str "claim")
  ∧ overlapMessage ∈ (validateTagConfiguration settings).2
  ∧ (validateTagConfiguration settings).1 = false
  ∧ (str "Claim" ∈ [str "Claim"] →
     ∃ t, identifyTypeByTags settings [str "Claim"] = Some t).
Proof.
  intros settings.
  assert (H : tagInTwoTypes settings (str "Claim") (str "claim")).
  { split; [vm_compute; reflexivity|]. right. left. split; in_list. }
  destruct (validateTagConfiguration_warnings settings) as (_ & _ & _ & _ & Hw & Hc).
  split; [exact H|]. split; [exact (Hw _ _ H)|].
  split; [exact (proj1 (Hc _ _ H))|].
  exact (proj2 (Hc _ _ H) [str "Claim"]).
Defined.

End Validation.

(** ** The label map *)

Section LabelMap.

(** C7: when a file with an entry in the label map is renamed, the entry
    moves to the new path with the note type it had, the old path has no
    entry any more, and the entries of all other paths are as before. *)
Theorem onRename_moves_entry (fileLabels : labelMap) (oldPath newPath : string)
    (label : STANoteType) :
  fileLabels !! oldPath = Some label →
  let renamed := onRename true newPath oldPath fileLabels in
  renamed = <[newPath := label]> (delete oldPath fileLabels)
  ∧ renamed !! newPath = Some label
  ∧ (oldPath ≠ newPath → renamed !! oldPath = None)
  ∧ (∀ other, other ≠ oldPath → other ≠ newPath →
       renamed !! other = fileLabels !! other).
Proof.
  intros Hold renamed. subst renamed. unfold onRename.
  rewrite Hold. cbn [andb].
  rewrite bool_decide_eq_true_2 by eauto.
  split; [reflexivity|]. split; [apply lookup_insert_eq|]. split.
  - intros Hne. rewrite lookup_insert_ne by auto. apply lookup_delete_eq.
  - intros other Ho Hn.
    rewrite lookup_insert_ne by auto. apply lookup_delete_ne. auto.
Qed.

Lemma onRename_moves_entry_witness :
  let fileLabels : labelMap :=
    <["Topics/a.md"%string := topic]> (<["Sources/b.md"%string := source]> ∅) in
  let renamed := onRename true "Topics/c.md" "Topics/a.md" fileLabels in
  fileLabels !! "Topics/a.md"%string = Some topic
  ∧ renamed !! "Topics/c.md"%string = Some topic
  ∧ renamed !! "Topics/a.md"%string = None
  ∧ renamed !! "Sources/b.md"%string = Some source.
Proof.
  intros fileLabels renamed.
  assert (Hold : fileLabels !! "Topics/a.md"%string = Some topic)
    by (vm_compute; reflexivity).
  destruct (onRename_moves_entry fileLabels "Topics/a.md" "Topics/c.md" topic Hold)
    as (_ & Hnew & Hgone & Hother).
  split; [exact Hold|]. split; [exact Hnew|].
  split; [apply Hgone; discriminate|].
  subst renamed. rewrite Hother by discriminate. vm_compute. reflexivity.
Defined.

End LabelMap.

(** ** The lookup by [data-path] *)

Section Selectors.

Lemma consumeString_plain (value rest : text) :
  Forall (λ c, plainPathChar c = true) value →
  Css.consumeString (value ++ dquote :: rest) = Css.Closed value rest.
Proof.
  induction 1 as [|c value Hc _ IH]; cbn [app Css.consumeString].
  - rewrite bool_decide_eq_true_2 by reflexivity. reflexivity.
  - unfold plainPathChar in Hc.
    destruct (bool_decide (c = dquote)); [discriminate|].
    destruct (Css.is_newline c); [discriminate|].
    destruct (bool_decide (c = backslash)); [discriminate|].
    destruct (code c =? 0); [discriminate|].
    cbn [orb]. rewrite IH. reflexivity.
Qed.

(** The selector of a plain path selects by the path. *)
Lemma parse_plainPath (path : string) :
  plainPath path → Css.parse (dataPathSelector path) = Css.DataPathIs (str path).
Proof.
  intros Hplain. unfold Css.parse, dataPathSelector.
  change (startsWith (str "[data-path=" ++ [dquote])
            (str "[data-path=" ++ [dquote] ++ str path ++ [dquote] ++ str "]"))
    with true.
  change (drop 12 (str "[data-path=" ++ [dquote] ++ str path ++ [dquote] ++ str "]"))
    with (str path ++ dquote :: str "]").
  rewrite (consumeString_plain _ _ Hplain). reflexivity.
Qed.

Lemma byQuery_plainPath (view : lookups) (path : string) :
  plainPath path →
  byQuery view path
  = match byDataPath view (str path) with
    | Some fileElement => Node fileElement
    | None => Null
    end.
Proof.
  intros Hplain. unfold byQuery, documentQuerySelector.
  rewrite (parse_plainPath path Hplain). reflexivity.
Qed.

(** The selector of the path with a double quote is none, whatever the
    document. *)
Lemma byQuery_quotedPath (view : lookups) : byQuery view quotedPath = SyntaxError.
Proof. reflexivity. Qed.

(** The lookups throw when the first two find nothing and the text of the
    third is not a selector; the label map has no part in it. *)
Lemma updateVisualLabel_thrown (settings : STAPluginSettings) (fileLabels : labelMap)
    (path : string) (view : lookups) :
  updateVisualLabel settings fileLabels path view = Thrown
  ↔ showFileExplorerLabels settings = true ∧ unlisted view
    ∧ byQuery view path = SyntaxError.
Proof.
  unfold updateVisualLabel, unlisted, byQuery.
  destruct (showFileExplorerLabels settings); cbn [negb];
    [|split; [discriminate | intros [? _]; discriminate]].
  destruct (byFileItem view);
    [split; [discriminate | intros (_ & [? _] & _); discriminate]|].
  destruct (byFileName view);
    [split; [discriminate | intros (_ & [_ ?] & _); discriminate]|].
  destruct (documentQuerySelector view (dataPathSelector path)) as [| |[titleEl|]];
    split; try discriminate; try (intros (_ & _ & ?); discriminate); auto.
Qed.

End Selectors.

(** ** The retry chain *)

Section Retry.

Context {A : Type}.
Variable element : nat → queried A.

Lemma attemptLabelUpdate_step (delay attempt : nat) :
  attemptLabelUpdate element delay attempt =
  match element attempt with
  | SyntaxError => ([delay], Threw)
  | Node _ => ([delay], LabelUpdated)
  | Null =>
      if decide (attempt < 5) then
        (delay :: (attemptLabelUpdate element (delay * 2) (attempt + 1)).1,
         (attemptLabelUpdate element (delay * 2) (attempt + 1)).2)
      else ([delay], GivenUp)
  end.
Proof.
  funelim (attemptLabelUpdate element delay attempt).
  - rewrite Heq. reflexivity.
  - rewrite Heq. reflexivity.
  - rewrite Heq0. destruct (decide (attempt < 5)); [reflexivity | lia].
  - rewrite Heq0. destruct (decide (attempt < 5)); [lia | reflexivity].
Qed.

Lemma attemptLabelUpdate_end (left delay attempt : nat) :
  5 - attempt = left →
  let chain := attemptLabelUpdate element delay attempt in
  1 ≤ length chain.1 ≤ S left
  ∧ (∀ i d, chain.1 !! i = Some d → d = delay * 2 ^ i)
  ∧ match chain.2 with
    | GivenUp =>
        length chain.1 = S left
        ∧ ∀ n, attempt ≤ n ≤ attempt + left → element n = Null
    | LabelUpdated =>
        ∃ n fileElement, attempt ≤ n ≤ attempt + left ∧ element n = Node fileElement
                         ∧ ∀ m, attempt ≤ m < n → element m = Null
    | Threw =>
        ∃ n, attempt ≤ n ≤ attempt + left ∧ element n = SyntaxError
             ∧ ∀ m, attempt ≤ m < n → element m = Null
    end.
Proof.
  revert delay attempt.
  induction left as [|left IH]; intros delay attempt Hleft chain; subst chain;
    rewrite attemptLabelUpdate_step;
    destruct (element attempt) as [| |e] eqn:Hnow;
    try (destruct (decide (attempt < 5)) as [Hlt|Hge]; [try lia | try lia]);
    cbn [fst snd length].
  - split; [lia|]. split.
    + intros [|i] d H; inversion H. cbn. lia.
    + exists attempt. split; [lia|]. split; [exact Hnow|]. intros m Hm. lia.
  - split; [lia|]. split.
    + intros [|i] d H; inversion H. cbn. lia.
    + split; [reflexivity|]. intros n Hn. replace n with attempt by lia. exact Hnow.
  - split; [lia|]. split.
    + intros [|i] d H; inversion H. cbn. lia.
    + exists attempt, e. split; [lia|]. split; [exact Hnow|]. intros m Hm. lia.
  - split; [lia|]. split.
    + intros [|i] d H; inversion H. cbn. lia.
    + exists attempt. split; [lia|]. split; [exact Hnow|]. intros m Hm. lia.
  - destruct (IH (delay * 2) (attempt + 1) ltac:(lia)) as (Hlen & Hd & Hend).
    split; [lia|]. split.
    + intros [|i] d H; cbn in H.
      * inversion H. cbn. lia.
      * rewrite (Hd i d H). cbn. lia.
    + destruct (attemptLabelUpdate element (delay * 2) (attempt + 1)).2.
      * destruct Hend as (n & fileElement & Hn & Hthere & Hbefore).
        exists n, fileElement. split; [lia|]. split; [exact Hthere|]. intros m Hm.
        destruct (decide (m = attempt)) as [->|]; [exact Hnow|]. apply Hbefore. lia.
      * destruct Hend as [Hfull Hall]. split; [lia|]. intros n Hn.
        destruct (decide (n = attempt)) as [->|]; [exact Hnow|]. apply Hall. lia.
      * destruct Hend as (n & Hn & Hthere & Hbefore).
        exists n. split; [lia|]. split; [exact Hthere|]. intros m Hm.
        destruct (decide (m = attempt)) as [->|]; [exact Hnow|]. apply Hbefore. lia.
  - split; [lia|]. split.
    + intros [|i] d H; inversion H. cbn. lia.
    + exists attempt, e. split; [lia|]. split; [exact Hnow|]. intros m Hm. lia.
Qed.

(** The first attempt whose query finds something or throws is one. *)
Lemma first_answer_unique (from n n' : nat) :
  element n ≠ Null → (∀ m, from ≤ m < n → element m = Null) → from ≤ n →
  element n' ≠ Null → (∀ m, from ≤ m < n' → element m = Null) → from ≤ n' →
  n = n'.
Proof.
  intros Hn Hbefore Hfrom Hn' Hbefore' Hfrom'.
  destruct (lt_eq_lt_dec n n') as [[Hlt| ->]|Hgt]; [|reflexivity|].
  - destruct Hn. apply Hbefore'. lia.
  - destruct Hn'. apply Hbefore. lia.
Qed.

End Retry.

(** C9: the chain that [createNoteFromTemplate] starts after a note is
    created arms at most five timers, the first of 500 ms and each of twice
    the delay of the one before, and then ends.  When the element is found
    at none of the five attempts the chain gives up after the fifth timer,
    with nothing raised; it ends with the label updated at the first
    attempt that finds the element.  The one other end is the error of the
    query itself, which comes with the first timer or not at all: a path
    that makes the selector malformed throws there, a plain path never
    does.  The update made once the element is found does not throw. *)
Theorem retry_chain_bounded (path : string) (views : nat → lookups) :
  let element := λ attempt, byQuery (views attempt) path in
  let chain := attemptLabelUpdate element 500 1 in
  1 ≤ length chain.1 ≤ 5
  ∧ (∀ i d, chain.1 !! i = Some d → d = 500 * 2 ^ i)
  ∧ (∀ i d d', chain.1 !! i = Some d → chain.1 !! S i = Some d' → d' = 2 * d)
  ∧ (chain.2 = GivenUp ↔ ∀ n, 1 ≤ n ≤ 5 → element n = Null)
  ∧ (chain.2 = GivenUp → chain.1 = [500; 1000; 2000; 4000; 8000])
  ∧ (chain.2 = LabelUpdated ↔
       ∃ n fileElement, 1 ≤ n ≤ 5 ∧ element n = Node fileElement
                        ∧ ∀ m, 1 ≤ m < n → element m = Null)
  ∧ (chain.2 = Threw ↔
       ∃ n, 1 ≤ n ≤ 5 ∧ element n = SyntaxError
            ∧ ∀ m, 1 ≤ m < n → element m = Null)
  ∧ (plainPath path → chain.2 ≠ Threw)
  ∧ (Css.parse (dataPathSelector path) = Css.NotASelector → chain = ([500], Threw))
  ∧ (∀ n fileElement settings fileLabels content,
       element n = Node fileElement →
       (updateFileLabel settings fileLabels path content (views n)).2 ≠ Thrown)
  ∧ (∀ settings fileLabels type,
       showFileExplorerLabels settings = true →
       (labelNewNote settings fileLabels path type views).2 = Some chain).
Proof.
  intros element chain.
  destruct (attemptLabelUpdate_end element 4 500 1 eq_refl) as (Hlen & Hd & Hend).
  fold chain in Hlen, Hd, Hend.
  assert (Hgiven : chain.2 = GivenUp ↔ ∀ n, 1 ≤ n ≤ 5 → element n = Null).
  { split.
    - intros Hg. rewrite Hg in Hend. destruct Hend as [_ Hall].
      intros n Hn. apply Hall. lia.
    - intros Hall. destruct chain.2; [|reflexivity|].
      + destruct Hend as (n & e & Hn & Hthere & _).
        rewrite Hall in Hthere by lia. discriminate.
      + destruct Hend as (n & Hn & Hthere & _).
        rewrite Hall in Hthere by lia. discriminate. }
  assert (Hthrew : chain.2 = Threw ↔
            ∃ n, 1 ≤ n ≤ 5 ∧ element n = SyntaxError
                 ∧ ∀ m, 1 ≤ m < n → element m = Null).
  { split.
    - intros Ht. rewrite Ht in Hend. destruct Hend as (n & Hn & Hthere & Hbefore).
      exists n. split; [lia|]. auto.
    - intros (n & Hn & Hthere & Hbefore). destruct chain.2; [|
        |reflexivity].
      + destruct Hend as (n' & e & Hn' & Hthere' & Hbefore').
        assert (n = n') as <-
          by (apply (first_answer_unique element 1); [congruence|auto|lia|congruence|auto|lia]).
        congruence.
      + destruct Hend as [_ Hall]. rewrite Hall in Hthere by lia. discriminate. }
  split; [lia|]. split; [exact Hd|]. split.
  { intros i d d' H H'. rewrite (Hd _ _ H), (Hd _ _ H'). cbn. lia. }
  split; [exact Hgiven|]. split.
  { intros Hg. rewrite Hg in Hend. destruct Hend as [Hfull _].
    assert (H0 := Hd 0). assert (H1 := Hd 1). assert (H2 := Hd 2).
    assert (H3 := Hd 3). assert (H4 := Hd 4).
    destruct chain.1 as [|d0 [|d1 [|d2 [|d3 [|d4 [|d5 l]]]]]]; try discriminate.
    rewrite (H0 d0 eq_refl), (H1 d1 eq_refl), (H2 d2 eq_refl),
      (H3 d3 eq_refl), (H4 d4 eq_refl). reflexivity. }
  split; [split|].
  - intros Hu. rewrite Hu in Hend. destruct Hend as (n & e & Hn & Hthere & Hbefore).
    exists n, e. split; [lia|]. auto.
  - intros (n & e & Hn & Hthere & Hbefore). destruct chain.2; [reflexivity| |].
    + destruct Hend as [_ Hall]. rewrite Hall in Hthere by lia. discriminate.
    + destruct Hend as (n' & Hn' & Hthere' & Hbefore').
      assert (n = n') as <-
        by (apply (first_answer_unique element 1); [congruence|auto|lia|congruence|auto|lia]).
      congruence.
  - split; [exact Hthrew|]. split; [|split; [|split]].
    + intros Hplain Ht. apply Hthrew in Ht as (n & _ & Hthere & _).
      subst element. cbn beta in Hthere.
      rewrite (byQuery_plainPath _ _ Hplain) in Hthere.
      destruct (byDataPath (views n) (str path)); discriminate.
    + intros Hbad. subst chain. rewrite attemptLabelUpdate_step.
      subst element. cbn beta. unfold byQuery, documentQuerySelector.
      rewrite Hbad. reflexivity.
    + intros n fileElement settings fileLabels content Hthere.
      cbn [updateFileLabel snd]. rewrite updateVisualLabel_thrown.
      intros (_ & _ & Hthrows). subst element. cbn beta in Hthere. congruence.
    + intros settings fileLabels type Hshow. unfold labelNewNote.
      rewrite Hshow. reflexivity.
Qed.

Lemma retry_chain_bounded_witness :
  let path := "Topics/Reefs.md"%string in
  let absent := λ _ : nat, nothingVisible in
  let third := λ n : nat,
    Lookups None None
      (λ value, if bool_decide (n = 3 ∧ value = str path) then Some None else None)
      (λ _, Null) in
  attemptLabelUpdate (λ n, byQuery (absent n) path) 500 1
  = ([500; 1000; 2000; 4000; 8000], GivenUp)
  ∧ attemptLabelUpdate (λ n, byQuery (third n) path) 500 1
    = ([500; 1000; 2000], LabelUpdated)
  ∧ attemptLabelUpdate (λ n, byQuery (absent n) quotedPath) 500 1 = ([500], Threw).
Proof.
  intros path absent third.
  destruct (retry_chain_bounded path absent) as (_ & _ & _ & Hend & Hfull & _).
  destruct (retry_chain_bounded quotedPath absent)
    as (_ & _ & _ & _ & _ & _ & _ & _ & Hbad & _).
  cbv zeta in Hend, Hfull, Hbad.
  assert (Hg : (attemptLabelUpdate (λ n, byQuery (absent n) path) 500 1).2 = GivenUp)
    by (apply Hend; reflexivity).
  split; [|split].
  - rewrite (surjective_pairing (attemptLabelUpdate _ 500 1)), (Hfull Hg), Hg.
    reflexivity.
  - vm_compute. reflexivity.
  - apply Hbad. reflexivity.
Defined.


(** ** Elements and labels *)

Section Elements.

Lemma element_induction (P : element → Prop) :
  (∀ c t a ks, Forall P ks → P (Element c t a ks)) → ∀ e, P e.
Proof.
  intros step. fix IH 1. intros [c t a ks]. apply step.
  induction ks as [|k ks IHks]; constructor; [apply IH | exact IHks].
Qed.

Variable cls : string.

Lemma firstWithClass_step (e : element) :
  firstWithClass cls e =
  if hasClass cls e then Some [] else firstAmong cls (children e) 0.
Proof.
  destruct e as [c t a ks]. unfold hasClass. cbn [firstWithClass classList children].
  destruct (bool_decide (cls ∈ c)); [reflexivity|].
  generalize 0. induction ks as [|k ks IH]; intros i; cbn; [reflexivity|].
  destruct (firstWithClass cls k); [reflexivity | apply IH].
Qed.

Lemma countClass_step (e : element) :
  countClass cls e =
  (if hasClass cls e then 1 else 0) + countAmong cls (children e).
Proof.
  destruct e as [c t a ks]. unfold hasClass. cbn [countClass classList children].
  f_equal. induction ks as [|k ks IH]; cbn; [reflexivity|]. rewrite IH. reflexivity.
Qed.

Lemma countAmong_app (l1 l2 : list element) :
  countAmong cls (l1 ++ l2) = countAmong cls l1 + countAmong cls l2.
Proof. induction l1 as [|k l1 IH]; cbn; [reflexivity|]. rewrite IH. lia. Qed.

Lemma countAmong_delete (ks : list element) (j : nat) (k : element) :
  ks !! j = Some k →
  countAmong cls (delete j ks) + countClass cls k = countAmong cls ks.
Proof.
  revert j. induction ks as [|k0 ks IH]; intros [|j] H; try discriminate.
  - injection H as ->. simpl. lia.
  - simpl in H. simpl. rewrite <- (IH j H). lia.
Qed.

Lemma countAmong_insert (ks : list element) (j : nat) (k k' : element) :
  ks !! j = Some k →
  countAmong cls (<[j := k']> ks) + countClass cls k
  = countAmong cls ks + countClass cls k'.
Proof.
  revert j. induction ks as [|k0 ks IH]; intros [|j] H; try discriminate.
  - injection H as ->. simpl. lia.
  - simpl in H. simpl. specialize (IH j H). lia.
Qed.

Lemma countClass_withChildren (e : element) (ks : list element) :
  countClass cls (withChildren e ks) + countAmong cls (children e)
  = countClass cls e + countAmong cls ks.
Proof.
  rewrite !countClass_step. destruct e as [c t a ks0]. unfold hasClass. cbn. lia.
Qed.

(** Removing the element at a path takes away the labels it holds. *)
Lemma countAmong_remove (p : path) (ks : list element) (e : element) :
  subtreeAt p ks = Some e →
  countAmong cls (removeAmong p ks) + countClass cls e = countAmong cls ks.
Proof.
  revert ks. induction p as [|j p IH]; intros ks H; [discriminate|].
  cbn [subtreeAt] in H. cbn [removeAmong].
  destruct (ks !! j) as [k|] eqn:Hj; [|discriminate].
  destruct p as [|j' p].
  - injection H as <-. apply countAmong_delete, Hj.
  - specialize (IH (children k) H).
    pose proof (countAmong_insert ks j k
                  (withChildren k (removeAmong (j' :: p) (children k))) Hj).
    pose proof (countClass_withChildren k (removeAmong (j' :: p) (children k))).
    lia.
Qed.


Lemma firstAmong_found (ks : list element) (i : nat) (q : path) :
  firstAmong cls ks i = Some q →
  ∃ j p k, q = (i + j) :: p ∧ ks !! j = Some k ∧ firstWithClass cls k = Some p.
Proof.
  revert i. induction ks as [|k ks IH]; intros i H; [discriminate|].
  cbn [firstAmong] in H. destruct (firstWithClass cls k) as [p|] eqn:Hk.
  - injection H as <-. exists 0, p, k. rewrite Nat.add_0_r. auto.
  - destruct (IH _ H) as (j & p & k' & -> & Hj & Hp).
    exists (S j), p, k'. split; [f_equal; lia | auto].
Qed.

(** The path a search returns leads to an element with the class. *)
Lemma firstWithClass_at (e : element) (p : path) :
  firstWithClass cls e = Some p →
  (p = [] ∧ hasClass cls e = true)
  ∨ (∃ e', subtreeAt p (children e) = Some e' ∧ hasClass cls e' = true).
Proof.
  revert p. induction e as [c t a ks IH] using element_induction. intros p.
  rewrite firstWithClass_step. destruct (hasClass cls _) eqn:Hc.
  - intros [= <-]. auto.
  - intros (j & p' & k & -> & Hj & Hp)%firstAmong_found. right.
    cbn [children Nat.add subtreeAt] in *. rewrite Hj.
    destruct (proj1 (Forall_lookup _ _) IH j k Hj p' Hp) as [[-> Hk]|(e' & He' & Hk)].
    + eauto.
    + exists e'. split; [|exact Hk]. destruct p'; [discriminate | exact He'].
Qed.

Lemma firstAmong_at (ks : list element) (q : path) :
  firstAmong cls ks 0 = Some q →
  ∃ j p k e', q = j :: p ∧ ks !! j = Some k
              ∧ subtreeAt q ks = Some e' ∧ hasClass cls e' = true
              ∧ (p = [] → e' = k)
              ∧ (p ≠ [] → subtreeAt p (children k) = Some e').
Proof.
  intros (j & p & k & -> & Hj & Hp)%firstAmong_found. cbn [Nat.add].
  destruct (firstWithClass_at k p Hp) as [[-> Hk]|(e' & He' & Hk)].
  - exists j, [], k, k. cbn [subtreeAt]. rewrite Hj. tauto.
  - exists j, p, k, e'. cbn [subtreeAt]. rewrite Hj.
    destruct p; [discriminate|]. repeat split; auto. discriminate.
Qed.

Lemma firstWithClass_none (e : element) :
  firstWithClass cls e = None → countClass cls e = 0.
Proof.
  induction e as [c t a ks IH] using element_induction.
  rewrite firstWithClass_step, countClass_step.
  destruct (hasClass cls _); [discriminate|]. cbn [children]. intros H.
  enough (Hall : ∀ i, firstAmong cls ks i = None → countAmong cls ks = 0)
    by (rewrite (Hall 0 H); reflexivity).
  clear H. induction ks as [|k ks IHks]; intros i H; [reflexivity|].
  apply Forall_cons in IH as [Hk Hks]. cbn [firstAmong] in H.
  destruct (firstWithClass cls k) eqn:E; [discriminate|].
  specialize (IHks Hks _ H). cbn [countAmong]. rewrite (Hk eq_refl), IHks.
  reflexivity.
Qed.

Lemma firstAmong_none (ks : list element) (i : nat) :
  firstAmong cls ks i = None → countAmong cls ks = 0.
Proof.
  revert i. induction ks as [|k ks IH]; intros i H; [reflexivity|].
  cbn [firstAmong] in H. destruct (firstWithClass cls k) eqn:E; [discriminate|].
  cbn. rewrite (firstWithClass_none k E), (IH _ H). reflexivity.
Qed.

Lemma countClass_positive (e : element) : hasClass cls e = true → 1 ≤ countClass cls e.
Proof. rewrite countClass_step. intros ->. lia. Qed.

(** Removing what a search found leaves fewer elements with the class. *)
Lemma countAmong_remove_found (p : path) (ks : list element) (e : element) :
  subtreeAt p ks = Some e → hasClass cls e = true →
  countAmong cls (removeAmong p ks) ≤ countAmong cls ks - 1.
Proof.
  intros Hp He. pose proof (countAmong_remove p ks e Hp).
  pose proof (countClass_positive e He). lia.
Qed.

End Elements.

(** ** One label per title *)

Section Labels.

Lemma children_withChildren (e : element) (ks : list element) :
  children (withChildren e ks) = ks.
Proof. destruct e. reflexivity. Qed.

Lemma hasClass_withChildren (cls : string) (e : element) (ks : list element) :
  hasClass cls (withChildren e ks) = hasClass cls e.
Proof. destruct e. reflexivity. Qed.

Lemma labelsAt_parent (ctx : parentContext) (title : element) :
  labelsAt (Site (Some ctx) title)
  = countAmong labelClass (before ctx) + countClass labelClass title
    + countAmong labelClass (after ctx).
Proof.
  unfold labelsAt, countBelow, parentEl, plug. cbn [parentElement titleEl].
  rewrite children_withChildren, countAmong_app. cbn [countAmong]. lia.
Qed.

Lemma labelsAt_orphan (title : element) :
  labelsAt (Site None title) = countAmong labelClass (children title).
Proof. reflexivity. Qed.

Lemma subtreeAt_cons (j : nat) (p : path) (ks : list element) (k : element) :
  ks !! j = Some k →
  subtreeAt (j :: p) ks = match p with [] => Some k | _ => subtreeAt p (children k) end.
Proof. intros H. cbn [subtreeAt]. rewrite H. reflexivity. Qed.

Lemma subtreeAt_found (j : nat) (p : path) (ks : list element) (k e' : element) :
  ks !! j = Some k →
  (p = [] → e' = k) → (p ≠ [] → subtreeAt p (children k) = Some e') →
  subtreeAt (j :: p) ks = Some e'.
Proof.
  intros Hj Hnil Hcons. rewrite (subtreeAt_cons j p ks k Hj).
  destruct p; [rewrite Hnil by reflexivity; reflexivity | apply Hcons; discriminate].
Qed.

Lemma countClass_removeBelow (cls : string) (p : path) (e e' : element) :
  subtreeAt p (children e) = Some e' → hasClass cls e' = true →
  countClass cls (removeBelow p e) ≤ countClass cls e - 1
  ∧ 1 ≤ countClass cls e.
Proof.
  intros Hp He. unfold removeBelow.
  pose proof (countClass_withChildren cls e (removeAmong p (children e))).
  pose proof (countAmong_remove cls p (children e) e' Hp).
  pose proof (countClass_positive cls e' He).
  pose proof (countClass_step cls e). lia.
Qed.


Lemma withChildren_twice (e : element) (ks ks' : list element) :
  withChildren (withChildren e ks) ks' = withChildren e ks'.
Proof. destruct e. reflexivity. Qed.

Lemma removeAmong_next (j : nat) (p : path) (k : element) (ks : list element) :
  removeAmong (S j :: p) (k :: ks) = k :: removeAmong (j :: p) ks.
Proof.
  cbn [removeAmong]. destruct p; [reflexivity|]. cbn.
  destruct (ks !! j); reflexivity.
Qed.

Lemma removeAmong_app_l (j : nat) (p : path) (l1 l2 : list element) :
  j < length l1 → removeAmong (j :: p) (l1 ++ l2) = removeAmong (j :: p) l1 ++ l2.
Proof.
  revert j. induction l1 as [|k l1 IH]; intros j Hj; [cbn in Hj; lia|].
  destruct j as [|j].
  - cbn [removeAmong]. destruct p; reflexivity.
  - cbn [app]. rewrite !removeAmong_next, IH by (cbn in Hj; lia). reflexivity.
Qed.

Lemma removeAmong_app_r (j : nat) (p : path) (l1 l2 : list element) :
  removeAmong (length l1 + j :: p) (l1 ++ l2) = l1 ++ removeAmong (j :: p) l2.
Proof.
  induction l1 as [|k l1 IH]; [reflexivity|].
  cbn [length app Nat.add]. rewrite removeAmong_next, IH. reflexivity.
Qed.

(** [removeExisting] is the removal at the path below [parentEl], the title
    keeping its place unless it is itself the element removed. *)
Lemma removeExisting_parentEl (s : site) (p : path) :
  p ≠ [] → formerParent (removeExisting s p) = None →
  parentEl (now (removeExisting s p)) = removeBelow p (parentEl s).
Proof.
  intros Hp. unfold removeExisting.
  destruct s as [[ctx|] title]; cbn [parentElement titleEl]; [|reflexivity].
  destruct p as [|i p]; [contradiction|].
  unfold parentEl, plug, removeBelow. cbn [parentElement titleEl].
  rewrite children_withChildren, withChildren_twice.
  destruct (Nat.ltb_spec i (length (before ctx))) as [Hlt|Hge].
  - intros _. cbn [now parentElement titleEl parentShell before after].
    rewrite removeAmong_app_l by exact Hlt. reflexivity.
  - destruct (Nat.eqb_spec i (length (before ctx))) as [->|Hne].
    + destruct p as [|j p]; [discriminate|]. intros _.
      cbn [now parentElement titleEl].
      pose proof (removeAmong_app_r 0 (j :: p) (before ctx) (title :: after ctx)) as H.
      rewrite Nat.add_0_r in H. rewrite H. reflexivity.
    + intros _. cbn [now parentElement titleEl parentShell before after].
      pose proof (removeAmong_app_r (S (i - S (length (before ctx)))) p
                    (before ctx) (title :: after ctx)) as H.
      replace (length (before ctx) + S (i - S (length (before ctx)))) with i in H by lia.
      rewrite H, removeAmong_next. reflexivity.
Qed.

(** What [clearExisting] does to a title that is not itself a label: the
    title stays where it is, and a label below the parent, if there is
    one, is gone. *)
Lemma clearExisting_labels (s : site) :
  hasClass labelClass (titleEl s) = false →
  formerParent (clearExisting s) = None
  ∧ labelsAt (now (clearExisting s)) ≤ labelsAt s - 1
  ∧ hasClass labelClass (titleEl (now (clearExisting s))) = false.
Proof.
  intros Htitle. unfold clearExisting.
  destruct (querySelector labelClass (parentEl s)) as [q|] eqn:Hq.
  2: { cbn [now formerParent]. split; [reflexivity|]. split; [|exact Htitle].
       unfold labelsAt, countBelow. unfold querySelector in Hq.
       rewrite (firstAmong_none _ _ _ Hq). lia. }
  unfold querySelector in Hq.
  apply firstAmong_at in Hq as (j & p & k & e' & -> & Hj & _ & He' & Hnil & Hcons).
  destruct s as [[ctx|] title]; unfold removeExisting;
    cbn [parentElement titleEl parentEl] in *.
  - unfold plug in Hj. rewrite children_withChildren in Hj.
    destruct (Nat.ltb_spec j (length (before ctx))) as [Hlt|Hge].
    + cbn [now formerParent titleEl]. split; [reflexivity|]. split; [|exact Htitle].
      rewrite lookup_app_l in Hj by exact Hlt.
      pose proof (countAmong_remove_found labelClass (j :: p) (before ctx) e'
                    (subtreeAt_found _ _ _ _ _ Hj Hnil Hcons) He').
      rewrite !labelsAt_parent. cbn [before after parentShell].
      pose proof (countAmong_remove labelClass (j :: p) (before ctx) e'
                    (subtreeAt_found _ _ _ _ _ Hj Hnil Hcons)).
      pose proof (countClass_positive labelClass e' He'). lia.
    + destruct (Nat.eqb_spec j (length (before ctx))) as [->|Hne].
      * rewrite list_lookup_middle in Hj by reflexivity. injection Hj as <-.
        destruct p as [|j' p].
        { rewrite (Hnil eq_refl) in He'. congruence. }
        cbn [now formerParent titleEl]. split; [reflexivity|].
        destruct (countClass_removeBelow labelClass (j' :: p) title e'
                    (Hcons ltac:(discriminate)) He') as [Hless Hpos].
        split.
        -- rewrite !labelsAt_parent. lia.
        -- unfold removeBelow. rewrite hasClass_withChildren. exact Htitle.
      * cbn [now formerParent titleEl]. split; [reflexivity|]. split; [|exact Htitle].
        rewrite lookup_app_r in Hj by lia.
        replace (j - length (before ctx)) with (S (j - S (length (before ctx))))
          in Hj by lia.
        cbn in Hj.
        pose proof (countAmong_remove labelClass (j - S (length (before ctx)) :: p)
                      (after ctx) e' (subtreeAt_found _ _ _ _ _ Hj Hnil Hcons)).
        pose proof (countClass_positive labelClass e' He').
        rewrite !labelsAt_parent. cbn [before after parentShell]. lia.
  - cbn [now formerParent titleEl]. split; [reflexivity|].
    pose proof (subtreeAt_found _ _ _ _ _ Hj Hnil Hcons) as Hsub.
    split.
    + rewrite !labelsAt_orphan. unfold removeBelow. rewrite children_withChildren.
      apply (countAmong_remove_found labelClass _ _ e' Hsub He').
    + unfold removeBelow. rewrite hasClass_withChildren. exact Htitle.
Qed.




End Labels.

(** ** The matcher on the patterns of the classifier *)

Section Matching.

Context {R : Type}.

Lemma startsWith_split (w s : text) :
  startsWith w s = true ↔ ∃ tail, s = w ++ tail.
Proof.
  revert s. induction w as [|c w IH]; intros s.
  - split; [intros _; exists s; reflexivity | reflexivity].
  - destruct s as [|d s]; cbn [startsWith].
    + split; [discriminate | intros (tail & H); discriminate].
    + rewrite andb_true_iff, bool_decide_eq_true, IH. split.
      * intros (-> & tail & ->). exists tail. reflexivity.
      * intros (tail & [= -> ->]). eauto.
Qed.

Lemma startsWith_take (w s : text) :
  startsWith w s = true → take (length w) s = w ∧ s = w ++ drop (length w) s.
Proof.
  intros (tail & ->)%startsWith_split.
  rewrite take_app_length, drop_app_length. auto.
Qed.

Lemma run_lit (w : text) (s : state) (k : state → option R) :
  run false (lit w) s k =
  if startsWith w (rest s)
  then k (State (pos s + length w) (drop (length w) (rest s)) (caps s))
  else None.
Proof.
  revert s k. induction w as [|c w IH]; intros [p r cs] k; cbn [rest pos caps].
  - cbn. rewrite Nat.add_0_r. reflexivity.
  - assert (Hone : run false (Lit c) (State p r cs)
                     (λ s1, run false (lit w) s1 k)
                   = if startsWith (c :: w) r
                     then k (State (p + length (c :: w)) (drop (length (c :: w)) r) cs)
                     else None).
    { cbn [run]. unfold step1, lit_matches. cbn [rest pos caps].
      destruct r as [|d r]; [reflexivity|]. cbn [startsWith].
      destruct (bool_decide (c = d)); [|reflexivity]. cbn [andb].
      rewrite IH. cbn [rest pos caps length drop].
      replace (S p + length w) with (p + S (length w)) by lia. reflexivity. }
    destruct w as [|c' w]; [|exact Hone].
    rewrite <- Hone. reflexivity.
Qed.

(** Before such a continuation, a greedy star over the class takes the
    whole run of code units of the class. *)
Lemma star_loop_class (icase : bool) (p : ascii → bool) (k : state → option R) :
  blockedBy p k →
  ∀ fuel s, length (rest s) ≤ fuel →
    star_loop fuel true (run icase (Class p)) k s
    = k (State (pos s + spanLength p (rest s))
               (drop (spanLength p (rest s)) (rest s)) (caps s)).
Proof.
  intros Hblocked. induction fuel as [|fuel IH]; intros [ps r cs] Hlen;
    cbn [rest pos caps] in *.
  - destruct r; [|cbn in Hlen; lia]. cbn. rewrite Nat.add_0_r. reflexivity.
  - cbn [star_loop]. unfold star_pass. cbn [run]. unfold step1. cbn [rest pos caps].
    destruct r as [|d tl].
    + cbn. rewrite Nat.add_0_r. reflexivity.
    + cbn [spanLength]. destruct (p d) eqn:Hd.
      * replace (ps <? S ps) with true by (symmetry; apply Nat.ltb_lt; lia).
        rewrite IH by (cbn in Hlen; cbn; lia). cbn [rest pos caps drop].
        replace (S ps + spanLength p tl) with (ps + S (spanLength p tl)) by lia.
        destruct (k (State (ps + S (spanLength p tl)) _ cs)); [reflexivity|].
        apply (Hblocked _ d tl); [reflexivity | exact Hd].
      * cbn. rewrite Nat.add_0_r. reflexivity.
Qed.

Lemma run_star_class (icase : bool) (p : ascii → bool) (k : state → option R)
    (s : state) :
  blockedBy p k →
  run icase (Star true (Class p)) s k
  = k (State (pos s + spanLength p (rest s))
             (drop (spanLength p (rest s)) (rest s)) (caps s)).
Proof.
  intros H.
  change (run icase (Star true (Class p)) s k)
    with (star_loop (length (rest s)) true (run icase (Class p)) k s).
  apply (star_loop_class icase); [exact H | lia].
Qed.

Lemma drop_spanLength_space (s : text) :
  drop (spanLength is_space s) s = trimStart s.
Proof.
  induction s as [|c s IH]; [reflexivity|]. cbn.
  destruct (is_space c); [exact IH | reflexivity].
Qed.

Lemma span_split (s : text) :
  s = take (spanLength is_space s) s ++ trimStart s
  ∧ Forall (λ c, is_space c = true) (take (spanLength is_space s) s).
Proof.
  induction s as [|c s [IH1 IH2]]; [split; [reflexivity | constructor]|].
  cbn. destruct (is_space c) eqn:E; cbn.
  - split; [f_equal; exact IH1 | constructor; assumption].
  - split; [reflexivity | constructor].
Qed.

Lemma trimStart_app (spaces s : text) :
  Forall (λ c, is_space c = true) spaces → trimStart (spaces ++ s) = trimStart s.
Proof.
  induction 1 as [|c spaces Hc _ IH]; [reflexivity|]. cbn. rewrite Hc. exact IH.
Qed.

End Matching.

(** ** The template marker *)

Section Marker.

Lemma run_seq {R : Type} (icase : bool) (r1 r2 : regex) (s : state)
    (k : state → option R) :
  run icase (r1 @@ r2) s k = run icase r1 s (λ s1, run icase r2 s1 k).
Proof. reflexivity. Qed.

Lemma run_alt {R : Type} (icase : bool) (r1 r2 : regex) (s : state)
    (k : state → option R) :
  run icase (Alt r1 r2) s k
  = match run icase r1 s k with Some x => Some x | None => run icase r2 s k end.
Proof. reflexivity. Qed.

Lemma run_group {R : Type} (icase : bool) (r : regex) (s : state)
    (k : state → option R) :
  run icase (Group r) s k
  = run icase r s (λ s1, k (State (pos s1) (rest s1)
                              (caps s1 ++ [take (pos s1 - pos s) (rest s)]))).
Proof. reflexivity. Qed.

Lemma startsWith_other_head (c d : ascii) (w tl : text) :
  is_space d = true → is_space c = false → startsWith (c :: w) (d :: tl) = false.
Proof.
  intros Hd Hc. cbn [startsWith]. case_bool_decide as E; [|reflexivity].
  congruence.
Qed.

Lemma values_blocked {R : Type} (k : state → option R) :
  blockedBy is_space (λ s, run false (Group Pattern.typeValue) s k).
Proof.
  intros s d tl Hrest Hd. unfold Pattern.typeValue.
  rewrite run_group, !run_alt, !run_lit, Hrest.
  cbn [rest].
  assert (HS : startsWith (str "Source") (d :: tl) = false)
    by exact (startsWith_other_head "S" d (str "ource") tl Hd eq_refl).
  assert (HT : startsWith (str "Topic") (d :: tl) = false)
    by exact (startsWith_other_head "T" d (str "opic") tl Hd eq_refl).
  assert (HA : startsWith (str "Argument") (d :: tl) = false)
    by exact (startsWith_other_head "A" d (str "rgument") tl Hd eq_refl).
  rewrite HS, HT, HA. reflexivity.
Qed.

Lemma match_at_typeMarker (p : nat) (s : text) :
  option_map readType (match_at false Pattern.typeMarker p s)
  = option_map Some (markerHere s).
Proof.
  unfold match_at, Pattern.typeMarker, markerHere.
  rewrite run_seq, run_lit. cbn [rest pos caps].
  destruct (startsWith (str "**Type:**") s); [|reflexivity].
  rewrite run_seq. unfold ws. rewrite run_star_class by apply values_blocked.
  cbn [rest pos caps]. rewrite drop_spanLength_space.
  change (length (str "**Type:**")) with 9.
  set (value := trimStart (drop 9 s)).
  set (n := p + 9 + spanLength is_space (drop 9 s)).
  unfold Pattern.typeValue. rewrite run_group, !run_alt, !run_lit. cbn [rest pos caps].
  change (markerValue source) with (str "Source").
  change (markerValue topic) with (str "Topic").
  change (markerValue argument) with (str "Argument").
  assert (Hread : ∀ w t e whole, startsWith w value = true →
            asNoteType (toLowerCase w) = Some t →
            readType (Found p whole ([] ++ [take (n + length w - n) value])
                            (n + length w) e) = Some t).
  { intros w t e whole Hw Ht. unfold readType, group1. cbn [groups app head default].
    replace (n + length w - n) with (length w) by lia.
    rewrite (proj1 (startsWith_take w value Hw)). exact Ht. }
  destruct (startsWith (str "Source") value) eqn:HS.
  { cbn [option_map]. f_equal. apply Hread; [exact HS | reflexivity]. }
  destruct (startsWith (str "Topic") value) eqn:HT.
  { cbn [option_map]. f_equal. apply Hread; [exact HT | reflexivity]. }
  destruct (startsWith (str "Argument") value) eqn:HA.
  { cbn [option_map]. f_equal. apply Hread; [exact HA | reflexivity]. }
  reflexivity.
Qed.

Lemma exec_from_typeMarker (p : nat) (s : text) :
  option_map readType (exec_from false Pattern.typeMarker p s)
  = option_map Some (firstMarker s).
Proof.
  revert p. induction s as [|c s IH]; intros p; cbn [exec_from firstMarker];
    pose proof (match_at_typeMarker p) as Hhere.
  - specialize (Hhere []).
    destruct (match_at false Pattern.typeMarker p []), (markerHere []);
      cbn in *; congruence.
  - specialize (Hhere (c :: s)).
    destruct (match_at false Pattern.typeMarker p (c :: s)), (markerHere (c :: s));
      cbn [option_map] in *; first [congruence | apply IH].
Qed.

Lemma identifyTypeByMarker_firstMarker (content : text) :
  identifyTypeByMarker content = firstMarker content.
Proof.
  unfold identifyTypeByMarker, exec.
  pose proof (exec_from_typeMarker 0 content) as H.
  unfold readType in H.
  destruct (exec_from false Pattern.typeMarker 0 content), (firstMarker content);
    cbn [option_map] in H; congruence.
Qed.

End Marker.

Section MarkerPositions.

Lemma markerValue_no_space (t : STANoteType) (tail : text) :
  trimStart (markerValue t ++ tail) = markerValue t ++ tail.
Proof. destruct t; reflexivity. Qed.

Lemma markerHere_value (t : STANoteType) (tail : text) :
  (if startsWith (markerValue source) (markerValue t ++ tail) then Some source
   else if startsWith (markerValue topic) (markerValue t ++ tail) then Some topic
   else if startsWith (markerValue argument) (markerValue t ++ tail) then Some argument
   else None) = Some t.
Proof.
  destruct t.
  - rewrite (proj2 (startsWith_split (markerValue source) _)) by eauto. reflexivity.
  - replace (startsWith (markerValue source) (markerValue topic ++ tail))
      with false by reflexivity.
    rewrite (proj2 (startsWith_split (markerValue topic) _)) by eauto. reflexivity.
  - replace (startsWith (markerValue source) (markerValue argument ++ tail))
      with false by reflexivity.
    replace (startsWith (markerValue topic) (markerValue argument ++ tail))
      with false by reflexivity.
    rewrite (proj2 (startsWith_split (markerValue argument) _)) by eauto. reflexivity.
Qed.

Lemma markerHere_spec (s : text) (t : STANoteType) :
  markerHere s = Some t ↔
  ∃ spaces tail, s = str "**Type:**" ++ spaces ++ markerValue t ++ tail
                 ∧ Forall (λ c, is_space c = true) spaces.
Proof.
  unfold markerHere. split.
  - destruct (startsWith (str "**Type:**") s) eqn:Hpre; [|discriminate].
    apply startsWith_take in Hpre as [_ Hs].
    change (length (str "**Type:**")) with 9 in Hs.
    destruct (span_split (drop 9 s)) as [Hsplit Hspaces].
    set (value := trimStart (drop 9 s)) in *.
    assert (Hfound : ∀ t', startsWith (markerValue t') value = true →
              ∃ spaces tail, s = str "**Type:**" ++ spaces ++ markerValue t' ++ tail
                             ∧ Forall (λ c, is_space c = true) spaces).
    { intros t' [_ Hv]%startsWith_take.
      exists (take (spanLength is_space (drop 9 s)) (drop 9 s)),
             (drop (length (markerValue t')) value).
      split; [|exact Hspaces]. rewrite <- Hv, <- Hsplit. exact Hs. }
    destruct (startsWith (markerValue source) value) eqn:HS;
      [intros [= <-]; auto|].
    destruct (startsWith (markerValue topic) value) eqn:HT;
      [intros [= <-]; auto|].
    destruct (startsWith (markerValue argument) value) eqn:HA;
      [intros [= <-]; auto | discriminate].
  - intros (spaces & tail & -> & Hspaces).
    rewrite (proj2 (startsWith_split (str "**Type:**") _)) by eauto.
    change 9 with (length (str "**Type:**")). rewrite drop_app_length.
    rewrite trimStart_app by exact Hspaces.
    rewrite markerValue_no_space. cbv zeta. apply markerHere_value.
Qed.

Lemma markerAt_zero (s : text) (t : STANoteType) :
  markerAt s 0 t ↔ markerHere s = Some t.
Proof.
  rewrite markerHere_spec. unfold markerAt. split.
  - intros (front & spaces & tail & -> & Hlen & Hsp).
    destruct front; [|discriminate]. eauto.
  - intros (spaces & tail & -> & Hsp). exists [], spaces, tail. auto.
Qed.

Lemma markerAt_succ (c : ascii) (s : text) (i : nat) (t : STANoteType) :
  markerAt (c :: s) (S i) t ↔ markerAt s i t.
Proof.
  unfold markerAt. split.
  - intros (front & spaces & tail & Heq & Hlen & Hsp).
    destruct front as [|c' front]; [discriminate|].
    injection Heq as -> ->. injection Hlen as Hlen. eauto 10.
  - intros (front & spaces & tail & -> & Hlen & Hsp).
    exists (c :: front), spaces, tail. cbn. auto.
Qed.

Lemma markerAt_nil (i : nat) (t : STANoteType) : ¬ markerAt [] i t.
Proof.
  intros (front & spaces & tail & Heq & _).
  destruct front; discriminate.
Qed.

Lemma firstMarker_spec (content : text) :
  (∀ t, firstMarker content = Some t ↔
        ∃ i, markerAt content i t ∧ ∀ j t', j < i → ¬ markerAt content j t')
  ∧ (firstMarker content = None ↔ ∀ i t, ¬ markerAt content i t).
Proof.
  induction content as [|c s [IHsome IHnone]].
  - replace (firstMarker []) with (@None STANoteType) by reflexivity. split.
    + intros t. split; [discriminate|].
      intros (i & H & _). destruct (markerAt_nil _ _ H).
    + split; [intros _ i t; apply markerAt_nil | reflexivity].
  - cbn [firstMarker]. destruct (markerHere (c :: s)) as [t0|] eqn:Hhere.
    + assert (H0 : markerAt (c :: s) 0 t0) by (apply markerAt_zero; exact Hhere).
      split.
      * intros t. split.
        -- intros [= <-]. exists 0. split; [exact H0 | intros j t' Hj; lia].
        -- intros ([|i] & Hi & Hfirst).
           ++ apply markerAt_zero in Hi. congruence.
           ++ destruct (Hfirst 0 t0 ltac:(lia) H0).
      * split; [discriminate | intros H; destruct (H 0 t0 H0)].
    + assert (H0 : ∀ t', ¬ markerAt (c :: s) 0 t').
      { intros t' H%markerAt_zero. congruence. }
      split.
      * intros t. rewrite IHsome. split.
        -- intros (i & Hi & Hfirst). exists (S i). split; [apply markerAt_succ, Hi|].
           intros [|j] t' Hj; [apply H0|].
           rewrite markerAt_succ. apply Hfirst. lia.
        -- intros ([|i] & Hi & Hfirst); [destruct (H0 _ Hi)|].
           exists i. split; [apply markerAt_succ in Hi; exact Hi|].
           intros j t' Hj Hm. apply (Hfirst (S j) t'); [lia|].
           apply markerAt_succ, Hm.
      * rewrite IHnone. split.
        -- intros H [|i] t; [apply H0 | rewrite markerAt_succ; apply H].
        -- intros H i t Hm. apply (H (S i) t), markerAt_succ, Hm.
Qed.

(** C2, as the code has it: [identifyTypeByMarker] returns the type
    spelled by the leftmost marker, a marker being the text [**Type:**],
    then white space, possibly none, then [Source], [Topic] or
    [Argument] spelled exactly so; it returns nothing when the text has
    no marker.  With tag-based identification off, [identifyNoteType]
    returns just that. *)
Theorem identifyTypeByMarker_leftmost (content : text) :
  (∀ t, identifyTypeByMarker content = Some t ↔
        ∃ i, markerAt content i t ∧ ∀ j t', j < i → ¬ markerAt content j t')
  ∧ (identifyTypeByMarker content = None ↔ ∀ i t, ¬ markerAt content i t)
  ∧ (∀ settings, useTagBasedIdentification settings = false →
       identifyNoteType settings content = identifyTypeByMarker content).
Proof.
  rewrite identifyTypeByMarker_firstMarker.
  destruct (firstMarker_spec content) as [Hsome Hnone].
  split; [exact Hsome|]. split; [exact Hnone|].
  intros settings Hoff. unfold identifyNoteType. rewrite Hoff.
  apply identifyTypeByMarker_firstMarker.
Qed.

Lemma identifyTypeByMarker_leftmost_witness :
  let content := str "# Note" ++ [nl] ++ str "**Type:**  Topic, not **Type:** Source" in
  identifyTypeByMarker content = Some topic
  ∧ (∃ i, markerAt content i topic ∧ ∀ j t', j < i → ¬ markerAt content j t')
  ∧ useTagBasedIdentification (withoutTags DEFAULT_SETTINGS) = false
  ∧ identifyNoteType (withoutTags DEFAULT_SETTINGS) content = Some topic.
Proof.
  intros content.
  destruct (identifyTypeByMarker_leftmost content) as (Hsome & _ & Hoff).
  assert (H : identifyTypeByMarker content = Some topic) by (vm_compute; reflexivity).
  split; [exact H|]. split; [exact (proj1 (Hsome topic) H)|].
  split; [reflexivity|].
  rewrite (Hoff (withoutTags DEFAULT_SETTINGS) eq_refl). exact H.
Defined.

(** C2, as the specification words it, at a text that holds the plain
    marker [Type: Topic]: no type is found, with tag-based identification
    off; nor is one found when the value after [**Type:**] is spelled in
    lower case. *)
Lemma plain_marker_not_recognised :
  identifyTypeByMarker (str "Type: Topic") = None
  ∧ identifyNoteType (withoutTags DEFAULT_SETTINGS) (str "Type: Topic") ≠ Some topic
  ∧ identifyNoteType (withoutTags DEFAULT_SETTINGS) (str "**Type:** topic") ≠ Some topic.
Proof. repeat split; vm_compute; discriminate. Qed.

End MarkerPositions.

(** ** Normalisation of the configured tags *)

Section Normalisation.

Lemma match_at_class (p : ascii → bool) (i : nat) (s : text) :
  match_at false (Class p) i s =
  match s with
  | d :: tl => if p d then Some (Found i [d] [] (S i) tl) else None
  | [] => None
  end.
Proof.
  unfold match_at. cbn [run]. unfold step1. cbn [rest pos caps].
  destruct s as [|d tl]; [reflexivity|]. destruct (p d); [|reflexivity].
  cbn [pos rest caps]. replace (S i - i) with 1 by lia. reflexivity.
Qed.

Lemma exec_from_class (p : ascii → bool) (s : text) (i : nat) :
  exec_from false (Class p) i s =
  match drop (spanLength (λ c, negb (p c)) s) s with
  | d :: tl =>
      Some (Found (i + spanLength (λ c, negb (p c)) s) [d] []
                  (S (i + spanLength (λ c, negb (p c)) s)) tl)
  | [] => None
  end.
Proof.
  revert i. induction s as [|c s IH]; intros i; cbn [exec_from];
    rewrite match_at_class; [reflexivity|].
  cbn [spanLength]. destruct (p c); cbn [negb drop].
  - rewrite Nat.add_0_r. reflexivity.
  - rewrite IH. replace (S i + _) with (i + S (spanLength (λ c, negb (p c)) s)) by lia.
    reflexivity.
Qed.

Lemma removeClass_span (p : ascii → bool) (s : text) :
  removeClass p s =
  take (spanLength (λ c, negb (p c)) s) s ++
  match drop (spanLength (λ c, negb (p c)) s) s with
  | _ :: tl => removeClass p tl
  | [] => []
  end.
Proof.
  induction s as [|c s IH]; [reflexivity|]. cbn [removeClass spanLength].
  destruct (p c) eqn:Hc; cbn [negb take drop app]; [reflexivity|].
  rewrite IH at 1. reflexivity.
Qed.

Lemma replace_from_class (p : ascii → bool) (fuel : nat) (s seen : text) (i : nat) :
  length s < fuel → replace_from fuel false (Class p) [] seen i s = removeClass p s.
Proof.
  revert s seen i. induction fuel as [|fuel IH]; intros s seen i Hlen; [lia|].
  cbn [replace_from]. rewrite exec_from_class, removeClass_span.
  pose proof (take_drop (spanLength (λ c, negb (p c)) s) s) as Hsplit.
  destruct (drop (spanLength (λ c, negb (p c)) s) s) as [|d tl] eqn:Hdrop.
  - rewrite app_nil_r in *. auto.
  - cbn [Re.index Re.stop Re.after Re.whole getSubstitution app].
    replace (i + _ - i) with (spanLength (λ c, negb (p c)) s) by lia.
    replace (S (i + _) =? i + _) with false by (symmetry; apply Nat.eqb_neq; lia).
    rewrite IH; [reflexivity|].
    apply (f_equal length) in Hsplit. rewrite length_app in Hsplit.
    cbn [length] in Hsplit. lia.
Qed.

Lemma replaceAll_class (p : ascii → bool) (s : text) :
  replaceAll false (Class p) [] s = removeClass p s.
Proof. apply replace_from_class. lia. Qed.

Lemma exec_from_bos (r : regex) (s : text) (i : nat) :
  0 < i → exec_from false (Bos @@ r) i s = None.
Proof.
  revert i. induction s as [|c s IH]; intros i Hi; cbn [exec_from];
    unfold match_at; cbn [run pos];
    replace (i =? 0) with false by (symmetry; apply Nat.eqb_neq; lia);
    [reflexivity | apply IH; lia].
Qed.

Lemma replaceFirst_leadingHash (s : text) :
  replaceFirst false Pattern.leadingHash [] s = dropLeadingHash s.
Proof.
  unfold replaceFirst, exec, Pattern.leadingHash.
  destruct s as [|c s]; [reflexivity|].
  cbn [exec_from]. unfold match_at at 1. cbn [run pos Nat.eqb]. unfold step1, lit_matches.
  cbn [rest pos caps dropLeadingHash].
  rewrite (bool_decide_ext ("#"%char = c) (c = "#"%char)) by (split; congruence).
  destruct (bool_decide (c = "#"%char)); [reflexivity|].
  rewrite exec_from_bos by lia. reflexivity.
Qed.

(** The normalisation in closed form. *)
Lemma normalizeConfigTag_closed (tag : text) :
  normalizeConfigTag tag = toLowerCase (removeClass isQuote (dropLeadingHash tag)).
Proof.
  unfold normalizeConfigTag, Pattern.quote, one_of.
  rewrite replaceFirst_leadingHash, replaceAll_class. reflexivity.
Qed.

Lemma lower_char_hash (c : ascii) :
  bool_decide (lower_char c = "#"%char) = bool_decide (c = "#"%char).
Proof. destruct c as [[] [] [] [] [] [] [] []]; reflexivity. Qed.

Lemma lower_char_quote (c : ascii) : isQuote (lower_char c) = isQuote c.
Proof. destruct c as [[] [] [] [] [] [] [] []]; reflexivity. Qed.

Lemma toLowerCase_removeClass (s : text) :
  toLowerCase (removeClass isQuote s) = removeClass isQuote (toLowerCase s).
Proof.
  unfold toLowerCase. induction s as [|c s IH]; [reflexivity|].
  cbn [removeClass map]. rewrite lower_char_quote.
  destruct (isQuote c); cbn [map]; rewrite IH; reflexivity.
Qed.

Lemma toLowerCase_dropLeadingHash (s : text) :
  toLowerCase (dropLeadingHash s) = dropLeadingHash (toLowerCase s).
Proof.
  destruct s as [|c s]; [reflexivity|]. unfold toLowerCase.
  cbn [dropLeadingHash map]. rewrite lower_char_hash.
  destruct (bool_decide (c = "#"%char)); reflexivity.
Qed.

Lemma removeClass_app (p : ascii → bool) (s1 s2 : text) :
  removeClass p (s1 ++ s2) = removeClass p s1 ++ removeClass p s2.
Proof.
  induction s1 as [|c s1 IH]; [reflexivity|]. cbn [app removeClass].
  destruct (p c); rewrite IH; reflexivity.
Qed.

Lemma dropLeadingHash_plain (tag : text) :
  head tag ≠ Some "#"%char → dropLeadingHash tag = tag.
Proof.
  destruct tag as [|c tag]; [reflexivity|]. cbn. intros H.
  case_bool_decide as E; [subst; contradiction | reflexivity].
Qed.

(** A tag that differs from another in the case of letters only
    normalises as the other does. *)
Lemma normalizeConfigTag_case (tag tag' : text) :
  toLowerCase tag' = toLowerCase tag → normalizeConfigTag tag' = normalizeConfigTag tag.
Proof.
  intros Hcase. rewrite !normalizeConfigTag_closed.
  rewrite !toLowerCase_removeClass, !toLowerCase_dropLeadingHash, Hcase. reflexivity.
Qed.

(** A decoration of a tag that does not begin with [#] normalises as the
    tag does. *)
Lemma normalizeConfigTag_decoration (tag tag' : text) :
  head tag ≠ Some "#"%char → decorationOf tag tag' →
  normalizeConfigTag tag' = normalizeConfigTag tag.
Proof.
  intros Hplain Hdec. rewrite !normalizeConfigTag_closed.
  destruct Hdec as [->|[(q & Hq & ->)| Hcase]].
  - cbn [dropLeadingHash]. rewrite bool_decide_eq_true_2 by reflexivity.
    rewrite (dropLeadingHash_plain tag Hplain). reflexivity.
  - rewrite (dropLeadingHash_plain tag Hplain).
    assert (Hquote : isQuote q = true) by (apply bool_decide_eq_true; exact Hq).
    assert (Hnot : q ≠ "#"%char).
    { intros ->. vm_compute in Hquote. discriminate. }
    cbn [dropLeadingHash]. rewrite bool_decide_eq_false_2 by exact Hnot.
    cbn [removeClass]. rewrite Hquote, removeClass_app. cbn [removeClass].
    rewrite Hquote, app_nil_r. reflexivity.
  - rewrite !toLowerCase_removeClass, !toLowerCase_dropLeadingHash, Hcase.
    reflexivity.
Qed.

Lemma redecorated_normalised (tags tags' : list text) :
  redecorated tags tags' →
  map normalizeConfigTag tags' = map normalizeConfigTag tags.
Proof.
  induction 1 as [|tag tag' tags tags' Hhead _ IH]; [reflexivity|].
  cbn [map]. rewrite IH. f_equal.
  destruct Hhead as [Hcase|[Hplain Hdec]]; [apply normalizeConfigTag_case, Hcase|].
  apply normalizeConfigTag_decoration; assumption.
Qed.

Lemma someTagIncluded_normalised (configured noteTags : list text) :
  someTagIncluded configured noteTags
  = existsb (includes noteTags) (map normalizeConfigTag configured).
Proof.
  unfold someTagIncluded. induction configured as [|c cs IH]; [reflexivity|].
  cbn [existsb map]. rewrite IH. reflexivity.
Qed.

(** C10, as the code has it: replacing configured tags by variants with
    the case of letters changed, and configured tags that do not begin
    with [#] also by variants with a leading [#] added or with single or
    double quotes around them, leaves the result of [identifyTypeByTags]
    as it was, for every list of note tags. *)
Theorem identifyTypeByTags_decoration (settings settings' : STAPluginSettings)
    (noteTags : list text) :
  redecorated (sourceTags settings) (sourceTags settings') →
  redecorated (topicTags settings) (topicTags settings') →
  redecorated (argumentTags settings) (argumentTags settings') →
  identifyTypeByTags settings' noteTags = identifyTypeByTags settings noteTags.
Proof.
  intros HS%redecorated_normalised HT%redecorated_normalised
         HA%redecorated_normalised.
  unfold identifyTypeByTags. rewrite !someTagIncluded_normalised, HS, HT, HA.
  reflexivity.
Qed.

End Normalisation.

Lemma identifyTypeByTags_decoration_witness :
  let configured :=
    Settings DEFAULT_SOURCE_TEMPLATE DEFAULT_TOPIC_TEMPLATE DEFAULT_ARGUMENT_TEMPLATE true
      [str "source"; str "research"; str "#reference"]
      [str "topic"; str "theme"; str "subject"]
      [str "argument"; str "claim"; str "position"]
      true in
  let decorated :=
    Settings DEFAULT_SOURCE_TEMPLATE DEFAULT_TOPIC_TEMPLATE DEFAULT_ARGUMENT_TEMPLATE true
      [str "#source"; [squote] ++ str "research" ++ [squote]; str "#REFERENCE"]
      [str "topic"; quoted (str "theme"); str "Subject"]
      [str "#argument"; str "claim"; str "position"]
      true in
  redecorated (sourceTags configured) (sourceTags decorated)
  ∧ redecorated (topicTags configured) (topicTags decorated)
  ∧ redecorated (argumentTags configured) (argumentTags decorated)
  ∧ identifyTypeByTags decorated [str "draft"; str "Reference"]
    = identifyTypeByTags configured [str "draft"; str "Reference"]
  ∧ identifyTypeByTags configured [str "draft"; str "Reference"] = Some source.
Proof.
  intros configured decorated.
  assert (HS : redecorated (sourceTags configured) (sourceTags decorated)).
  { constructor; [|constructor; [|constructor; [|constructor]]].
    - right. split; [discriminate | left; reflexivity].
    - right. split; [discriminate|]. right. left. exists squote. split; [in_list | reflexivity].
    - left. reflexivity. }
  assert (HT : redecorated (topicTags configured) (topicTags decorated)).
  { constructor; [|constructor; [|constructor; [|constructor]]].
    - left. reflexivity.
    - right. split; [discriminate|]. right. left. exists dquote. split; [in_list | reflexivity].
    - left. reflexivity. }
  assert (HA : redecorated (argumentTags configured) (argumentTags decorated)).
  { constructor; [|constructor; [|constructor; [|constructor]]].
    - right. split; [discriminate | left; reflexivity].
    - left. reflexivity.
    - left. reflexivity. }
  repeat (split; [assumption|]).
  split; [|vm_compute; reflexivity].
  exact (identifyTypeByTags_decoration configured decorated _ HS HT HA).
Defined.

(** C10, as stated, at the configured tag [#source]: with a further [#] in
    front of it, or put between quotes, a note tagged [source] is no
    longer identified, since the hash is removed at the very beginning of
    the tag only and one hash only is removed; with the case of its
    letters changed the note is identified as before. *)
Lemma second_hash_changes_result :
  let tag := str "#source" in
  let hashed := "#"%char :: tag in
  let inQuotes := dquote :: tag ++ [dquote] in
  let inSingleQuotes := squote :: tag ++ [squote] in
  let upper := str "#SOURCE" in
  decorationOf tag hashed ∧ decorationOf tag inQuotes
  ∧ decorationOf tag inSingleQuotes ∧ decorationOf tag upper
  ∧ identifyTypeByTags (withSourceTags DEFAULT_SETTINGS [tag]) [str "source"]
    = Some source
  ∧ identifyTypeByTags (withSourceTags DEFAULT_SETTINGS [hashed]) [str "source"] = None
  ∧ identifyTypeByTags (withSourceTags DEFAULT_SETTINGS [inQuotes]) [str "source"] = None
  ∧ identifyTypeByTags (withSourceTags DEFAULT_SETTINGS [inSingleQuotes]) [str "source"]
    = None
  ∧ identifyTypeByTags (withSourceTags DEFAULT_SETTINGS [upper]) [str "source"]
    = Some source.
Proof.
  split; [left; reflexivity|].
  split; [right; left; exists dquote; split; [in_list | reflexivity]|].
  split; [right; left; exists squote; split; [in_list | reflexivity]|].
  split; [right; right; reflexivity|].
  repeat split; vm_compute; reflexivity.
Qed.

(** The restriction is needed at every tag that begins with [#]: with a
    further [#] in front of it or with quotes around it, such a tag
    normalises to a longer text than before, and a note that carries the
    tag itself is no longer identified. *)
Lemma hash_tag_decoration_changes_result (tag tag' : text) :
  head tag = Some "#"%char →
  tag' = "#"%char :: tag ∨ (∃ q, q ∈ [squote; dquote] ∧ tag' = q :: tag ++ [q]) →
  let configured := λ tags, Settings [] [] [] true tags [] [] true in
  length (normalizeConfigTag tag') = S (length (normalizeConfigTag tag))
  ∧ identifyTypeByTags (configured [tag]) [tag] = Some source
  ∧ identifyTypeByTags (configured [tag']) [tag] = None.
Proof.
  intros Hhead Hdec configured.
  assert (Hlength : length (normalizeConfigTag tag') = S (length (normalizeConfigTag tag))).
  { rewrite !normalizeConfigTag_closed.
    destruct tag as [|c tag]; [discriminate|]. injection Hhead as ->.
    unfold toLowerCase. rewrite !length_map.
    assert (Hhash : isQuote "#" = false) by reflexivity.
    destruct Hdec as [->|(q & Hq & ->)].
    - cbn [dropLeadingHash]. rewrite bool_decide_eq_true_2 by reflexivity.
      cbn [removeClass]. rewrite Hhash. reflexivity.
    - assert (Hquote : isQuote q = true) by (apply bool_decide_eq_true; exact Hq).
      assert (Hnot : q ≠ "#"%char) by (intros ->; vm_compute in Hquote; discriminate).
      cbn [dropLeadingHash]. rewrite bool_decide_eq_false_2 by exact Hnot.
      rewrite bool_decide_eq_true_2 by reflexivity.
      cbn [removeClass app]. rewrite Hquote, Hhash, removeClass_app.
      cbn [removeClass]. rewrite Hquote, app_nil_r. reflexivity. }
  split; [exact Hlength|].
  unfold identifyTypeByTags, someTagIncluded, includes.
  cbn [configured argumentTags sourceTags topicTags existsb map orb]. split.
  - rewrite bool_decide_eq_true_2 by apply list_elem_of_here. reflexivity.
  - rewrite bool_decide_eq_false_2; [reflexivity|].
    intros Hin%list_elem_of_singleton. rewrite Hin in Hlength. lia.
Qed.

(** ** Worked examples *)

Section Examples.

(** The empty text has no tags and no type, under either strategy. *)
Example empty_text :
  extractTagsFromContent [] = []
  ∧ identifyNoteType DEFAULT_SETTINGS [] = None
  ∧ identifyNoteType (withoutTags DEFAULT_SETTINGS) [] = None.
Proof. repeat split; vm_compute; reflexivity. Qed.

(** Front matter with a bracketed list of tags. *)
Example bracketed_tags :
  let content := unlines [str "---"; str "tags: [source, draft]"; str "---"; str "Body"] in
  extractTagsFromContent content = [str "source"; str "draft"]
  ∧ identifyNoteType (withSourceTags DEFAULT_SETTINGS [str "source"; str "research"])
      content = Some source.
Proof. split; vm_compute; reflexivity. Qed.

(** The white space after the opening line of the front matter is given
    back, one newline at a time, until the newline of the pattern matches. *)
Example frontmatter_blank_lines :
  frontmatterTags (unlines [str "---  "; str ""; str "tags:"; str "- One";
                            str "-  'two'"; str "---"])
  = [str "one"; str "two"].
Proof. vm_compute. reflexivity. Qed.

(** The three surfaces together, with tags met twice; the line after the
    heading is read up to its first [#]. *)
Example three_surfaces :
  extractTagsFromContent
    (unlines [str "---"; str "tags: [Alpha]"; str "---"; str "Seen in #Beta and #alpha.";
              str "## TAGS"; str "gamma,  delta #Beta"])
  = [str "beta"; str "alpha"; str "gamma"; str "delta"].
Proof. vm_compute. reflexivity. Qed.

(** The default notes: the argument note keeps its type, the topic note
    does not. *)
Example default_notes :
  identifyNoteType DEFAULT_SETTINGS
    (noteContent DEFAULT_SETTINGS argument (str "Reading notes") (str "2025-01-31"))
  = Some argument
  ∧ identifyNoteType DEFAULT_SETTINGS
      (noteContent DEFAULT_SETTINGS topic (str "Reading notes") (str "2025-01-31"))
    = Some source.
Proof. repeat split; vm_compute; reflexivity. Qed.

(** The default configuration raises no warning. *)
Example default_configuration_valid :
  validateTagConfiguration DEFAULT_SETTINGS = (true, []).
Proof. vm_compute. reflexivity. Qed.

(** A label that sits in a sibling before the title is the one removed. *)
Example label_of_sibling_removed :
  let sibling := Element [] "" "" [labelEl topic] in
  let s := Site (Some (ParentContext (Element ["nav-file"%string] "" "" []) [sibling] []))
                (Element [titleContentClass] "Reading notes" "" []) in
  labelsAt s = 1
  ∧ before <$> parentElement (now (addLabelToElement s (Some source)))
    = Some [Element [] "" "" []]
  ∧ children (titleEl (now (addLabelToElement s (Some source)))) = [labelEl source].
Proof. repeat split; vm_compute; reflexivity. Qed.

End Examples.

(** * More of the plugin *)

(** ** What a match is made of *)

Section Soundness.

Context {R : Type}.
Variable icase : bool.

Lemma passes_here (r : regex) (s : state) (k : state → option R) (x : R) :
  denotes icase r [] [] → k s = Some x → passes icase r s k x.
Proof.
  intros Hr Hk. exists [], [], s. rewrite app_nil_r, Nat.add_0_r. auto.
Qed.

Lemma star_loop_sound (g : bool) (r : regex) (k : state → option R) (x : R) :
  (∀ s k', run icase r s k' = Some x → passes icase r s k' x) →
  ∀ fuel s, star_loop fuel g (run icase r) k s = Some x →
  passes icase (Star g r) s k x.
Proof.
  intros IHr. induction fuel as [|fuel IH]; intros s Hrun; cbn [star_loop] in Hrun.
  - apply passes_here; [constructor | exact Hrun].
  - unfold star_pass in Hrun.
    assert (Hmore : run icase r s
                      (λ s', if pos s <? pos s'
                             then star_loop fuel g (run icase r) k s' else None)
                    = Some x → passes icase (Star g r) s k x).
    { intros (w1 & cs1 & s1 & Hw1 & Hrest1 & Hpos1 & Hcaps1 & Hk1)%IHr.
      destruct (pos s <? pos s1); [|discriminate].
      apply IH in Hk1 as (w2 & cs2 & s2 & Hw2 & Hrest2 & Hpos2 & Hcaps2 & Hk2).
      exists (w1 ++ w2), (cs1 ++ cs2), s2.
      rewrite Hrest1, Hrest2, Hpos2, Hpos1, Hcaps2, Hcaps1, length_app, !app_assoc.
      repeat split; [econstructor; eassumption | lia | exact Hk2]. }
    destruct g.
    + destruct (run icase r s _) as [y|] eqn:E.
      * injection Hrun as ->. apply Hmore. reflexivity.
      * apply passes_here; [constructor | exact Hrun].
    + destruct (k s) as [y|] eqn:E.
      * injection Hrun as ->. apply passes_here; [constructor | exact E].
      * apply Hmore, Hrun.
Qed.

Lemma run_sound (r : regex) (x : R) :
  ∀ s k, run icase r s k = Some x → passes icase r s k x.
Proof.
  induction r as [|c|p|r1 IH1 r2 IH2|r1 IH1 r2 IH2|g r1 IH1|r1 IH1|];
    intros s k Hrun; cbn [run] in Hrun.
  - apply passes_here; [constructor | exact Hrun].
  - unfold step1 in Hrun. destruct (rest s) as [|d tl] eqn:Hrest; [discriminate|].
    destruct (lit_matches icase c d) eqn:Hd; [|discriminate].
    exists [d], [], (State (S (pos s)) tl (caps s)). cbn [rest pos caps length].
    rewrite app_nil_r.
    split; [constructor; exact Hd|]. repeat split; [exact Hrest | lia | exact Hrun].
  - unfold step1 in Hrun. destruct (rest s) as [|d tl] eqn:Hrest; [discriminate|].
    destruct (p d) eqn:Hd; [|discriminate].
    exists [d], [], (State (S (pos s)) tl (caps s)). cbn [rest pos caps length].
    rewrite app_nil_r.
    split; [constructor; exact Hd|]. repeat split; [exact Hrest | lia | exact Hrun].
  - apply IH1 in Hrun as (w1 & cs1 & s1 & Hw1 & Hrest1 & Hpos1 & Hcaps1 & Hk1).
    apply IH2 in Hk1 as (w2 & cs2 & s2 & Hw2 & Hrest2 & Hpos2 & Hcaps2 & Hk2).
    exists (w1 ++ w2), (cs1 ++ cs2), s2.
    rewrite Hrest1, Hrest2, Hpos2, Hpos1, Hcaps2, Hcaps1, length_app, !app_assoc.
    repeat split; [constructor; assumption | lia | exact Hk2].
  - destruct (run icase r1 s k) as [y|] eqn:E.
    + injection Hrun as ->.
      apply IH1 in E as (w & cs & s' & Hw & H). exists w, cs, s'.
      split; [apply denotes_alt_l; exact Hw | exact H].
    + apply IH2 in Hrun as (w & cs & s' & Hw & H). exists w, cs, s'.
      split; [apply denotes_alt_r; exact Hw | exact H].
  - eapply star_loop_sound; [exact IH1 | exact Hrun].
  - apply IH1 in Hrun as (w & cs & s1 & Hw & Hrest & Hpos & Hcaps & Hk).
    exists w, (cs ++ [w]),
      (State (pos s1) (rest s1) (caps s1 ++ [take (pos s1 - pos s) (rest s)])).
    split; [constructor; exact Hw|].
    split; [|split; [|split; [|exact Hk]]]; cbn [rest pos caps].
    + exact Hrest.
    + exact Hpos.
    + rewrite Hcaps, Hrest, Hpos, <- app_assoc.
      replace (pos s + length w - pos s) with (length w) by lia.
      rewrite take_app_length. reflexivity.
  - destruct (pos s =? 0); [|discriminate].
    apply passes_here; [constructor | exact Hrun].
Qed.

End Soundness.

Lemma match_at_sound (icase : bool) (r : regex) (p : nat) (s : text) (m : found) :
  match_at icase r p s = Some m →
  denotes icase r (whole m) (groups m)
  ∧ s = whole m ++ Re.after m
  ∧ index m = p
  ∧ stop m = p + length (whole m).
Proof.
  unfold match_at.
  intros (w & cs & e & Hw & Hrest & Hpos & Hcaps & Hk)%run_sound.
  cbn [rest pos caps] in *. injection Hk as <-. cbn [whole groups Re.after index stop].
  rewrite Hpos, Hcaps, Hrest. replace (p + length w - p) with (length w) by lia.
  rewrite take_app_length. auto.
Qed.

Lemma exec_from_sound (icase : bool) (r : regex) (s : text) :
  ∀ p m, exec_from icase r p s = Some m →
  ∃ skipped, denotes icase r (whole m) (groups m)
    ∧ s = skipped ++ whole m ++ Re.after m
    ∧ index m = p + length skipped
    ∧ stop m = index m + length (whole m).
Proof.
  induction s as [|c s IH]; intros p m; cbn [exec_from];
    destruct (match_at icase r p _) as [m'|] eqn:Hat.
  1, 3: intros [= ->]; apply match_at_sound in Hat as (Hw & Hs & Hi & Hstop);
    exists []; cbn [app length]; rewrite Hi, Nat.add_0_r; auto.
  - discriminate.
  - intros (skipped & Hw & Hs & Hi & Hstop)%IH.
    exists (c :: skipped). cbn [app length]. rewrite Hs at 1.
    repeat split; [exact Hw | lia | exact Hstop].
Qed.

(** ** The tag fields of the settings tab *)

Section TagFields.

Lemma trimStart_head (s : text) :
  match trimStart s with c :: _ => is_space c = false | [] => True end.
Proof.
  induction s as [|c s IH]; [exact I|]. cbn [trimStart].
  destruct (is_space c) eqn:E; [exact IH | exact E].
Qed.

Lemma trimStart_end (l : text) (c : ascii) :
  is_space c = false → trimStart (l ++ [c]) = trimStart l ++ [c].
Proof.
  intros Hc. induction l as [|d l IH]; cbn [app trimStart]; [rewrite Hc; reflexivity|].
  destruct (is_space d); [exact IH | reflexivity].
Qed.

Lemma trimEnd_cons (c : ascii) (s : text) :
  is_space c = false → trimEnd (c :: s) = c :: trimEnd s.
Proof.
  intros Hc. unfold trimEnd. cbn [rev]. rewrite trimStart_end by exact Hc.
  rewrite rev_app_distr. reflexivity.
Qed.

Lemma trimEnd_idemp (s : text) : trimEnd (trimEnd s) = trimEnd s.
Proof.
  unfold trimEnd. rewrite rev_involutive. f_equal.
  pose proof (trimStart_head (rev s)) as H.
  destruct (trimStart (rev s)) as [|c t]; [reflexivity|].
  cbn [trimStart]. rewrite H. reflexivity.
Qed.

(** [trim] in two cases: nothing but white space, or a first code unit
    that is not white space and the rest without its trailing white space. *)
Lemma trim_cases (s : text) :
  trim s = [] ∨ ∃ c t, is_space c = false ∧ trimStart s = c :: t ∧ trim s = c :: trimEnd t.
Proof.
  unfold trim. pose proof (trimStart_head s) as H.
  destruct (trimStart s) as [|c t]; [left; reflexivity|].
  right. exists c, t. rewrite trimEnd_cons by exact H. auto.
Qed.

Lemma trim_idemp (s : text) : trim (trim s) = trim s.
Proof.
  destruct (trim_cases s) as [->|(c & t & Hc & _ & ->)]; [reflexivity|].
  unfold trim at 1. cbn [trimStart]. rewrite Hc, trimEnd_cons by exact Hc.
  rewrite trimEnd_idemp. reflexivity.
Qed.

Lemma trimStart_elem (s : text) (c : ascii) : c ∈ trimStart s → c ∈ s.
Proof.
  induction s as [|d s IH]; [auto|]. cbn [trimStart].
  destruct (is_space d); [intros H; right; auto | auto].
Qed.

Lemma elem_of_rev (s : text) (c : ascii) : c ∈ rev s ↔ c ∈ s.
Proof. rewrite !list_elem_of_In. symmetry. apply in_rev. Qed.

Lemma trim_elem (s : text) (c : ascii) : c ∈ trim s → c ∈ s.
Proof.
  unfold trim, trimEnd. rewrite elem_of_rev.
  intros H%trimStart_elem. rewrite elem_of_rev in H. apply trimStart_elem, H.
Qed.

Lemma trim_leading_space (s : text) : trim (" "%char :: s) = trim s.
Proof. reflexivity. Qed.

Lemma splitComma_not_nil (s : text) : splitComma s ≠ [].
Proof.
  induction s as [|c s IH]; [discriminate|]. cbn [splitComma].
  destruct (bool_decide (c = ","%char)); [discriminate|].
  destruct (splitComma s); [contradiction | discriminate].
Qed.

Lemma splitComma_plain (x : text) : ","%char ∉ x → splitComma x = [x].
Proof.
  induction x as [|c x IH]; [reflexivity|]. intros H.
  apply not_elem_of_cons in H as [Hc Hx]. cbn [splitComma].
  rewrite bool_decide_eq_false_2 by congruence. rewrite IH by exact Hx. reflexivity.
Qed.

Lemma splitComma_app (x rest : text) :
  ","%char ∉ x → splitComma (x ++ ","%char :: rest) = x :: splitComma rest.
Proof.
  induction x as [|c x IH]; intros H; cbn [app splitComma].
  - reflexivity.
  - apply not_elem_of_cons in H as [Hc Hx].
    rewrite bool_decide_eq_false_2 by congruence. rewrite IH by exact Hx. reflexivity.
Qed.

(** The pieces of a split hold no comma. *)
Lemma splitComma_pieces (s : text) : Forall (λ piece, ","%char ∉ piece) (splitComma s).
Proof.
  induction s as [|c s IH]; cbn [splitComma]; [repeat constructor; apply not_elem_of_nil|].
  case_bool_decide as Hc; [constructor; [apply not_elem_of_nil | exact IH]|].
  destruct (splitComma s) as [|piece pieces].
  { repeat constructor. intros [E|[]%elem_of_nil]%elem_of_cons. congruence. }
  inversion IH as [|? ? Hpiece Hpieces]; subst.
  constructor; [|exact Hpieces]. apply not_elem_of_cons. split; [congruence | exact Hpiece].
Qed.

Lemma splitComma_join (x : text) (xs : list text) :
  Forall plainTag (x :: xs) →
  splitComma (join (str ", ") (x :: xs)) = x :: map (λ tag, " "%char :: tag) xs.
Proof.
  revert x. induction xs as [|y xs IH]; intros x Hall;
    inversion Hall as [|? ? (_ & _ & Hx) Hrest]; subst.
  - cbn [join map]. apply splitComma_plain, Hx.
  - change (join (str ", ") (x :: y :: xs))
      with (x ++ ","%char :: " "%char :: join (str ", ") (y :: xs)).
    rewrite splitComma_app by exact Hx. f_equal.
    cbn [splitComma]. rewrite bool_decide_eq_false_2 by discriminate.
    rewrite IH by exact Hrest. reflexivity.
Qed.

Lemma tagSetting_kept (tags : list text) :
  Forall plainTag tags → tagSettingOnChange (tagSettingValue tags) = tags.
Proof.
  unfold tagSettingOnChange, tagSettingValue. intros Hall.
  destruct tags as [|x xs]; [reflexivity|].
  rewrite splitComma_join by exact Hall. cbn [map]. rewrite map_map.
  assert (Hmap : ∀ l, Forall plainTag l →
            filter (λ tag : text, 0 < length tag) (map trim l) = l).
  { induction l as [|t l IH]; [reflexivity|]. intros Hl.
    inversion Hl as [|? ? (Hne & Htrim & _) Hl']; subst. cbn [map].
    rewrite filter_cons, Htrim.
    destruct (decide (0 < length t)) as [_|Hlen];
      [rewrite IH by exact Hl'; reflexivity|].
    destruct t; [contradiction | cbn in Hlen; lia]. }
  rewrite (map_ext (λ tag, trim (" "%char :: tag)) trim trim_leading_space).
  exact (Hmap (x :: xs) Hall).
Qed.

Lemma tagSettingOnChange_plain (value : text) :
  Forall plainTag (tagSettingOnChange value).
Proof.
  unfold tagSettingOnChange. apply Forall_forall. intros tag Htag.
  apply list_elem_of_filter in Htag as [Hlen Htag].
  apply elem_of_map in Htag as (piece & -> & Hpiece).
  split; [|split].
  - intros E. rewrite E in Hlen. cbn in Hlen. lia.
  - apply trim_idemp.
  - intros H%trim_elem.
    exact (proj1 (Forall_forall _ _) (splitComma_pieces value) piece Hpiece H).
Qed.

End TagFields.

(** X1 --- The tag fields of the settings tab keep a list of tags: a list
    of tags that are not empty, have no white space around them and hold no
    comma is read back unchanged from the text the field shows for it. *)
Theorem tag_setting_round_trip (tags : list text) :
  Forall plainTag tags → tagSettingOnChange (tagSettingValue tags) = tags.
Proof. apply tagSetting_kept. Qed.

Lemma tag_setting_round_trip_witness :
  tagSettingOnChange (str "source, research, reference") = sourceTags DEFAULT_SETTINGS.
Proof.
  apply (tag_setting_round_trip (sourceTags DEFAULT_SETTINGS)).
  repeat (constructor;
          [split; [discriminate | split; [reflexivity|];
                   apply (bool_decide_unpack _); vm_compute; exact I]|]).
  constructor.
Defined.

(** X2 --- Whatever is typed into a tag field, the tags stored are not
    empty, have no white space around them and hold no comma, and showing
    them and reading them again stores the same tags. *)
Theorem tag_setting_stored_plain (value : text) :
  Forall plainTag (tagSettingOnChange value)
  ∧ tagSettingOnChange (tagSettingValue (tagSettingOnChange value))
    = tagSettingOnChange value.
Proof.
  split; [apply tagSettingOnChange_plain|].
  apply tagSetting_kept, tagSettingOnChange_plain.
Qed.

(** ** Validity of a tag configuration *)

Section Validity.

Lemma uniqueFrom_same (seen xs : list text) :
  NoDup xs → (∀ x, x ∈ xs → x ∉ seen) → uniqueFrom seen xs = xs.
Proof.
  revert seen. induction xs as [|x xs IH]; intros seen Hnd Hfresh; [reflexivity|].
  apply NoDup_cons in Hnd as [Hx Hnd]. cbn [uniqueFrom].
  rewrite bool_decide_eq_false_2 by (apply Hfresh; left).
  f_equal. apply IH; [exact Hnd|].
  intros y Hy [->|Hseen]%elem_of_cons; [contradiction|].
  exact (Hfresh y (list_elem_of_further _ _ _ Hy) Hseen).
Qed.

Lemma setSize_NoDup (xs : list text) : setSize xs = length xs ↔ NoDup xs.
Proof.
  split; [apply setSize_full|]. intros Hnd. unfold setSize, unique.
  rewrite uniqueFrom_same; [reflexivity | exact Hnd |].
  intros x _. apply not_elem_of_nil.
Qed.

Lemma emptyWarning_nil (tags : list text) (message : string) :
  emptyWarning tags message = [] ↔ tags ≠ [].
Proof.
  unfold emptyWarning. destruct tags; cbn; split; congruence.
Qed.

End Validity.

(** X3 --- [validateTagConfiguration] calls a configuration valid exactly
    when none of the three tag lists is empty and the tags of the three
    lists together, lower-cased, are all different; the warning about tags
    used for several note types is given exactly when two of them are the
    same, be it within one list. *)
Theorem validateTagConfiguration_valid_iff (settings : STAPluginSettings) :
  let allTags := sourceTags settings ++ topicTags settings ++ argumentTags settings in
  ((validateTagConfiguration settings).1 = true ↔
     sourceTags settings ≠ [] ∧ topicTags settings ≠ [] ∧ argumentTags settings ≠ []
     ∧ NoDup (map toLowerCase allTags))
  ∧ (overlapMessage ∈ (validateTagConfiguration settings).2 ↔
       ¬ NoDup (map toLowerCase allTags)).
Proof.
  intros allTags. unfold validateTagConfiguration. cbn [fst snd]. fold allTags.
  assert (Hsize : (length allTags =? setSize (map toLowerCase allTags)) = true
                  ↔ NoDup (map toLowerCase allTags)).
  { rewrite Nat.eqb_eq, <- setSize_NoDup, length_map. split; congruence. }
  split.
  - rewrite Nat.eqb_eq, length_zero_iff_nil.
    rewrite !app_nil, !emptyWarning_nil, <- Hsize.
    destruct (length allTags =? setSize (map toLowerCase allTags)); cbn [negb];
      intuition congruence.
  - rewrite !elem_of_app, !emptyWarning_elem, <- Hsize.
    destruct (length allTags =? setSize (map toLowerCase allTags)); cbn [negb].
    + rewrite elem_of_nil. unfold overlapMessage. intuition congruence.
    + rewrite list_elem_of_singleton. intuition congruence.
Qed.

(** ** The label map under renaming *)

(** X4 --- Renaming a file to a path that has no entry in the label map
    and renaming it back gives every path the entry it had before, and
    none where it had none, whether the file had an entry or not.  (The
    statement is about the lookups; the place of the entry in the order of
    the [Map] is not kept by the two renamings.) *)
Theorem onRename_there_and_back (fileLabels : labelMap) (oldPath newPath : string) :
  fileLabels !! newPath = None →
  ∀ path,
    onRename true oldPath newPath (onRename true newPath oldPath fileLabels) !! path
    = fileLabels !! path.
Proof.
  intros Hnew path. unfold onRename at 2. cbn [andb].
  destruct (fileLabels !! oldPath) as [label|] eqn:Hold.
  - rewrite bool_decide_eq_true_2 by eauto.
    assert (Hne : oldPath ≠ newPath) by congruence.
    unfold onRename. cbn [andb]. rewrite lookup_insert_eq.
    rewrite bool_decide_eq_true_2 by eauto.
    destruct (decide (path = oldPath)) as [->|Hpo].
    + rewrite lookup_insert_eq. congruence.
    + rewrite lookup_insert_ne by congruence.
      destruct (decide (path = newPath)) as [->|Hpn].
      * rewrite lookup_delete_eq. congruence.
      * rewrite lookup_delete_ne, lookup_insert_ne, lookup_delete_ne by congruence.
        reflexivity.
  - rewrite bool_decide_eq_false_2 by (intros [? ?]; congruence).
    unfold onRename. cbn [andb]. rewrite Hnew.
    rewrite bool_decide_eq_false_2 by (intros [? ?]; congruence). reflexivity.
Qed.

Lemma onRename_there_and_back_witness :
  let fileLabels : labelMap := {["a.md"%string := topic]} in
  let back := onRename true "a.md" "b.md" (onRename true "b.md" "a.md" fileLabels) in
  back !! "a.md"%string = Some topic ∧ back !! "b.md"%string = None.
Proof.
  intros fileLabels back.
  assert (Hnew : fileLabels !! "b.md"%string = None) by reflexivity.
  split.
  - exact (onRename_there_and_back fileLabels "a.md" "b.md" Hnew "a.md"%string).
  - exact (onRename_there_and_back fileLabels "a.md" "b.md" Hnew "b.md"%string).
Defined.

(** ** The retry chain, attempt by attempt *)

Section FirstSuccess.

Lemma delaysFrom_succ (delay timers : nat) :
  delaysFrom delay (S timers) = delay :: delaysFrom (delay * 2) timers.
Proof.
  unfold delaysFrom. cbn [seq map]. f_equal; [cbn; lia|].
  rewrite <- seq_shift, map_map. apply map_ext. intros i. rewrite Nat.pow_succ_r'. lia.
Qed.

Lemma delaysFrom_total (delay timers : nat) :
  sum_list (delaysFrom delay timers) = delay * (2 ^ timers - 1).
Proof.
  revert delay. induction timers as [|timers IH]; intros delay.
  - cbn. lia.
  - rewrite delaysFrom_succ. cbn [sum_list sum_list_with]. 
    change (sum_list_with id (delaysFrom (delay * 2) timers))
      with (sum_list (delaysFrom (delay * 2) timers)).
    rewrite IH. cbn [Nat.pow].
    assert (Hpos : 1 ≤ 2 ^ timers) by (apply Nat.neq_0_lt_0, Nat.pow_nonzero; lia).
    destruct (2 ^ timers) as [|p]; [lia|].
    replace (S p - 1) with p by lia. replace (2 * S p - 1) with (2 * p + 1) by lia.
    unfold id. nia.
Qed.

Lemma attemptLabelUpdate_first {A : Type} (element : nat → queried A) (more : nat) :
  ∀ delay attempt,
    attempt + more ≤ 5 →
    (∃ fileElement, element (attempt + more) = Node fileElement) →
    (∀ m, attempt ≤ m < attempt + more → element m = Null) →
    attemptLabelUpdate element delay attempt
    = (delaysFrom delay (S more), LabelUpdated).
Proof.
  induction more as [|more IH]; intros delay attempt Hle [e Hthere] Hbefore;
    rewrite attemptLabelUpdate_step.
  - rewrite Nat.add_0_r in Hthere. rewrite Hthere. unfold delaysFrom. cbn.
    f_equal. f_equal. lia.
  - rewrite (Hbefore attempt) by lia.
    destruct (decide (attempt < 5)) as [_|Hge]; [|lia].
    rewrite (IH (delay * 2) (attempt + 1)).
    + rewrite (delaysFrom_succ delay (S more)). reflexivity.
    + lia.
    + exists e. rewrite <- Hthere. f_equal. lia.
    + intros m Hm. apply Hbefore. lia.
Qed.

End FirstSuccess.

(** X5 --- The retry chain of a new note stops at the first attempt at
    which the query finds the element of the file: when that is attempt
    [n] of the five, the query having found nothing before, [n] timers
    have been armed, of 500 ms doubled each time, the label is updated,
    and the waiting adds up to [500 * (2 ^ n - 1)] ms.  (A query that
    throws finds nothing and is not one of these.) *)
Theorem retry_chain_first_success (settings : STAPluginSettings) (fileLabels : labelMap)
    (path : string) (type : STANoteType) (views : nat → lookups) (n : nat) :
  showFileExplorerLabels settings = true →
  1 ≤ n ≤ 5 →
  (∃ fileElement, byQuery (views n) path = Node fileElement) →
  (∀ m, 1 ≤ m < n → byQuery (views m) path = Null) →
  (labelNewNote settings fileLabels path type views).2
  = Some (delaysFrom 500 n, LabelUpdated)
  ∧ length (delaysFrom 500 n) = n
  ∧ sum_list (delaysFrom 500 n) = 500 * (2 ^ n - 1).
Proof.
  intros Hshow Hn Hthere Hbefore. split; [|split].
  - unfold labelNewNote. rewrite Hshow. cbn [snd]. f_equal.
    destruct n as [|more]; [lia|].
    apply (attemptLabelUpdate_first (λ attempt, byQuery (views attempt) path));
      [lia | exact Hthere |].
    intros m Hm. apply Hbefore. lia.
  - unfold delaysFrom. rewrite length_map, length_seq. reflexivity.
  - apply delaysFrom_total.
Qed.

Lemma retry_chain_first_success_witness :
  let path := "Topics/Reefs.md"%string in
  let views := λ n : nat,
    Lookups None None
      (λ value, if bool_decide (n = 3 ∧ value = str path) then Some None else None)
      (λ _, Null) in
  (labelNewNote DEFAULT_SETTINGS ∅ path topic views).2
  = Some ([500; 1000; 2000], LabelUpdated)
  ∧ sum_list [500; 1000; 2000] = 3500.
Proof.
  intros path views.
  destruct (retry_chain_first_success DEFAULT_SETTINGS ∅ path topic views 3)
    as (H & _ & Htotal).
  - reflexivity.
  - lia.
  - exists None. reflexivity.
  - intros m Hm.
    assert (Hcases : m = 1 ∨ m = 2) by lia.
    destruct Hcases as [-> | ->]; reflexivity.
  - split; [exact H | exact Htotal].
Defined.

(** ** Removal of all labels *)

Section Cleanup.

Variable cls : string.

Lemma removeAllBelow_step (e : element) :
  removeAllBelow cls e = withChildren e (removeAllAmong cls (children e)).
Proof.
  destruct e as [c t a ks]. cbn [removeAllBelow withChildren children]. f_equal.
  induction ks as [|k ks IH]; [reflexivity|]. cbn [removeAllAmong].
  rewrite IH. reflexivity.
Qed.

Lemma removeAllAmong_app (l1 l2 : list element) :
  removeAllAmong cls (l1 ++ l2) = removeAllAmong cls l1 ++ removeAllAmong cls l2.
Proof.
  induction l1 as [|k l1 IH]; [reflexivity|]. cbn [app removeAllAmong].
  destruct (hasClass cls k); rewrite IH; reflexivity.
Qed.

Lemma removeAllBelow_class (e : element) :
  hasClass cls (removeAllBelow cls e) = hasClass cls e.
Proof. rewrite removeAllBelow_step. apply hasClass_withChildren. Qed.

(** No element with the class is left. *)
Lemma removeAllAmong_count (ks : list element) :
  countAmong cls (removeAllAmong cls ks) = 0.
Proof.
  enough (Hall : ∀ e, countAmong cls (removeAllAmong cls (children e)) = 0).
  { induction ks as [|k ks IH]; [reflexivity|]. cbn [removeAllAmong].
    destruct (hasClass cls k) eqn:Hk; [exact IH|]. cbn [countAmong].
    rewrite countClass_step, removeAllBelow_class, Hk, removeAllBelow_step,
      children_withChildren, Hall, IH. reflexivity. }
  clear ks. induction e as [c t a ks IH] using element_induction. cbn [children].
  induction ks as [|k ks IHks]; [reflexivity|].
  apply Forall_cons in IH as [Hk Hks]. cbn [removeAllAmong].
  destruct (hasClass cls k) eqn:Hc; [exact (IHks Hks)|]. cbn [countAmong].
  rewrite countClass_step, removeAllBelow_class, Hc, removeAllBelow_step,
    children_withChildren, Hk, (IHks Hks). reflexivity.
Qed.

Lemma withChildren_same (e : element) : withChildren e (children e) = e.
Proof. destruct e. reflexivity. Qed.

(** Where there is no element with the class, nothing changes. *)
Lemma removeAllAmong_none (ks : list element) :
  countAmong cls ks = 0 → removeAllAmong cls ks = ks.
Proof.
  enough (Hall : ∀ e, countClass cls e = 0 → removeAllBelow cls e = e).
  { induction ks as [|k ks IH]; [reflexivity|]. cbn [countAmong removeAllAmong].
    intros H. assert (Hk : countClass cls k = 0) by lia.
    pose proof (countClass_step cls k) as Hstep.
    destruct (hasClass cls k); [lia|].
    rewrite (Hall k Hk), IH by lia. reflexivity. }
  clear ks. induction e as [c t a ks IH] using element_induction.
  rewrite countClass_step, removeAllBelow_step. cbn [children].
  destruct (hasClass cls _); [discriminate|]. cbn [Nat.add]. intros Hks.
  change (Element c t a ks) with (withChildren (Element c t a ks) ks) at 2.
  f_equal. clear -IH Hks.
  induction ks as [|k ks IHks]; [reflexivity|].
  apply Forall_cons in IH as [Hk Hrest]. cbn [countAmong removeAllAmong] in *.
  assert (Hk0 : countClass cls k = 0) by lia.
  pose proof (countClass_step cls k) as Hstep.
  destruct (hasClass cls k); [lia|].
  rewrite (Hk Hk0), IHks; [reflexivity | exact Hrest | lia].
Qed.

Lemma removeAllAmong_delete (ks : list element) (j : nat) (k : element) :
  ks !! j = Some k → hasClass cls k = true →
  removeAllAmong cls (delete j ks) = removeAllAmong cls ks.
Proof.
  revert j. induction ks as [|k0 ks IH]; intros [|j] Hj Hk; try discriminate.
  - injection Hj as ->. cbn. rewrite Hk. reflexivity.
  - cbn in Hj. cbn [removeAllAmong]. change (delete (S j) (k0 :: ks)) with (k0 :: delete j ks).
    cbn [removeAllAmong]. rewrite (IH j Hj Hk). reflexivity.
Qed.

Lemma removeAllAmong_insert (ks : list element) (j : nat) (k : element)
    (kids : list element) :
  ks !! j = Some k →
  removeAllAmong cls kids = removeAllAmong cls (children k) →
  removeAllAmong cls (<[j := withChildren k kids]> ks) = removeAllAmong cls ks.
Proof.
  revert j. induction ks as [|k0 ks IH]; intros [|j] Hj Hkids; try discriminate.
  - injection Hj as ->. cbn [removeAllAmong].
    change (<[0 := withChildren k kids]> (k :: ks)) with (withChildren k kids :: ks).
    cbn [removeAllAmong]. rewrite hasClass_withChildren.
    rewrite !removeAllBelow_step, children_withChildren, withChildren_twice, Hkids.
    reflexivity.
  - cbn in Hj. change (<[S j := withChildren k kids]> (k0 :: ks))
      with (k0 :: <[j := withChildren k kids]> ks).
    cbn [removeAllAmong]. rewrite (IH j Hj Hkids). reflexivity.
Qed.

(** Removing one element with the class first makes no difference. *)
Lemma removeAllAmong_remove (p : path) :
  ∀ ks e, subtreeAt p ks = Some e → hasClass cls e = true →
  removeAllAmong cls (removeAmong p ks) = removeAllAmong cls ks.
Proof.
  induction p as [|j p IH]; intros ks e H He; [discriminate|].
  cbn [subtreeAt] in H. cbn [removeAmong].
  destruct (ks !! j) as [k|] eqn:Hj; [|discriminate].
  destruct p as [|j' p].
  - injection H as <-. apply (removeAllAmong_delete ks j k Hj He).
  - apply removeAllAmong_insert; [exact Hj|]. apply (IH _ e H He).
Qed.

(** Nor does appending an element with the class, wherever it goes. *)
Lemma removeAllAmong_append (p : path) (child : element) :
  hasClass cls child = true →
  ∀ ks, removeAllAmong cls (appendAmong p child ks) = removeAllAmong cls ks.
Proof.
  intros Hchild. induction p as [|j p IH]; intros ks; cbn [appendAmong].
  - rewrite removeAllAmong_app. cbn [removeAllAmong]. rewrite Hchild.
    apply app_nil_r.
  - destruct (ks !! j) as [k|] eqn:Hj; [|reflexivity].
    apply removeAllAmong_insert; [exact Hj | apply IH].
Qed.

Lemma removeAllBelow_removeBelow (p : path) (e e' : element) :
  subtreeAt p (children e) = Some e' → hasClass cls e' = true →
  removeAllBelow cls (removeBelow p e) = removeAllBelow cls e.
Proof.
  intros Hp He. unfold removeBelow.
  rewrite !removeAllBelow_step, children_withChildren, withChildren_twice.
  rewrite (removeAllAmong_remove p _ e' Hp He). reflexivity.
Qed.

Lemma removeAllBelow_appendChild (p : path) (child e : element) :
  hasClass cls child = true →
  removeAllBelow cls (appendChild p child e) = removeAllBelow cls e.
Proof.
  intros Hchild. unfold appendChild.
  rewrite !removeAllBelow_step, children_withChildren, withChildren_twice.
  rewrite (removeAllAmong_append p child Hchild). reflexivity.
Qed.

(** Looking up the first element with the class and removing it, often
    enough, comes to the same. *)
Lemma removeFirstRepeatedly_all (n : nat) :
  ∀ ks, countAmong cls ks ≤ n →
  removeFirstRepeatedly n cls ks = removeAllAmong cls ks.
Proof.
  induction n as [|n IH]; intros ks Hn; cbn [removeFirstRepeatedly].
  - symmetry. apply removeAllAmong_none. lia.
  - destruct (firstAmong cls ks 0) as [q|] eqn:Hq.
    + apply firstAmong_at in Hq as (j & p & k & e' & -> & _ & Hsub & He' & _).
      rewrite IH.
      * apply (removeAllAmong_remove _ _ e' Hsub He').
      * pose proof (countAmong_remove_found cls _ _ e' Hsub He'). lia.
    + symmetry. apply removeAllAmong_none. apply (firstAmong_none cls ks 0 Hq).
Qed.

End Cleanup.

(** ** What a label update leaves alone *)

Section Frame.

Lemma removeAllBelow_plug (ctx : parentContext) (title : element) :
  removeAllBelow labelClass (plug ctx title)
  = withChildren (parentShell ctx)
      (removeAllAmong labelClass (before ctx) ++
       removeAllAmong labelClass [title] ++
       removeAllAmong labelClass (after ctx)).
Proof.
  unfold plug.
  rewrite removeAllBelow_step, children_withChildren, withChildren_twice.
  rewrite removeAllAmong_app.
  change (title :: after ctx) with ([title] ++ after ctx).
  rewrite removeAllAmong_app. reflexivity.
Qed.

Lemma removeAllAmong_appended (p : path) (child e : element) :
  hasClass labelClass child = true →
  removeAllAmong labelClass [appendChild p child e] = removeAllAmong labelClass [e].
Proof.
  intros Hchild. cbn [removeAllAmong].
  rewrite (removeAllBelow_appendChild labelClass p child e Hchild).
  unfold appendChild. rewrite hasClass_withChildren. reflexivity.
Qed.

Lemma labelEl_is_label (t : STANoteType) : hasClass labelClass (labelEl t) = true.
Proof. destruct t; reflexivity. Qed.

Lemma clearExisting_frame (s : site) :
  hasClass labelClass (titleEl s) = false →
  removeAllBelow labelClass (parentEl (now (clearExisting s)))
  = removeAllBelow labelClass (parentEl s).
Proof.
  intros Htitle. destruct (clearExisting_labels s Htitle) as (Hformer & _).
  unfold clearExisting in *.
  destruct (querySelector labelClass (parentEl s)) as [q|] eqn:Hq; [|reflexivity].
  unfold querySelector in Hq.
  apply firstAmong_at in Hq as (j & p & k & e' & -> & _ & Hsub & He' & _).
  rewrite removeExisting_parentEl; [|discriminate | exact Hformer].
  apply (removeAllBelow_removeBelow labelClass _ _ e' Hsub He').
Qed.

Lemma attach_frame (r : labelled) (label : element) :
  formerParent r = None → hasClass labelClass label = true →
  removeAllBelow labelClass (parentEl (now (attach r label)))
  = removeAllBelow labelClass (parentEl (now r)).
Proof.
  intros Hformer Hlabel. unfold attach. rewrite Hformer.
  destruct r as [[parent title] former]. cbn [now formerParent titleEl parentElement] in *.
  assert (Hin : ∀ p, removeAllBelow labelClass
                       (parentEl (Site parent (appendChild p label title)))
                     = removeAllBelow labelClass (parentEl (Site parent title))).
  { intros p. destruct parent as [ctx|]; unfold parentEl; cbn [parentElement titleEl].
    - rewrite !removeAllBelow_plug, (removeAllAmong_appended p label title Hlabel).
      reflexivity.
    - apply removeAllBelow_appendChild, Hlabel. }
  destruct (hasClass titleContentClass title); [apply Hin|].
  destruct (querySelector titleContentClass title) as [q|]; [apply Hin|].
  destruct parent as [ctx|]; cbn [now]; [|apply Hin].
  unfold parentEl. cbn [parentElement titleEl].
  rewrite !removeAllBelow_plug. cbn [parentShell before after].
  rewrite (removeAllAmong_app labelClass (after ctx) [label]).
  cbn [removeAllAmong]. rewrite Hlabel, app_nil_r. reflexivity.
Qed.

Lemma addLabelToElement_hosts (s : site) (noteType : option STANoteType) :
  hasClass labelClass (titleEl s) = false →
  removeAllBelow labelClass (parentEl (now (addLabelToElement s noteType)))
  = removeAllBelow labelClass (parentEl s).
Proof.
  intros Htitle. unfold addLabelToElement.
  destruct (clearExisting_labels s Htitle) as (Hformer & _).
  destruct noteType as [t|]; [|apply clearExisting_frame, Htitle].
  rewrite (attach_frame _ _ Hformer (labelEl_is_label t)).
  apply clearExisting_frame, Htitle.
Qed.

End Frame.

(** ** Keeping the labels in step *)

Section Listing.


















End Listing.

Section Reconciler.

Variable settings : STAPluginSettings.


Lemma updateFileLabel_map (fileLabels : labelMap) (path : string) (content : text)
    (view : lookups) (other : string) :
  (updateFileLabel settings fileLabels path content view).1 !! other
  = if decide (other = path) then identifyNoteType settings content
    else fileLabels !! other.
Proof.
  unfold updateFileLabel. cbn [fst].
  destruct (decide (other = path)) as [->|Hne];
    destruct (identifyNoteType settings content).
  - apply lookup_insert_eq.
  - apply lookup_delete_eq.
  - apply lookup_insert_ne. congruence.
  - apply lookup_delete_ne. congruence.
Qed.

End Reconciler.





(** X6 --- A call of [addLabelToElement] on a title that is not itself a
    label touches labels only: the parent element of the title, with every
    label taken out, is the same after the call as before it. *)
Theorem addLabelToElement_frame (s : site) (noteType : option STANoteType) :
  hasClass labelClass (titleEl s) = false →
  removeAllBelow labelClass (parentEl (now (addLabelToElement s noteType)))
  = removeAllBelow labelClass (parentEl s).
Proof. apply addLabelToElement_hosts. Qed.

Lemma addLabelToElement_frame_witness :
  removeAllBelow labelClass (parentEl (now (addLabelToElement exampleTitle (Some source))))
  = parentEl exampleTitle.
Proof. rewrite (addLabelToElement_frame exampleTitle (Some source) eq_refl). reflexivity. Defined.

(** X7 --- [cleanupFileLabeling] leaves no label in the document and no
    entry in the label map; the document is what it becomes when the first
    label is looked up and removed until none is found, and a document
    without labels is left as it is. *)
Theorem cleanupFileLabeling_removes_all (document : list element) (fileLabels : labelMap) :
  let cleaned := cleanupFileLabeling document fileLabels in
  countAmong labelClass cleaned.1 = 0
  ∧ (∀ path, cleaned.2 !! path = None)
  ∧ cleaned.1 = removeFirstRepeatedly (countAmong labelClass document) labelClass document
  ∧ (countAmong labelClass document = 0 → cleaned.1 = document)
  ∧ cleanupFileLabeling cleaned.1 cleaned.2 = cleaned.
Proof.
  cbn [cleanupFileLabeling fst snd]. split; [apply removeAllAmong_count|].
  split; [intros path; apply lookup_empty|].
  split; [symmetry; apply removeFirstRepeatedly_all; lia|].
  split; [apply removeAllAmong_none|].
  unfold cleanupFileLabeling. f_equal.
  apply removeAllAmong_none, removeAllAmong_count.
Qed.

(** X8 --- Cleaning up undoes a label update: when a title that is not a
    label has no label below its parent, the children of the parent after
    [addLabelToElement] and [cleanupFileLabeling] are those from before. *)
Theorem cleanupFileLabeling_undoes_label (s : site) (noteType : option STANoteType)
    (fileLabels : labelMap) :
  hasClass labelClass (titleEl s) = false →
  labelsAt s = 0 →
  (cleanupFileLabeling (children (parentEl (now (addLabelToElement s noteType))))
                       fileLabels).1
  = children (parentEl s).
Proof.
  intros Htitle Hnone. cbn [cleanupFileLabeling fst].
  pose proof (addLabelToElement_hosts s noteType Htitle) as H.
  apply (f_equal children) in H.
  rewrite !removeAllBelow_step, !children_withChildren in H. rewrite H.
  apply removeAllAmong_none, Hnone.
Qed.

Lemma cleanupFileLabeling_undoes_label_witness :
  (cleanupFileLabeling (children (parentEl (now (addLabelToElement exampleTitle (Some topic)))))
                       ∅).1
  = children (parentEl exampleTitle).
Proof. apply cleanupFileLabeling_undoes_label; reflexivity. Defined.

(** ** Listings *)

Section Listings.

Variable settings : STAPluginSettings.

Lemma getAllSTANotes_elem (files : list (string * text)) (type : option STANoteType)
    (file : string * text) :
  file ∈ getAllSTANotes settings files type ↔
  file ∈ files ∧ ∃ detected, identifyNoteType settings file.2 = Some detected
                             ∧ (∀ asked, type = Some asked → detected = asked).
Proof.
  induction files as [|f files IH]; cbn [getAllSTANotes].
  - split; [intros []%elem_of_nil | intros [[]%elem_of_nil _]].
  - assert (Hwanted :
      match identifyNoteType settings f.2 with
      | Some detected =>
          match type with None => true | Some asked => bool_decide (detected = asked) end
      | None => false
      end = true ↔
      ∃ detected, identifyNoteType settings f.2 = Some detected
                  ∧ (∀ asked, type = Some asked → detected = asked)).
    { destruct (identifyNoteType settings f.2) as [d|], type as [asked|].
      - rewrite bool_decide_eq_true. split.
        + intros ->. exists asked. split; [reflexivity | congruence].
        + intros (d' & [= <-] & H). apply H. reflexivity.
      - split; [intros _; exists d; split; [reflexivity | discriminate] | reflexivity].
      - split; [discriminate | intros (? & ? & _); discriminate].
      - split; [discriminate | intros (? & ? & _); discriminate]. }
    destruct (match identifyNoteType settings f.2 with Some _ => _ | None => _ end).
    + rewrite !elem_of_cons, IH. split.
      * intros [->|[Hin H]]; [split; [left; reflexivity | apply Hwanted; reflexivity]|].
        split; [right; exact Hin | exact H].
      * intros [[->|Hin] H]; [left; reflexivity | right; split; assumption].
    + rewrite elem_of_cons, IH. split.
      * intros [Hin H]. split; [right; exact Hin | exact H].
      * intros [[->|Hin] H]; [|split; assumption].
        apply Hwanted in H. discriminate.
Qed.

Lemma getAllSTANotes_sublist (files : list (string * text)) (type : STANoteType) :
  sublist (getAllSTANotes settings files (Some type)) (getAllSTANotes settings files None)
  ∧ sublist (getAllSTANotes settings files None) files.
Proof.
  induction files as [|f files [IH1 IH2]]; cbn [getAllSTANotes]; [split; constructor|].
  destruct (identifyNoteType settings f.2) as [d|].
  - case_bool_decide; split; try (constructor; assumption).
  - split; [assumption | constructor; assumption].
Qed.

Lemma getAllSTANotes_lengths (files : list (string * text)) :
  length (getAllSTANotes settings files None)
  = length (getAllSTANotes settings files (Some source))
    + length (getAllSTANotes settings files (Some topic))
    + length (getAllSTANotes settings files (Some argument)).
Proof.
  induction files as [|f files IH]; cbn [getAllSTANotes]; [reflexivity|].
  destruct (identifyNoteType settings f.2) as [[]|]; cbn [bool_decide length];
    repeat case_bool_decide; try congruence; cbn [length]; lia.
Qed.

End Listings.

(** X9 --- The listings of [getAllSTANotes] by type split the listing
    without a type: a file is listed for a type exactly when it is a
    markdown file of the vault whose detected type is that type, so for no
    two types; each listing keeps the order of the vault's files; and the
    three listings are together as long as the listing without a type. *)
Theorem getAllSTANotes_partition (settings : STAPluginSettings)
    (files : list (string * text)) :
  (∀ type file, file ∈ getAllSTANotes settings files (Some type) ↔
                file ∈ files ∧ identifyNoteType settings file.2 = Some type)
  ∧ (∀ file, file ∈ getAllSTANotes settings files None ↔
             file ∈ files ∧ is_Some (identifyNoteType settings file.2))
  ∧ (∀ type, sublist (getAllSTANotes settings files (Some type))
                     (getAllSTANotes settings files None))
  ∧ sublist (getAllSTANotes settings files None) files
  ∧ length (getAllSTANotes settings files None)
    = length (getAllSTANotes settings files (Some source))
      + length (getAllSTANotes settings files (Some topic))
      + length (getAllSTANotes settings files (Some argument)).
Proof.
  split; [|split; [|split; [|split]]].
  - intros type file. rewrite getAllSTANotes_elem. split.
    + intros [Hin (d & Hd & Hask)]. rewrite (Hask type eq_refl) in Hd. auto.
    + intros [Hin Hd]. split; [exact Hin|]. exists type. split; [exact Hd | congruence].
  - intros file. rewrite getAllSTANotes_elem. split.
    + intros [Hin (d & Hd & _)]. rewrite Hd. eauto.
    + intros [Hin [d Hd]]. split; [exact Hin|]. exists d. split; [exact Hd | discriminate].
  - intros type. apply getAllSTANotes_sublist.
  - apply (getAllSTANotes_sublist settings files source).
  - apply getAllSTANotes_lengths.
Qed.

(** ** The tags shown with a note in the reference modal *)

(** X10 --- [getRelevantTags] shows at most three tags, all of them tags of
    the note and in the note's order; when the note has a type and some tag
    of the note is, up to case, a tag configured for that type, every tag
    shown is such a tag, and when none is, the note's first two tags are
    shown. *)
Theorem getRelevantTags_shown (settings : STAPluginSettings) (allTags : list text)
    (noteType : option STANoteType) :
  let shown := getRelevantTags settings allTags noteType in
  let relevant type tag :=
    ∃ typeTag, typeTag ∈ tagsOfType settings type
               ∧ toLowerCase typeTag = toLowerCase tag in
  length shown ≤ 3
  ∧ sublist shown allTags
  ∧ (∀ type, noteType = Some type →
       (∃ tag, tag ∈ allTags ∧ relevant type tag) →
       ∀ tag, tag ∈ shown → relevant type tag)
  ∧ (∀ type, noteType = Some type →
       (∀ tag, tag ∈ allTags → ¬ relevant type tag) →
       shown = take 2 allTags).
Proof.
  intros shown relevant. subst shown. unfold getRelevantTags.
  destruct noteType as [type|].
  2: { split; [apply firstn_le_length|]. split; [apply sublist_take|].
       split; intros ? [=]. }
  set (relevantTags := filter _ allTags).
  assert (Hfilter : ∀ tag, tag ∈ relevantTags ↔ tag ∈ allTags ∧ relevant type tag).
  { intros tag. subst relevantTags. rewrite list_elem_of_filter.
    enough (Hkeep : existsb (λ typeTag, bool_decide (toLowerCase typeTag = toLowerCase tag))
                      (tagsOfType settings type) ↔ relevant type tag) by tauto.
    rewrite Is_true_true, existsb_exists. unfold relevant. split.
    - intros (typeTag & Hin%list_elem_of_In & H%bool_decide_eq_true). eauto.
    - intros (typeTag & Hin & H). exists typeTag.
      rewrite <- list_elem_of_In, bool_decide_eq_true. auto. }
  assert (Hsub : sublist relevantTags allTags) by apply sublist_filter.
  clearbody relevantTags.
  destruct (Nat.eqb_spec (length relevantTags) 0) as [Hnone|Hsome].
  - apply length_zero_iff_nil in Hnone.
    split; [pose proof (firstn_le_length 2 allTags); lia|].
    split; [apply sublist_take|]. split.
    + intros ? [= <-] (tag & Htag). apply Hfilter in Htag. rewrite Hnone in Htag.
      apply elem_of_nil in Htag as [].
    + reflexivity.
  - split; [apply firstn_le_length|]. split.
    + etrans; [apply sublist_take | exact Hsub].
    + split.
      * intros ? [= <-] _ tag Htag.
        apply (λ H, elem_of_sublist _ relevantTags _ H (sublist_take relevantTags 3)) in Htag.
        apply Hfilter in Htag. tauto.
      * intros ? [= <-] Hnone. exfalso. apply Hsome, length_zero_iff_nil.
        destruct relevantTags as [|tag l]; [reflexivity|].
        destruct (proj1 (Hfilter tag) (list_elem_of_here _ _)) as [Hin Hrel].
        destruct (Hnone tag Hin Hrel).
Qed.

(** ** The DOI as it is sent to the servers *)

Ltac invert_denotes :=
  repeat match goal with
  | H : denotes _ (Seq _ _) _ _ |- _ => inversion H; subst; clear H
  | H : denotes _ (Alt _ _) _ _ |- _ => inversion H; subst; clear H
  | H : denotes _ (Group _) _ _ |- _ => inversion H; subst; clear H
  | H : denotes _ Empty _ _ |- _ => inversion H; subst; clear H
  | H : denotes _ Bos _ _ |- _ => inversion H; subst; clear H
  | H : denotes _ (Lit _) _ _ |- _ => inversion H; subst; clear H
  | H : lit_matches false _ _ = true |- _ =>
      apply bool_decide_eq_true in H; subst
  end.

Section CleanDOI.

Lemma cleanDOI_prefix (p d : text) : p ∈ resolverPrefixes → cleanDOI (p ++ d) = d.
Proof.
  unfold resolverPrefixes. cbn [map].
  rewrite !elem_of_cons, elem_of_nil.
  intros [->|[->|[->|[->|[->|[->|[]]]]]]]; vm_compute; reflexivity.
Qed.

Lemma resolver_denotes (w : text) (cs : list text) :
  denotes false Doi.resolver w cs → w ∈ resolverPrefixes.
Proof.
  unfold Doi.resolver, Opt. cbn [lit str list_ascii_of_string].
  intros H. invert_denotes; in_list.
Qed.

Lemma cleanDOI_cases (doi : text) :
  cleanDOI doi = doi ∨ ∃ p, p ∈ resolverPrefixes ∧ doi = p ++ cleanDOI doi.
Proof.
  unfold cleanDOI, replaceFirst, exec.
  assert (Hat : ∀ m, match_at false Doi.resolver 0 doi = Some m →
            ∃ p, p ∈ resolverPrefixes
                 ∧ doi = p ++ take (index m) doi ++
                         getSubstitution [] (take (index m) doi) m ++ Re.after m).
  { intros m (Hw & Hs & Hi & _)%match_at_sound. exists (whole m).
    split; [apply (resolver_denotes _ _ Hw)|]. rewrite Hi. exact Hs. }
  destruct doi as [|c doi]; cbn [exec_from];
    destruct (match_at false Doi.resolver 0 _) as [m|] eqn:E.
  - right. apply Hat. reflexivity.
  - left. reflexivity.
  - right. apply Hat. reflexivity.
  - left. unfold Doi.resolver. rewrite exec_from_bos by lia. reflexivity.
Qed.

End CleanDOI.

(** X11 --- [cleanDOI], the first step of [fetchDOIMetadata] and of
    [fetchBibTeXFromDOI], takes one address of the resolver off the front
    of a DOI, with or without [http://] or [https://] and with or without
    [dx.], and changes no other text. *)
Theorem cleanDOI_strips_resolver (doi : text) :
  (∀ p d, p ∈ resolverPrefixes → cleanDOI (p ++ d) = d)
  ∧ (cleanDOI doi = doi ∨ ∃ p, p ∈ resolverPrefixes ∧ doi = p ++ cleanDOI doi).
Proof. split; [apply cleanDOI_prefix | apply cleanDOI_cases]. Qed.

Lemma cleanDOI_strips_resolver_witness :
  cleanDOI (str "https://doi.org/10.1000/182") = str "10.1000/182".
Proof.
  apply (proj1 (cleanDOI_strips_resolver []) (str "https://doi.org/") (str "10.1000/182")).
  in_list.
Defined.

(** ** BibTeX for a DOI *)

Section BibTeX.

Lemma trimStart_keeps (s : text) (c : ascii) :
  c ∈ s → is_space c = false → c ∈ trimStart s.
Proof.
  intros Hin Hc. induction s as [|d s IH]; [exact Hin|]. cbn [trimStart].
  destruct (is_space d) eqn:Hd; [|exact Hin].
  apply elem_of_cons in Hin as [->|Hin]; [congruence | apply IH, Hin].
Qed.

Lemma trim_keeps (s : text) (c : ascii) : c ∈ s → is_space c = false → c ∈ trim s.
Proof.
  intros Hin Hc. unfold trim, trimEnd. rewrite elem_of_rev.
  apply trimStart_keeps; [|exact Hc]. rewrite elem_of_rev.
  apply trimStart_keeps; assumption.
Qed.

Lemma bibtexFrom_at (answer : response text) (bibtex : text) :
  bibtexFrom answer = Some bibtex → "@"%char ∈ bibtex ∧ bibtex ≠ [].
Proof.
  unfold bibtexFrom, looksLikeBibTeX. destruct answer as [|[] body]; try discriminate.
  destruct (Nat.ltb_spec 0 (length (trim body))) as [Hlen|]; [|discriminate].
  case_bool_decide as Hat; [|discriminate]. intros [= <-]. split.
  - apply trim_keeps; [exact Hat | reflexivity].
  - intros E. rewrite E in Hlen. cbn in Hlen. lia.
Qed.

Lemma generateBibTeX_at (thisYear : nat) (metadata : DOIMetadata) (doi : text) :
  "@"%char ∈ generateBibTeX thisYear metadata doi.
Proof. unfold generateBibTeX. apply elem_of_app. left. in_list. Qed.

End BibTeX.

(** X12 --- [fetchBibTeXFromDOI] asks DOI.org, then crosscite, then
    CrossRef: it fails exactly when neither of the first two gives, with
    [ok], a text that is not blank and holds an [@], and the third gives no
    metadata; and whatever it returns holds an [@]. *)
Theorem fetchBibTeXFromDOI_sources (thisYear : nat) (net : network) (doi : text) :
  let first := fetchText net (str "https://doi.org/" ++ cleanDOI doi) in
  let second :=
    fetchText net (str "https://citation.crosscite.org/format?doi=" ++ cleanDOI doi ++
                   str "&style=bibtex&lang=en-US") in
  let usable answer :=
    ∃ bibtex, answer = Response true bibtex ∧ trim bibtex ≠ [] ∧ "@"%char ∈ bibtex in
  (fetchBibTeXFromDOI thisYear net doi = None ↔
     ¬ usable first ∧ ¬ usable second
     ∧ ¬ ∃ metadata, fetchDOIMetadata net doi = Some (Some metadata))
  ∧ (∀ bibtex, fetchBibTeXFromDOI thisYear net doi = Some bibtex →
       "@"%char ∈ bibtex ∧ bibtex ≠ [])
  ∧ (∀ bibtex, first = Response true bibtex → trim bibtex ≠ [] → "@"%char ∈ bibtex →
       fetchBibTeXFromDOI thisYear net doi = Some (trim bibtex)).
Proof.
  intros first second usable.
  assert (Husable : ∀ answer, bibtexFrom answer = None ↔ ¬ usable answer).
  { intros answer. unfold bibtexFrom, looksLikeBibTeX, usable.
    destruct answer as [|[] body].
    - split; [intros _ (b & [=] & _) | reflexivity].
    - destruct (Nat.ltb_spec 0 (length (trim body))) as [Hlen|Hlen]; cbn [andb].
      + case_bool_decide as Hat.
        * split; [discriminate|]. intros []. exists body.
          split; [reflexivity|]. split; [|exact Hat].
          intros E. rewrite E in Hlen. cbn in Hlen. lia.
        * split; [|reflexivity]. intros _ (b & [= <-] & _ & H). contradiction.
      + split; [|reflexivity]. intros _ (b & [= <-] & H & _).
        destruct (trim body); [contradiction | cbn in Hlen; lia].
    - split; [intros _ (b & [=] & _) | reflexivity]. }
  unfold fetchBibTeXFromDOI. fold first second.
  split; [|split].
  - rewrite <- !Husable.
    destruct (bibtexFrom first); [split; [discriminate | intros [[=] _]]|].
    destruct (bibtexFrom second); [split; [discriminate | intros (_ & [=] & _)]|].
    destruct (fetchDOIMetadata net doi) as [[metadata|]|].
    + split; [discriminate|]. intros (_ & _ & []). eauto.
    + split; [|reflexivity]. intros _. repeat split. intros (? & [=]).
    + split; [|reflexivity]. intros _. repeat split. intros (? & [=]).
  - intros bibtex.
    destruct (bibtexFrom first) as [b|] eqn:E1.
    { intros [= <-]. apply (bibtexFrom_at _ _ E1). }
    destruct (bibtexFrom second) as [b|] eqn:E2.
    { intros [= <-]. apply (bibtexFrom_at _ _ E2). }
    destruct (fetchDOIMetadata net doi) as [[metadata|]|]; try discriminate.
    intros [= <-]. split; [apply generateBibTeX_at|].
    intros E. pose proof (generateBibTeX_at thisYear metadata (cleanDOI doi)) as H.
    rewrite E in H. apply elem_of_nil in H as [].
  - intros bibtex Hfirst Hblank Hat. rewrite Hfirst.
    unfold bibtexFrom, looksLikeBibTeX.
    rewrite bool_decide_eq_true_2 by exact Hat.
    destruct (Nat.ltb_spec 0 (length (trim bibtex))) as [_|Hlen]; [reflexivity|].
    destruct (trim bibtex); [contradiction | cbn in Hlen; lia].
Qed.

Lemma fetchBibTeXFromDOI_sources_witness :
  let net := Network (λ url, Response true (str " @misc{x} ")) (λ _, FetchFailed) in
  fetchBibTeXFromDOI 2025 net (str "10.1000/182") = Some (str "@misc{x}").
Proof.
  intros net.
  apply (proj2 (proj2 (fetchBibTeXFromDOI_sources 2025 net (str "10.1000/182")))
           (str " @misc{x} ")).
  - reflexivity.
  - discriminate.
  - in_list.
Defined.

(** X13 --- A DOI written as an address of the resolver is looked up as
    the bare DOI is: [fetchDOIMetadata] and [fetchBibTeXFromDOI] give for
    it what they give for the DOI that follows the address, when that is
    not itself such an address. *)
Theorem fetch_by_resolver_address (thisYear : nat) (net : network) (p doi : text) :
  p ∈ resolverPrefixes → cleanDOI doi = doi →
  fetchDOIMetadata net (p ++ doi) = fetchDOIMetadata net doi
  ∧ fetchBibTeXFromDOI thisYear net (p ++ doi) = fetchBibTeXFromDOI thisYear net doi.
Proof.
  intros Hp Hbare. unfold fetchBibTeXFromDOI, fetchDOIMetadata.
  rewrite (cleanDOI_prefix p doi Hp), Hbare. auto.
Qed.

Lemma fetch_by_resolver_address_witness :
  let net := Network (λ url, Response true url) (λ _, FetchFailed) in
  fetchBibTeXFromDOI 2025 net (str "https://dx.doi.org/10.1000/182")
  = fetchBibTeXFromDOI 2025 net (str "10.1000/182").
Proof.
  intros net.
  apply (fetch_by_resolver_address 2025 net (str "https://dx.doi.org/") (str "10.1000/182")).
  - in_list.
  - reflexivity.
Defined.

(** ** The shape of the tags found in a note *)

Section Shapes.

Lemma denotes_star_class (icase g : bool) (p : ascii → bool) (w : text) (cs : list text) :
  denotes icase (Star g (Class p)) w cs → Forall (λ c, p c = true) w ∧ cs = [].
Proof.
  intros H. remember (Star g (Class p)) as r eqn:Hr.
  induction H as [| | | | | | |g' r' w1 w2 cs1 cs2 H1 _ H2 IH| |]; try discriminate.
  - auto.
  - injection Hr as -> ->. destruct (IH eq_refl) as [Hw ->].
    inversion H1; subst. split; [constructor; assumption | reflexivity].
Qed.

Lemma denotes_plus_class (icase : bool) (p : ascii → bool) (w : text) (cs : list text) :
  denotes icase (Plus (Class p)) w cs → w ≠ [] ∧ Forall (λ c, p c = true) w ∧ cs = [].
Proof.
  unfold Plus. intros H. inversion H as [| | |? ? w1 w2 cs1 cs2 H1 H2| | | | | |]; subst.
  apply denotes_star_class in H2 as [Hw ->]. inversion H1; subst.
  split; [discriminate|]. split; [constructor; assumption | reflexivity].
Qed.

(** Every match that [matchAll] lists is a text of the pattern. *)
Lemma matches_from_denotes (icase : bool) (r : regex) (fuel : nat) :
  ∀ p s x, x ∈ matches_from fuel icase r p s → ∃ cs, denotes icase r x cs.
Proof.
  induction fuel as [|fuel IH]; intros p s x; cbn [matches_from];
    [intros []%elem_of_nil|].
  destruct (exec_from icase r p s) as [m|] eqn:E; [|intros []%elem_of_nil].
  apply exec_from_sound in E as (skipped & Hw & _).
  intros [->|Hin]%elem_of_cons; [eauto|].
  destruct (stop m =? index m); [|apply (IH _ _ _ Hin)].
  destruct (Re.after m); [apply elem_of_nil in Hin as [] | apply (IH _ _ _ Hin)].
Qed.

Lemma matchAll_denotes (icase : bool) (r : regex) (s : text) (ms : list text) :
  matchAll icase r s = Some ms → ∀ x, x ∈ ms → ∃ cs, denotes icase r x cs.
Proof.
  unfold matchAll. intros H x Hx.
  apply (matches_from_denotes icase r (S (length s)) 0 s).
  destruct (matches_from (S (length s)) icase r 0 s); [discriminate|].
  injection H as <-. exact Hx.
Qed.

Lemma lower_char_tag (c : ascii) :
  is_tag_char c = true → is_tag_char (lower_char c) = true.
Proof. destruct c as [[] [] [] [] [] [] [] []]; vm_compute; congruence. Qed.

Lemma lower_char_space (c : ascii) : is_space (lower_char c) = is_space c.
Proof. destruct c as [[] [] [] [] [] [] [] []]; reflexivity. Qed.

Lemma lower_char_comma (c : ascii) :
  bool_decide (lower_char c = ","%char) = bool_decide (c = ","%char).
Proof. destruct c as [[] [] [] [] [] [] [] []]; reflexivity. Qed.

Lemma tag_char_plain (c : ascii) :
  is_tag_char c = true →
  c ≠ "#"%char ∧ isQuote c = false ∧ is_space c = false ∧ c ≠ ","%char.
Proof.
  destruct c as [[] [] [] [] [] [] [] []]; vm_compute; intros H;
    repeat split; congruence.
Qed.

Lemma hashtagTags_shape (content tag : text) :
  tag ∈ hashtagTags content →
  tag ≠ [] ∧ Forall (λ c, is_tag_char c = true ∧ is_upper c = false) tag.
Proof.
  unfold hashtagTags.
  destruct (matchAll false Pattern.hashtag content) as [ms|] eqn:E;
    [|intros []%elem_of_nil].
  intros (m & -> & Hm)%elem_of_map.
  destruct (matchAll_denotes _ _ _ _ E m Hm) as [cs H].
  unfold Pattern.hashtag in H.
  inversion H as [| | |? ? w1 w2 cs1 cs2 H1 H2| | | | | |]; subst.
  inversion H1; subst. apply denotes_plus_class in H2 as (Hne & Hw & _).
  cbn [app drop]. split.
  - destruct w2; [contradiction | discriminate].
  - unfold toLowerCase. apply Forall_forall.
    intros c (c' & -> & Hc')%elem_of_map.
    split; [|apply lower_char_not_upper].
    apply lower_char_tag. exact (proj1 (Forall_forall _ _) Hw c' Hc').
Qed.

Lemma removeClass_free (p : ascii → bool) (s : text) :
  Forall (λ c, p c = false) (removeClass p s).
Proof.
  induction s as [|c s IH]; [constructor|]. cbn [removeClass].
  destruct (p c) eqn:Hc; [exact IH | constructor; assumption].
Qed.

Lemma lower_char_quoteOrHash (c : ascii) :
  bool_decide (lower_char c ∈ [squote; dquote; "#"%char])
  = bool_decide (c ∈ [squote; dquote; "#"%char]).
Proof. destruct c as [[] [] [] [] [] [] [] []]; reflexivity. Qed.

Lemma quoteOrHash_removed (x : text) :
  Forall (λ c, isQuote c = false ∧ c ≠ "#"%char ∧ is_upper c = false)
         (toLowerCase (replaceAll false Pattern.quoteOrHash [] x)).
Proof.
  unfold Pattern.quoteOrHash, one_of. rewrite replaceAll_class.
  unfold toLowerCase. apply Forall_forall. intros c (c' & -> & Hc')%elem_of_map.
  pose proof (proj1 (Forall_forall _ _) (removeClass_free _ x) c' Hc') as Hfree.
  cbn beta in Hfree. rewrite <- lower_char_quoteOrHash in Hfree.
  apply bool_decide_eq_false in Hfree.
  split; [|split; [|apply lower_char_not_upper]].
  - apply bool_decide_eq_false. intros Hq. apply Hfree.
    apply elem_of_cons in Hq as [->|Hq]; [left|].
    apply elem_of_cons in Hq as [->|[]%elem_of_nil]. right. left.
  - intros E. apply Hfree. rewrite E. in_list.
Qed.

Lemma frontmatterTags_shape (content tag : text) :
  tag ∈ frontmatterTags content →
  Forall (λ c, isQuote c = false ∧ c ≠ "#"%char ∧ is_upper c = false) tag.
Proof.
  unfold frontmatterTags.
  destruct (exec false Pattern.frontmatter content) as [fm|]; [|intros []%elem_of_nil].
  destruct (exec false Pattern.tagsArray _) as [arr|].
  { intros (x & -> & _)%elem_of_map. apply quoteOrHash_removed. }
  destruct (exec false Pattern.tagsList _) as [lst|]; [|intros []%elem_of_nil].
  destruct (matchAll false Pattern.listItem _) as [items|]; [|intros []%elem_of_nil].
  intros (x & -> & _)%elem_of_map. apply quoteOrHash_removed.
Qed.

(** The text under a [## Tags] heading, as the pattern captures it, holds
    no [#] and no line feed. *)
Lemma tagsSection_group (w : text) (cs : list text) :
  denotes true Pattern.tagsSection w cs →
  ∃ g, cs = [g] ∧ Forall (λ c, c ≠ nl ∧ c ≠ "#"%char) g.
Proof.
  unfold Pattern.tagsSection, ws, none_of. cbn [lit str list_ascii_of_string].
  intros H. invert_denotes.
  repeat match goal with
         | H : denotes _ (Star _ (Class _)) _ _ |- _ =>
             apply denotes_star_class in H as [H ->]
         end.
  eexists. split; [reflexivity|].
  match goal with H : Forall _ ?g |- Forall _ ?g =>
    eapply Forall_impl; [exact H|] end.
  intros c Hc. apply negb_true_iff, bool_decide_eq_false in Hc.
  split; intros ->; apply Hc; in_list.
Qed.

Lemma star_loop_total {R : Type} (g : bool) (iter : state → (state → option R) → option R)
    (k : state → option R) :
  (∀ s, k s ≠ None) → ∀ fuel s, star_loop fuel g iter k s ≠ None.
Proof.
  intros Hk. destruct fuel as [|fuel]; intros s; cbn [star_loop]; [apply Hk|].
  unfold star_pass. destruct g.
  - destruct (iter s _); [discriminate | apply Hk].
  - destruct (k s) eqn:E; [discriminate | destruct (Hk s E)].
Qed.

Lemma separators_match (q : nat) (c : ascii) (sq : text) :
  is_separator c = true → match_at false Pattern.separators q (c :: sq) ≠ None.
Proof.
  intros Hc. unfold match_at, Pattern.separators, Plus. cbn [run]. unfold step1.
  cbn [rest pos caps]. fold (is_separator c). rewrite Hc.
  apply star_loop_total. discriminate.
Qed.

(** The pieces between separators hold no separator, and nothing but code
    units of the text that is split. *)
Lemma split_loop_pieces (Q : ascii → Prop) (fuel : nat) :
  ∀ p q piece sq,
    length sq < fuel → p ≤ q →
    Forall (λ c, Q c ∧ is_separator c = false) piece → Forall Q sq →
    ∀ x, x ∈ split_loop fuel false Pattern.separators p q piece sq →
         Forall (λ c, Q c ∧ is_separator c = false) x.
Proof.
  induction fuel as [|fuel IH]; intros p q piece sq Hlen Hpq Hpiece Hsq x; [lia|].
  cbn [split_loop]. destruct sq as [|c sq].
  { intros ->%list_elem_of_singleton. exact Hpiece. }
  apply Forall_cons in Hsq as [Hc Hsq]. cbn [length] in Hlen.
  destruct (match_at false Pattern.separators q (c :: sq)) as [m|] eqn:E.
  - apply match_at_sound in E as (Hw & Hs & _ & Hstop).
    apply denotes_plus_class in Hw as (Hne & _).
    assert (Hwhole : 1 ≤ length (whole m)) by (destruct (whole m); [contradiction | cbn; lia]).
    replace (stop m =? p) with false by (symmetry; apply Nat.eqb_neq; lia).
    intros [->|Hx]%elem_of_cons; [exact Hpiece|].
    apply (IH _ _ _ _) in Hx; [exact Hx | | lia | constructor |].
    + apply (f_equal length) in Hs. rewrite length_app in Hs. cbn [length] in Hs. lia.
    + assert (Hall : Forall Q (whole m ++ Re.after m))
        by (rewrite <- Hs; constructor; assumption).
      apply Forall_app in Hall as [_ Hafter]. exact Hafter.
  - destruct (is_separator c) eqn:Hsep.
    { destruct (separators_match q c sq Hsep E). }
    apply IH; [lia | lia | | exact Hsq].
    apply Forall_app. split; [exact Hpiece | repeat constructor; assumption].
Qed.

Lemma split_pieces (Q : ascii → Prop) (s x : text) :
  Forall Q s → x ∈ split false Pattern.separators s →
  Forall (λ c, Q c ∧ is_separator c = false) x.
Proof.
  intros Hs. unfold split. destruct s as [|c s].
  - destruct (match_at false Pattern.separators 0 []);
      [intros []%elem_of_nil | intros ->%list_elem_of_singleton; constructor].
  - apply split_loop_pieces; [cbn; lia | lia | constructor | exact Hs].
Qed.

Lemma dropLeadingHash_elem (s : text) (c : ascii) : c ∈ dropLeadingHash s → c ∈ s.
Proof.
  destruct s as [|d s]; [auto|]. cbn [dropLeadingHash].
  destruct (bool_decide (d = "#"%char)); [intros H; right; exact H | auto].
Qed.

Lemma sectionTags_shape (content tag : text) :
  tag ∈ sectionTags content →
  tag ≠ []
  ∧ Forall (λ c, c ≠ "#"%char ∧ c ≠ ","%char ∧ is_space c = false ∧ is_upper c = false)
           tag.
Proof.
  unfold sectionTags, exec.
  destruct (exec_from true Pattern.tagsSection 0 content) as [m|] eqn:E;
    [|intros []%elem_of_nil].
  apply exec_from_sound in E as (_ & Hw & _).
  apply tagsSection_group in Hw as (g & Hg & Hfree).
  unfold group1. rewrite Hg. cbn [head default].
  intros [Hlen Hin]%list_elem_of_filter.
  apply elem_of_map in Hin as (x & -> & Hx).
  split; [intros E; rewrite E in Hlen; cbn in Hlen; lia|].
  pose proof (split_pieces _ g x Hfree Hx) as Hpiece.
  rewrite replaceFirst_leadingHash. unfold toLowerCase.
  apply Forall_forall. intros c (c' & -> & Hc')%elem_of_map.
  apply trim_elem, dropLeadingHash_elem in Hc'.
  destruct (proj1 (Forall_forall _ _) Hpiece c' Hc') as [[_ Hhash] Hsep].
  unfold is_separator in Hsep. apply orb_false_iff in Hsep as [Hcomma Hspace].
  split; [|split; [|split]].
  - intros E. apply Hhash.
    apply (bool_decide_eq_true_1 (c' = "#"%char)).
    rewrite <- lower_char_hash. apply bool_decide_eq_true_2, E.
  - apply (bool_decide_eq_false_1 (lower_char c' = ","%char)).
    rewrite lower_char_comma. exact Hcomma.
  - rewrite lower_char_space. exact Hspace.
  - apply lower_char_not_upper.
Qed.

End Shapes.

(** X14 --- A tag taken from an inline hashtag is never empty and is made
    of lower-case letters, digits, underscores and hyphens only. *)
Theorem hashtag_tags_are_words (content tag : text) :
  tag ∈ hashtagTags content →
  tag ≠ [] ∧ Forall (λ c, is_tag_char c = true ∧ is_upper c = false) tag.
Proof. apply hashtagTags_shape. Qed.

Lemma hashtag_tags_are_words_witness :
  str "to-do" ≠ []
  ∧ Forall (λ c, is_tag_char c = true ∧ is_upper c = false) (str "to-do").
Proof. apply (hashtag_tags_are_words (str "see #To-Do, later")). in_list. Defined.

(** X15 --- A tag taken from the [tags] of the front matter, in either
    form, holds no quote, no [#] and no upper-case letter. *)
Theorem frontmatter_tags_are_bare (content tag : text) :
  tag ∈ frontmatterTags content →
  Forall (λ c, isQuote c = false ∧ c ≠ "#"%char ∧ is_upper c = false) tag.
Proof. apply frontmatterTags_shape. Qed.

Lemma frontmatter_tags_are_bare_witness :
  Forall (λ c, isQuote c = false ∧ c ≠ "#"%char ∧ is_upper c = false) (str "topic").
Proof.
  apply (frontmatter_tags_are_bare
           (str "---" ++ [nl] ++ str "tags:" ++ [nl] ++ str "  - " ++
            quoted (str "#Topic") ++ [nl] ++ str "---")).
  in_list.
Defined.

(** X16 --- A tag taken from the text under a [## Tags] heading is never
    empty and holds no [#], no comma, no white space and no upper-case
    letter: the removal of a leading [#] in that branch finds none. *)
Theorem section_tags_are_pieces (content tag : text) :
  tag ∈ sectionTags content →
  tag ≠ []
  ∧ Forall (λ c, c ≠ "#"%char ∧ c ≠ ","%char ∧ is_space c = false ∧ is_upper c = false)
           tag.
Proof. apply sectionTags_shape. Qed.

Lemma section_tags_are_pieces_witness :
  str "beta" ≠ []
  ∧ Forall (λ c, c ≠ "#"%char ∧ c ≠ ","%char ∧ is_space c = false ∧ is_upper c = false)
           (str "beta").
Proof.
  apply (section_tags_are_pieces (str "## Tags" ++ [nl] ++ str "alpha, Beta")).
  in_list.
Defined.

Section NormalisedTags.

Lemma toLowerCase_fixed (s : text) :
  Forall (λ c, is_upper c = false) s → toLowerCase s = s.
Proof.
  unfold toLowerCase. induction 1 as [|c s Hc _ IH]; [reflexivity|].
  cbn [map]. rewrite (lower_char_fixed c Hc), IH. reflexivity.
Qed.

Lemma removeClass_fixed (p : ascii → bool) (s : text) :
  Forall (λ c, p c = false) s → removeClass p s = s.
Proof.
  induction 1 as [|c s Hc _ IH]; [reflexivity|].
  cbn [removeClass]. rewrite Hc, IH. reflexivity.
Qed.

(** Every tag found holds no [#] and no upper-case letter. *)
Lemma extracted_tag_chars (content tag : text) :
  tag ∈ extractTagsFromContent content →
  Forall (λ c, c ≠ "#"%char ∧ is_upper c = false) tag
  ∧ (tag ∈ hashtagTags content ∨ tag ∈ frontmatterTags content →
     Forall (λ c, isQuote c = false) tag).
Proof.
  unfold extractTagsFromContent. rewrite unique_elem, !elem_of_app.
  intros Hwhere. split.
  - destruct Hwhere as [H%hashtagTags_shape|[H%frontmatterTags_shape|H%sectionTags_shape]].
    + eapply Forall_impl; [exact (proj2 H)|].
      intros c [Hc Hu]. split; [apply (tag_char_plain c Hc) | exact Hu].
    + eapply Forall_impl; [exact H|]. cbn beta. tauto.
    + eapply Forall_impl; [exact (proj2 H)|]. cbn beta. tauto.
  - intros [H%hashtagTags_shape|H%frontmatterTags_shape].
    + eapply Forall_impl; [exact (proj2 H)|].
      intros c [Hc _]. apply (tag_char_plain c Hc).
    + eapply Forall_impl; [exact H|]. cbn beta. tauto.
Qed.

Lemma normalizeConfigTag_extracted (content tag : text) :
  tag ∈ extractTagsFromContent content →
  normalizeConfigTag tag = removeClass isQuote tag
  ∧ (tag ∈ hashtagTags content ∨ tag ∈ frontmatterTags content →
     normalizeConfigTag tag = tag).
Proof.
  intros [Hchars Hquotes]%extracted_tag_chars.
  assert (Hnorm : normalizeConfigTag tag = removeClass isQuote tag).
  { rewrite normalizeConfigTag_closed, toLowerCase_removeClass, toLowerCase_dropLeadingHash.
    rewrite toLowerCase_fixed by (eapply Forall_impl; [exact Hchars | cbn beta; tauto]).
    rewrite dropLeadingHash_plain; [reflexivity|].
    destruct Hchars as [|c s [Hc _] _]; [discriminate | cbn; congruence]. }
  split; [exact Hnorm|]. intros Hwhere. rewrite Hnorm.
  apply removeClass_fixed, Hquotes, Hwhere.
Qed.

End NormalisedTags.

(** X17 --- No tag that [extractTagsFromContent] returns holds a [#] or an
    upper-case letter, so of the normalisation [identifyTypeByTags] applies
    to the tags of a note only the removal of quotes can change such a tag,
    and a tag from an inline hashtag or from the front matter is left as it
    is. *)
Theorem extracted_tags_normalised (content tag : text) :
  tag ∈ extractTagsFromContent content →
  ("#"%char ∉ tag)
  ∧ toLowerCase tag = tag
  ∧ normalizeConfigTag tag = removeClass isQuote tag
  ∧ (tag ∈ hashtagTags content ∨ tag ∈ frontmatterTags content →
     normalizeConfigTag tag = tag).
Proof.
  intros Htag. destruct (extracted_tag_chars content tag Htag) as [Hchars _].
  destruct (normalizeConfigTag_extracted content tag Htag) as [Hnorm Hsame].
  split; [|split; [|split; assumption]].
  - intros Hin. destruct (proj1 (Forall_forall _ _) Hchars _ Hin) as [H _].
    apply H. reflexivity.
  - apply toLowerCase_fixed. eapply Forall_impl; [exact Hchars | cbn beta; tauto].
Qed.

Lemma extracted_tags_normalised_witness :
  let content := str "## Tags" ++ [nl] ++ str "'Idea'" in
  str "'idea'" ∈ extractTagsFromContent content
  ∧ normalizeConfigTag (str "'idea'") = removeClass isQuote (str "'idea'").
Proof.
  intros content.
  assert (Htag : str "'idea'" ∈ extractTagsFromContent content) by in_list.
  split; [exact Htag|].
  apply (extracted_tags_normalised content (str "'idea'") Htag).
Defined.

(** ** Every inline hashtag is found *)

Section EveryHashtag.

Lemma star_loop_class_greedy {R : Type} (p : ascii → bool) (k : state → option R) :
  ∀ fuel s, length (rest s) ≤ fuel →
    k (State (pos s + spanLength p (rest s))
             (drop (spanLength p (rest s)) (rest s)) (caps s)) ≠ None →
    star_loop fuel true (run false (Class p)) k s
    = k (State (pos s + spanLength p (rest s))
               (drop (spanLength p (rest s)) (rest s)) (caps s)).
Proof.
  induction fuel as [|fuel IH]; intros [ps r cs] Hlen; cbn [rest pos caps] in *.
  - destruct r; [|cbn in Hlen; lia]. cbn. rewrite Nat.add_0_r. reflexivity.
  - cbn [star_loop]. unfold star_pass. cbn [run]. unfold step1. cbn [rest pos caps].
    destruct r as [|d tl].
    + cbn. rewrite Nat.add_0_r. reflexivity.
    + cbn [spanLength]. destruct (p d) eqn:Hd.
      * replace (ps <? S ps) with true by (symmetry; apply Nat.ltb_lt; lia).
        cbn [drop]. replace (ps + S (spanLength p tl)) with (S ps + spanLength p tl) by lia.
        intros Hk. rewrite IH by (cbn in *; first [lia | exact Hk]).
        cbn [rest pos caps].
        destruct (k (State (S ps + spanLength p tl) _ cs)); [reflexivity | contradiction].
      * cbn. rewrite Nat.add_0_r. reflexivity.
Qed.

Lemma run_star_class_greedy {R : Type} (p : ascii → bool) (k : state → option R)
    (s : state) :
  k (State (pos s + spanLength p (rest s))
           (drop (spanLength p (rest s)) (rest s)) (caps s)) ≠ None →
  run false (Star true (Class p)) s k
  = k (State (pos s + spanLength p (rest s))
             (drop (spanLength p (rest s)) (rest s)) (caps s)).
Proof.
  change (run false (Star true (Class p)) s k)
    with (star_loop (length (rest s)) true (run false (Class p)) k s).
  apply star_loop_class_greedy. lia.
Qed.

Lemma spanLength_word (p : ascii → bool) (word after : text) :
  Forall (λ c, p c = true) word →
  (∀ c rest, after = c :: rest → p c = false) →
  spanLength p (word ++ after) = length word.
Proof.
  intros Hword Hafter. induction Hword as [|c word Hc _ IH]; cbn [app spanLength length].
  - destruct after as [|c rest]; [reflexivity|]. cbn [spanLength].
    rewrite (Hafter c rest eq_refl). reflexivity.
  - rewrite Hc, IH. reflexivity.
Qed.

Variables word after : text.
Hypothesis word_not_empty : word ≠ [].
Hypothesis word_chars : Forall (λ c, is_tag_char c = true) word.
Hypothesis word_ends :  ∀ c rest, after = c :: rest → is_tag_char c = false.

Lemma match_at_hashtag (p : nat) :
  match_at false Pattern.hashtag p ("#"%char :: word ++ after)
  = Some (Found p ("#"%char :: word) [] (S p + length word) after).
Proof.
  destruct word as [|d word'] eqn:Hword; [contradiction|].
  apply Forall_cons in word_chars as [Hd Hword'].
  unfold match_at, Pattern.hashtag, Plus.
  rewrite run_seq. change (run false (Lit ?c) ?s ?k) with (step1 (lit_matches false c) s k).
  unfold step1 at 1. cbn [rest pos caps app lit_matches].
  rewrite bool_decide_eq_true_2 by reflexivity.
  rewrite run_seq. change (run false (Class ?q) ?s ?k) with (step1 q s k).
  unfold step1 at 1. cbn [rest pos caps]. rewrite Hd.
  rewrite run_star_class_greedy; cbn [rest pos caps]; [|discriminate].
  rewrite (spanLength_word is_tag_char word' after Hword' word_ends).
  rewrite drop_app_length. cbn [length].
  replace (S (S p) + length word' - p) with (S (S (length word'))) by lia.
  cbn [take]. rewrite take_app_length.
  replace (S (S p) + length word') with (S p + S (length word')) by lia.
  reflexivity.
Qed.

Lemma tag_chars_before_hash (w b X Y : text) :
  Forall (λ c, is_tag_char c = true) w →
  b ++ "#"%char :: X = w ++ Y →
  ∃ b', b = w ++ b' ∧ Y = b' ++ "#"%char :: X.
Proof.
  intros Hw. revert b. induction Hw as [|d w Hd _ IH]; intros b Heq.
  - exists b. auto.
  - destruct b as [|c b]; cbn [app] in Heq; injection Heq as Hc Heq.
    + rewrite <- Hc in Hd. vm_compute in Hd. discriminate Hd.
    + destruct (IH b Heq) as (b' & -> & ->). exists b'. rewrite Hc. auto.
Qed.

Lemma exec_from_hashtag (before : text) :
  ∀ p, ∃ m,
    exec_from false Pattern.hashtag p (before ++ "#"%char :: word ++ after) = Some m
    ∧ (whole m = "#"%char :: word
       ∨ ∃ before', Re.after m = before' ++ "#"%char :: word ++ after
                    ∧ length before' < length before
                    ∧ stop m ≠ index m).
Proof.
  induction before as [|c b IH]; intros p; cbn [app exec_from].
  - rewrite match_at_hashtag. eexists. split; [reflexivity|]. left. reflexivity.
  - destruct (match_at false Pattern.hashtag p _) as [m|] eqn:E.
    + exists m. split; [reflexivity|]. right.
      apply match_at_sound in E as (Hw & Hs & Hi & Hstop).
      destruct m as [mi mw mg ms ma]. cbn [whole groups index stop Re.after] in *.
      unfold Pattern.hashtag in Hw.
      inversion Hw as [| | |? ? w1 w2 cs1 cs2 H1 H2| | | | | |]; subst.
      inversion H1; subst. apply denotes_plus_class in H2 as (Hne & Htag & _).
      cbn [app] in Hs. injection Hs as _ Hs.
      destruct (tag_chars_before_hash w2 b _ _ Htag Hs) as (b' & -> & Hafter).
      exists b'. split; [exact Hafter|]. cbn [app length]. rewrite !length_app.
      split; lia.
    + destruct (IH (S p)) as (m & Hm & [Hwhole|(b' & Hafter & Hlen & Hstop)]);
        exists m; (split; [exact Hm|]); [left; exact Hwhole|].
      right. exists b'. cbn [length]. repeat split; [exact Hafter | lia | exact Hstop].
Qed.

Lemma matches_from_hashtag (fuel : nat) :
  ∀ before p, length before < fuel →
    ("#"%char :: word) ∈
      matches_from fuel false Pattern.hashtag p (before ++ "#"%char :: word ++ after).
Proof.
  induction fuel as [|fuel IH]; intros before p Hlen; [lia|]. cbn [matches_from].
  destruct (exec_from_hashtag before p) as (m & -> & [<-|(b' & -> & Hb' & Hstop)]);
    [left|].
  right. replace (stop m =? index m) with false by (symmetry; apply Nat.eqb_neq, Hstop).
  apply IH. lia.
Qed.

Lemma hashtag_found :
  ∀ before, toLowerCase word ∈ hashtagTags (before ++ "#"%char :: word ++ after).
Proof.
  intros before. unfold hashtagTags, matchAll.
  pose proof (matches_from_hashtag
                (S (length (before ++ "#"%char :: word ++ after))) before 0) as H.
  destruct (matches_from _ false Pattern.hashtag 0 _) as [|m ms].
  - exfalso. refine (proj1 (elem_of_nil _) (H _)). rewrite length_app. lia.
  - apply elem_of_map. exists ("#"%char :: word). split; [reflexivity|].
    apply H. rewrite length_app. lia.
Qed.

End EveryHashtag.

(** X18 --- Every inline hashtag of a note is found: where the content
    has a [#] followed by letters, digits, underscores and hyphens, as
    many as there are, [extractTagsFromContent] returns these, lower-cased,
    as a tag, whatever stands before and after. *)
Theorem every_hashtag_extracted (before word after : text) :
  word ≠ [] →
  Forall (λ c, is_tag_char c = true) word →
  (∀ c rest, after = c :: rest → is_tag_char c = false) →
  toLowerCase word ∈ extractTagsFromContent (before ++ "#"%char :: word ++ after).
Proof.
  intros Hne Hword Hafter. unfold extractTagsFromContent.
  rewrite unique_elem, !elem_of_app. left.
  apply hashtag_found; assumption.
Qed.

Lemma every_hashtag_extracted_witness :
  str "to-do" ∈ extractTagsFromContent (str "see #To-Do, later").
Proof.
  apply (every_hashtag_extracted (str "see ") (str "To-Do") (str ", later")).
  - discriminate.
  - repeat constructor.
  - intros c rest [= <- _]. reflexivity.
Defined.

(** ** From a tag in the note to the type of the note *)

Section TagToType.

Lemma normalizeConfigTag_lower (tag : text) :
  normalizeConfigTag (toLowerCase tag) = normalizeConfigTag tag.
Proof.
  rewrite !normalizeConfigTag_closed, !toLowerCase_removeClass,
    !toLowerCase_dropLeadingHash, toLowerCase_idemp. reflexivity.
Qed.

Lemma matchingTags_shares (configured noteTags : list text) :
  matchingTags configured noteTags ≠ [] → sharesTag configured noteTags.
Proof.
  unfold matchingTags. intros Hne.
  destruct (filter _ configured) as [|tag l] eqn:E; [contradiction|].
  assert (Htag : tag ∈ filter (λ tag, includes noteTags (toLowerCase tag)) configured)
    by (rewrite E; left).
  apply list_elem_of_filter in Htag as [Hincl Hin].
  unfold includes in Hincl. apply bool_decide_unpack in Hincl.
  exists tag, (toLowerCase tag). rewrite normalizeConfigTag_lower. auto.
Qed.

Lemma shared_tag_identifies (settings : STAPluginSettings) (noteTags : list text)
    (type : STANoteType) :
  sharesTag (tagsOfType settings type) noteTags →
  identifyTypeByTags settings noteTags ≠ None
  ∧ (type = argument → identifyTypeByTags settings noteTags = Some argument).
Proof.
  intros Hshare.
  destruct (identifyTypeByTags_cases settings noteTags) as (HA & _ & _ & HN).
  split.
  - intros (Ha & Hs & Ht)%HN. destruct type; cbn [tagsOfType] in Hshare; contradiction.
  - intros ->. apply HA, Hshare.
Qed.

End TagToType.

(** X19 --- A note with an inline hashtag that is, after normalisation, a
    tag configured for a note type has a type when tag-based
    identification is on, whatever else it holds; when the tag is
    configured for arguments, the note is an argument. *)
Theorem hashtag_identifies_note (settings : STAPluginSettings)
    (before word after configured : text) (type : STANoteType) :
  useTagBasedIdentification settings = true →
  word ≠ [] →
  Forall (λ c, is_tag_char c = true) word →
  (∀ c rest, after = c :: rest → is_tag_char c = false) →
  configured ∈ tagsOfType settings type →
  normalizeConfigTag configured = toLowerCase word →
  let content := before ++ "#"%char :: word ++ after in
  identifyNoteType settings content ≠ None
  ∧ (type = argument → identifyNoteType settings content = Some argument).
Proof.
  intros Hon Hne Hword Hafter Hconf Hnorm content.
  assert (Htag : toLowerCase word ∈ hashtagTags content)
    by (apply hashtag_found; assumption).
  assert (Hextracted : toLowerCase word ∈ extractTagsFromContent content).
  { unfold extractTagsFromContent. rewrite unique_elem, !elem_of_app. auto. }
  assert (Hshare : sharesTag (tagsOfType settings type) (extractTagsFromContent content)).
  { exists configured, (toLowerCase word). split; [exact Hconf|]. split; [exact Hextracted|].
    rewrite Hnorm. symmetry.
    apply (proj2 (normalizeConfigTag_extracted content _ Hextracted)). auto. }
  destruct (shared_tag_identifies settings _ type Hshare) as [Hsome Harg].
  unfold identifyNoteType. rewrite Hon.
  destruct (identifyTypeByTags settings (extractTagsFromContent content)) as [t|];
    [|contradiction].
  split; [discriminate | exact Harg].
Qed.

Lemma hashtag_identifies_note_witness :
  identifyNoteType DEFAULT_SETTINGS (str "A #Claim about #sources.") = Some argument.
Proof.
  apply (hashtag_identifies_note DEFAULT_SETTINGS (str "A ") (str "Claim")
           (str " about #sources.") (str "claim") argument).
  - reflexivity.
  - discriminate.
  - repeat constructor.
  - intros c rest [= <- _]. reflexivity.
  - in_list.
  - reflexivity.
  - reflexivity.
Defined.

(** X20 --- The tag matches [testTagIdentification] reports agree with the
    type it reports: when it lists a configured tag as matching for some
    note type, [identifyNoteType] gives the note a type, and when it lists
    one for arguments, that type is argument. *)
Theorem reported_match_is_identified (settings : STAPluginSettings)
    (content : text) (type : STANoteType) :
  let extractedTags := extractTagsFromContent content in
  reportsMatches settings extractedTags = true →
  matchingTags (tagsOfType settings type) extractedTags ≠ [] →
  identifyNoteType settings content ≠ None
  ∧ (type = argument → identifyNoteType settings content = Some argument).
Proof.
  intros extractedTags [Hon _]%andb_true_iff Hlisted.
  destruct (shared_tag_identifies settings extractedTags type
              (matchingTags_shares _ _ Hlisted)) as [Hsome Harg].
  unfold identifyNoteType. rewrite Hon. fold extractedTags.
  destruct (identifyTypeByTags settings extractedTags) as [t|]; [|contradiction].
  split; [discriminate | exact Harg].
Qed.

Lemma reported_match_is_identified_witness :
  identifyNoteType DEFAULT_SETTINGS (str "An #idea and a #claim") = Some argument.
Proof.
  apply (reported_match_is_identified DEFAULT_SETTINGS (str "An #idea and a #claim")
           argument).
  - reflexivity.
  - vm_compute. discriminate.
  - reflexivity.
Defined.

(** The converse fails: a configured tag written with a [#] identifies the
    note, and the report lists no match. *)
Lemma unreported_match :
  let settings := withSourceTags DEFAULT_SETTINGS [str "#paper"] in
  let extractedTags := extractTagsFromContent (str "A #paper on labels") in
  identifyTypeByTags settings extractedTags = Some source
  ∧ matchingTags (sourceTags settings) extractedTags = []
  ∧ matchingTags (topicTags settings) extractedTags = []
  ∧ matchingTags (argumentTags settings) extractedTags = [].
Proof. vm_compute. auto. Qed.

(** ** The summary taken from an abstract *)

Section Summary.

Lemma tagFree_app (a b : text) :
  tagFree (a ++ b) ↔ tagFree a ∧ tagFree b ∧ ("<"%char ∈ a → ">"%char ∉ b).
Proof.
  induction a as [|c a IH]; cbn [app tagFree].
  - rewrite elem_of_nil. tauto.
  - rewrite IH, elem_of_cons, not_elem_of_app. split.
    + intros (Hc & Ha & Hb & Hab).
      split; [split; [intros E; apply (Hc E) | exact Ha]|]. split; [exact Hb|].
      intros [E|Hin]; [apply Hc; congruence | apply Hab, Hin].
    + intros ((Hc & Ha) & Hb & Hab).
      split; [intros E; split; [apply Hc, E | apply Hab; left; congruence]|].
      split; [exact Ha|]. split; [exact Hb|].
      intros Hin. apply Hab. right. exact Hin.
Qed.

Lemma tagFree_spec (s : text) :
  tagFree s ↔ ∀ front back, s = front ++ "<"%char :: back → ">"%char ∉ back.
Proof.
  split.
  - intros H front back ->. apply tagFree_app in H as (_ & H & _).
    apply (proj1 H). reflexivity.
  - induction s as [|c s IH]; intros H; [exact I|]. split.
    + intros ->. apply (H [] s). reflexivity.
    + apply IH. intros front back ->. apply (H (c :: front) back). reflexivity.
Qed.

Lemma tagFree_plain (s : text) : "<"%char ∉ s → tagFree s.
Proof.
  induction s as [|c s IH]; [intros _; exact I|].
  intros [Hc Hs]%not_elem_of_cons. split; [congruence | apply IH, Hs].
Qed.

Lemma htmlTag_blocked {R : Type} (k : state → option R) :
  blockedBy notGt (λ s, run false (Lit ">") s k).
Proof.
  intros s d tl Hrest Hd. cbn [run]. unfold step1, lit_matches. rewrite Hrest.
  case_bool_decide as E; [|reflexivity].
  subst d. vm_compute in Hd. discriminate.
Qed.

Lemma drop_span_gt (tl : text) :
  ">"%char ∈ tl → ∃ tl', drop (spanLength notGt tl) tl = ">"%char :: tl'.
Proof.
  induction tl as [|c tl IH]; [intros []%elem_of_nil|].
  cbn [spanLength]. destruct (notGt c) eqn:Hc.
  - intros [E|Hin]%elem_of_cons; [subst c; vm_compute in Hc; discriminate Hc|].
    cbn [drop]. apply IH, Hin.
  - intros _. exists tl. cbn [drop]. f_equal.
    unfold notGt in Hc. apply negb_false_iff, bool_decide_eq_true in Hc.
    apply list_elem_of_singleton in Hc. exact Hc.
Qed.

Lemma match_at_htmlTag (p : nat) (tl : text) :
  ">"%char ∈ tl → match_at false Doi.htmlTag p ("<"%char :: tl) ≠ None.
Proof.
  intros (tl' & Hdrop)%drop_span_gt. unfold match_at, Doi.htmlTag, none_of.
  rewrite run_seq. change (run false (Lit ?c) ?s ?k) with (step1 (lit_matches false c) s k).
  unfold step1 at 1. cbn [rest pos caps lit_matches].
  rewrite bool_decide_eq_true_2 by reflexivity.
  rewrite run_seq. fold notGt.
  rewrite (run_star_class false notGt) by apply htmlTag_blocked.
  cbn [rest pos caps]. rewrite Hdrop.
  change (run false (Lit ?c) ?s ?k) with (step1 (lit_matches false c) s k).
  unfold step1. cbn [rest pos caps lit_matches].
  rewrite bool_decide_eq_true_2 by reflexivity. discriminate.
Qed.

Lemma htmlTag_denotes (w : text) (cs : list text) :
  denotes false Doi.htmlTag w cs → w ≠ [] ∧ ">"%char ∈ w.
Proof.
  unfold Doi.htmlTag, none_of. intros H. invert_denotes.
  match goal with H : denotes _ (Star _ _) _ _ |- _ => clear H end.
  split; [discriminate|]. cbn [app]. right. apply elem_of_app. right. left.
Qed.

Lemma exec_from_htmlTag (s : text) :
  ∀ p m, exec_from false Doi.htmlTag p s = Some m →
  ∃ skipped, s = skipped ++ whole m ++ Re.after m
    ∧ index m = p + length skipped
    ∧ whole m ≠ []
    ∧ stop m = index m + length (whole m)
    ∧ "<"%char ∉ skipped.
Proof.
  induction s as [|c s IH]; intros p m; cbn [exec_from];
    destruct (match_at false Doi.htmlTag p _) as [m'|] eqn:Hat.
  1, 3: intros [= ->]; apply match_at_sound in Hat as (Hw & Hs & Hi & Hstop);
    apply htmlTag_denotes in Hw as [Hne _];
    exists []; cbn [app length]; rewrite Hi, Nat.add_0_r;
    repeat split; [exact Hs | exact Hne | exact Hstop | apply not_elem_of_nil].
  - discriminate.
  - intros Hm. pose proof Hm as Hsound.
    apply exec_from_sound in Hsound as (_ & Hw & _).
    apply htmlTag_denotes in Hw as [_ Hgt].
    apply IH in Hm as (skipped & Hs & Hi & Hne & Hstop & Hlt).
    exists (c :: skipped). cbn [app length]. rewrite Hs at 1.
    repeat split; [lia | exact Hne | exact Hstop |].
    apply not_elem_of_cons. split; [|exact Hlt].
    intros E. rewrite <- E in Hat. apply (match_at_htmlTag p s); [|exact Hat].
    rewrite Hs, !elem_of_app. auto.
Qed.

Lemma exec_from_htmlTag_none (s : text) :
  ∀ p, exec_from false Doi.htmlTag p s = None → tagFree s.
Proof.
  induction s as [|c s IH]; intros p; cbn [exec_from]; [intros _; exact I|].
  destruct (match_at false Doi.htmlTag p (c :: s)) eqn:Hat; [discriminate|].
  intros Hrest. split; [|apply (IH _ Hrest)].
  intros -> Hgt. apply (match_at_htmlTag p s Hgt Hat).
Qed.

Lemma replace_from_htmlTag (fuel : nat) :
  ∀ s seen p, length s < fuel →
    tagFree (replace_from fuel false Doi.htmlTag [] seen p s).
Proof.
  induction fuel as [|fuel IH]; intros s seen p Hlen; [lia|]. cbn [replace_from].
  destruct (exec_from false Doi.htmlTag p s) as [m|] eqn:E;
    [|apply (exec_from_htmlTag_none s p E)].
  apply exec_from_htmlTag in E as (skipped & Hs & Hi & Hne & Hstop & Hlt).
  assert (Hwhole : 1 ≤ length (whole m))
    by (destruct (whole m); [contradiction | cbn; lia]).
  replace (index m - p) with (length skipped) by lia.
  rewrite Hs at 1. rewrite take_app_length. cbn [getSubstitution app].
  replace (stop m =? index m) with false by (symmetry; apply Nat.eqb_neq; lia).
  apply tagFree_app. split; [apply tagFree_plain, Hlt|]. split; [|contradiction].
  apply IH. apply (f_equal length) in Hs. rewrite !length_app in Hs. lia.
Qed.

Lemma entity_denotes (w : text) (cs : list text) :
  denotes false Doi.entity w cs → w ≠ [].
Proof.
  unfold Doi.entity. intros H.
  inversion H as [| | |? ? w1 w2 ? ? H1 _| | | | | |]; subst.
  inversion H1; subst. discriminate.
Qed.

Lemma replace_from_entity (fuel : nat) :
  ∀ s seen p, length s < fuel → tagFree s →
    tagFree (replace_from fuel false Doi.entity (str " ") seen p s)
    ∧ (">"%char ∈ replace_from fuel false Doi.entity (str " ") seen p s →
       ">"%char ∈ s).
Proof.
  induction fuel as [|fuel IH]; intros s seen p Hlen Hfree; [lia|]. cbn [replace_from].
  destruct (exec_from false Doi.entity p s) as [m|] eqn:E; [|auto].
  apply exec_from_sound in E as (skipped & Hw & Hs & Hi & Hstop).
  apply entity_denotes in Hw.
  assert (Hwhole : 1 ≤ length (whole m))
    by (destruct (whole m); [contradiction | cbn; lia]).
  replace (index m - p) with (length skipped) by lia.
  assert (Htake : take (length skipped) s = skipped)
    by (rewrite Hs; apply take_app_length).
  rewrite !Htake.
  change (getSubstitution (str " ") ?b m) with (str " ").
  replace (stop m =? index m) with false by (symmetry; apply Nat.eqb_neq; lia).
  rewrite Hs in Hfree. apply tagFree_app in Hfree as (Hskipped & Hrest & Hcross).
  apply tagFree_app in Hrest as (_ & Hafter & _).
  destruct (IH (Re.after m) (seen ++ skipped ++ whole m) (stop m)) as [IHfree IHgt];
    [apply (f_equal length) in Hs; rewrite !length_app in Hs; lia | exact Hafter |].
  rewrite <- (app_assoc seen).
  split.
  - apply tagFree_app. split; [exact Hskipped|]. split.
    + cbn [str list_ascii_of_string app tagFree]. split; [discriminate | exact IHfree].
    + intros Hlt [E|Hgt%IHgt]%elem_of_cons; [discriminate|].
      apply (Hcross Hlt). apply elem_of_app. auto.
  - rewrite Hs, !elem_of_app.
    intros [Hin|[Hsp|Hgt%IHgt]]; [auto | | auto].
    apply list_elem_of_singleton in Hsp. discriminate.
Qed.

Lemma trim_infix (s : text) : ∃ pre post, s = pre ++ trim s ++ post.
Proof.
  unfold trim, trimEnd.
  destruct (span_split s) as [Hpre _].
  destruct (span_split (rev (trimStart s))) as [Hpost _].
  exists (take (spanLength is_space s) s),
         (rev (take (spanLength is_space (rev (trimStart s))) (rev (trimStart s)))).
  rewrite <- rev_app_distr, <- Hpost, rev_involutive. exact Hpre.
Qed.

Lemma tagFree_trim (s : text) : tagFree s → tagFree (trim s).
Proof.
  destruct (trim_infix s) as (pre & post & Hs). intros H. rewrite Hs in H.
  apply tagFree_app in H as (_ & H & _). apply tagFree_app in H as (H & _). exact H.
Qed.

Lemma tagFree_summary (abstract : text) : tagFree (summaryFromAbstract abstract).
Proof.
  unfold summaryFromAbstract, replaceAll.
  set (clean := trim _).
  assert (Hclean : tagFree clean).
  { apply tagFree_trim, replace_from_entity; [lia|]. apply replace_from_htmlTag. lia. }
  destruct (200 <? length clean); [|exact Hclean].
  apply tagFree_app. split; [|split].
  - rewrite <- (take_drop 200 clean) in Hclean.
    apply tagFree_app in Hclean as (H & _). exact H.
  - cbn. repeat split; discriminate.
  - intros _ H. vm_compute in H.
    repeat (apply elem_of_cons in H as [H|H]; [discriminate|]).
    apply elem_of_nil in H as [].
Qed.

Lemma htmlTag_opens (w : text) (cs : list text) :
  denotes false Doi.htmlTag w cs → "<"%char ∈ w.
Proof.
  unfold Doi.htmlTag. intros H.
  inversion H as [| | |? ? w1 w2 ? ? H1 _| | | | | |]; subst.
  inversion H1 as [|? ? Hlit| | | | | | | |]; subst.
  apply bool_decide_eq_true in Hlit. subst. left.
Qed.

Lemma entity_opens (w : text) (cs : list text) :
  denotes false Doi.entity w cs → "&"%char ∈ w.
Proof.
  unfold Doi.entity. intros H.
  inversion H as [| | |? ? w1 w2 ? ? H1 _| | | | | |]; subst.
  inversion H1 as [|? ? Hlit| | | | | | | |]; subst.
  apply bool_decide_eq_true in Hlit. subst. left.
Qed.

(** An abstract without [<] and without [&] is trimmed, and nothing else. *)
Lemma plain_abstract (abstract : text) :
  "<"%char ∉ abstract → "&"%char ∉ abstract →
  replaceAll false Doi.entity (str " ") (replaceAll false Doi.htmlTag [] abstract)
  = abstract.
Proof.
  intros Hlt Hamp.
  rewrite (replaceAll_no_match false Doi.htmlTag [] abstract).
  - apply replaceAll_no_match. unfold exec.
    destruct (exec_from false Doi.entity 0 abstract) as [m|] eqn:E; [|reflexivity].
    apply exec_from_sound in E as (skipped & Hw%entity_opens & Hs & _).
    destruct Hamp. rewrite Hs, !elem_of_app. auto.
  - unfold exec.
    destruct (exec_from false Doi.htmlTag 0 abstract) as [m|] eqn:E; [|reflexivity].
    apply exec_from_sound in E as (skipped & Hw%htmlTag_opens & Hs & _).
    destruct Hlt. rewrite Hs, !elem_of_app. auto.
Qed.

End Summary.

(** X21 --- The summary that [populateFieldsFromMetadata] takes from an
    abstract holds no markup tag, that is no [<] followed anywhere by a
    [>], and is at most 203 code units long: 200 of the cleaned abstract
    and three dots; an abstract without [<] and [&] is only trimmed and
    cut to that length. *)
Theorem summary_without_markup (abstract : text) :
  let summary := summaryFromAbstract abstract in
  length summary ≤ 203
  ∧ (∀ front back, summary = front ++ "<"%char :: back → ">"%char ∉ back)
  ∧ (("<"%char ∉ abstract) → ("&"%char ∉ abstract) →
     summary = if 200 <? length (trim abstract)
               then take 200 (trim abstract) ++ str "..."
               else trim abstract).
Proof.
  intros summary. split; [|split; [apply tagFree_spec, tagFree_summary|]].
  - subst summary. unfold summaryFromAbstract.
    set (clean := trim _).
    destruct (Nat.ltb_spec 200 (length clean)) as [Hlong|Hshort]; [|lia].
    rewrite length_app. pose proof (firstn_le_length 200 clean) as Htake.
    change (length (str "...")) with 3. lia.
  - intros Hlt Hamp. subst summary. unfold summaryFromAbstract.
    rewrite (plain_abstract abstract Hlt Hamp). reflexivity.
Qed.

Lemma summary_without_markup_witness :
  summaryFromAbstract (str "<p>Fish &amp; chips</p> a<b") = str "Fish   chips a<b"
  ∧ ">"%char ∉ str "b".
Proof.
  split; [reflexivity|].
  apply (proj1 (proj2 (summary_without_markup (str "<p>Fish &amp; chips</p> a<b")))
           (str "Fish   chips a") (str "b")).
  reflexivity.
Defined.

(** ** Replacing a word *)

Section Words.

Variables w repl out : text.
Hypothesis w_not_empty : w ≠ [].
Hypothesis repl_out : ∀ before m, getSubstitution repl before m = out.

Lemma match_at_lit (p : nat) (s : text) :
  match_at false (lit w) p s
  = if startsWith w s
    then Some (Found p (take (length w) s) [] (p + length w) (drop (length w) s))
    else None.
Proof.
  unfold match_at. rewrite run_lit. cbn [rest pos caps].
  destruct (startsWith w s); [|reflexivity].
  replace (p + length w - p) with (length w) by lia. reflexivity.
Qed.

Lemma substitute_skip (s : text) :
  ∀ k, substitute w out k s = substitute w out 0 (drop k s).
Proof.
  induction s as [|c s IH]; intros [|k]; try reflexivity.
  cbn [substitute drop]. apply IH.
Qed.

Lemma substitute_here (rest : text) :
  substitute w out 0 (w ++ rest) = out ++ substitute w out 0 rest.
Proof.
  destruct w as [|c w'] eqn:Hw; [contradiction|]. cbn [app substitute].
  replace (startsWith (c :: w') (c :: w' ++ rest)) with true
    by (symmetry; apply startsWith_split; exists rest; reflexivity).
  replace (length (c :: w') - 1) with (length w') by (cbn; lia).
  rewrite <- Hw, substitute_skip, drop_app_length. reflexivity.
Qed.

(** What the search for the word finds, and what replacing makes of the
    text up to there. *)
Lemma exec_from_lit (s : text) :
  ∀ p,
    match exec_from false (lit w) p s with
    | None => substitute w out 0 s = s
    | Some m =>
        ∃ skipped,
          s = skipped ++ w ++ Re.after m
          ∧ index m = p + length skipped
          ∧ stop m = index m + length w
          ∧ substitute w out 0 s = skipped ++ out ++ substitute w out 0 (Re.after m)
    end.
Proof.
  induction s as [|c s IH]; intros p; cbn [exec_from]; rewrite match_at_lit.
  - destruct w; [contradiction | reflexivity].
  - destruct (startsWith w (c :: s)) eqn:Hstart.
    + exists []. cbn [app length Re.after index stop].
      destruct (startsWith_take _ _ Hstart) as [_ Hs].
      split; [exact Hs|]. split; [lia|]. split; [lia|].
      rewrite Hs at 1. apply substitute_here.
    + specialize (IH (S p)). destruct (exec_from false (lit w) (S p) s) as [m|].
      * destruct IH as (skipped & Hs & Hi & Hstop & Hsub). exists (c :: skipped).
        cbn [app length substitute]. rewrite Hstart, Hsub, Hs at 1.
        repeat split; [lia | exact Hstop].
      * cbn [substitute]. rewrite Hstart, IH. reflexivity.
Qed.

Lemma replace_from_lit (fuel : nat) :
  ∀ s seen p, length s < fuel →
    replace_from fuel false (lit w) repl seen p s = substitute w out 0 s.
Proof.
  induction fuel as [|fuel IH]; intros s seen p Hlen; [lia|]. cbn [replace_from].
  pose proof (exec_from_lit s p) as Hexec.
  destruct (exec_from false (lit w) p s) as [m|]; [|symmetry; exact Hexec].
  destruct Hexec as (skipped & Hs & Hi & Hstop & Hsub).
  assert (Hw : 1 ≤ length w) by (destruct w; [contradiction | cbn; lia]).
  rewrite repl_out, Hsub.
  replace (index m - p) with (length skipped) by lia.
  replace (take (length skipped) s) with skipped
    by (rewrite Hs; symmetry; apply take_app_length).
  replace (stop m =? index m) with false by (symmetry; apply Nat.eqb_neq; lia).
  rewrite IH; [reflexivity|].
  apply (f_equal length) in Hs. rewrite !length_app in Hs. lia.
Qed.

Lemma replaceAll_lit (s : text) :
  replaceAll false (lit w) repl s = substitute w out 0 s.
Proof. apply replace_from_lit. lia. Qed.

Lemma substitute_prefix (a s : text) :
  (∀ c, head w = Some c → c ∉ a) →
  substitute w out 0 (a ++ s) = a ++ substitute w out 0 s.
Proof.
  intros Hhead. induction a as [|c a IH]; [reflexivity|].
  cbn [app substitute].
  replace (startsWith w (c :: a ++ s)) with false.
  - rewrite IH; [reflexivity|].
    intros d Hd Hin. apply (Hhead d Hd). right. exact Hin.
  - symmetry. destruct w as [|d w']; [contradiction|]. cbn [startsWith].
    rewrite bool_decide_eq_false_2; [reflexivity|].
    intros ->. apply (Hhead c eq_refl). left.
Qed.

Lemma substitute_none (s : text) :
  (∀ c, head w = Some c → c ∉ s) → substitute w out 0 s = s.
Proof.
  intros Hhead. rewrite <- (app_nil_r s) at 1.
  rewrite substitute_prefix by exact Hhead. cbn. apply app_nil_r.
Qed.

End Words.

Lemma getSubstitution_plain (repl before : text) (m : found) :
  "$"%char ∉ repl → getSubstitution repl before m = repl.
Proof.
  induction repl as [|c repl IH]; [reflexivity|].
  intros [Hc Hrepl]%not_elem_of_cons. cbn [getSubstitution].
  rewrite bool_decide_eq_false_2 by congruence. rewrite IH by exact Hrepl. reflexivity.
Qed.

(** ** The content of a new note *)

Section NewNote.

Lemma titleVar_word : Pattern.titleVar = lit (str "{{title}}").
Proof. reflexivity. Qed.

Lemma brace_free (word s : text) :
  head word = Some "{"%char → "{"%char ∉ s → ∀ c, head word = Some c → c ∉ s.
Proof. intros Hword Hs c Hc. congruence. Qed.

Lemma variables_replaced (title date a b c : text) :
  "{"%char ∉ a → "{"%char ∉ b → "{"%char ∉ c →
  "{"%char ∉ title → "$"%char ∉ title → "$"%char ∉ date →
  replaceAll false Pattern.dateVar date
    (replaceAll false Pattern.titleVar title
       (a ++ str "{{title}}" ++ b ++ str "{{date}}" ++ c))
  = a ++ title ++ b ++ date ++ c.
Proof.
  intros Ha Hb Hc Htitle Hplain Hdate. unfold Pattern.titleVar, Pattern.dateVar.
  set (T := str "{{title}}"). set (D := str "{{date}}").
  assert (HT : T ≠ []) by discriminate. assert (HD : D ≠ []) by discriminate.
  rewrite (replaceAll_lit T title title HT (λ before m, getSubstitution_plain _ _ m Hplain)).
  rewrite (substitute_prefix T title HT a) by (apply brace_free; [reflexivity | exact Ha]).
  rewrite (substitute_here T title HT).
  rewrite (substitute_prefix T title HT b) by (apply brace_free; [reflexivity | exact Hb]).
  assert (Hskip : substitute T title 0 (D ++ c) = D ++ substitute T title 0 c)
    by reflexivity.
  rewrite Hskip, (substitute_none T title HT c)
    by (apply brace_free; [reflexivity | exact Hc]).
  rewrite (replaceAll_lit D date date HD (λ before m, getSubstitution_plain _ _ m Hdate)).
  rewrite !app_assoc, <- (app_assoc _ D c).
  rewrite (substitute_prefix D date HD) by
    (apply brace_free; [reflexivity | rewrite !not_elem_of_app; auto]).
  rewrite (substitute_here D date HD).
  rewrite (substitute_none D date HD c) by (apply brace_free; [reflexivity | exact Hc]).
  rewrite <- !app_assoc. reflexivity.
Qed.

End NewNote.

(** X22 --- [createNoteFromTemplate] fills in the template of a topic or
    of an argument: when the template holds [{{title}}] once and, after it,
    [{{date}}] once and no other brace, and the title holds no brace and
    neither title nor date a [$], the content of the new note is the
    template with the title and the date in the places of the two
    variables. *)
Theorem noteContent_fills_template (settings : STAPluginSettings) (type : STANoteType)
    (title date a b c : text) :
  type ≠ source →
  templateFor settings type = a ++ str "{{title}}" ++ b ++ str "{{date}}" ++ c →
  ("{"%char ∉ a) → ("{"%char ∉ b) → ("{"%char ∉ c) →
  ("{"%char ∉ title) → ("$"%char ∉ title) → ("$"%char ∉ date) →
  noteContent settings type title date = a ++ title ++ b ++ date ++ c.
Proof.
  intros _ Htemplate Ha Hb Hc Htitle Hplain Hdate. unfold noteContent.
  rewrite Htemplate. apply variables_replaced; assumption.
Qed.

Lemma noteContent_fills_template_witness :
  let a := str "# " in
  let b := [nl] ++ str "Created: " in
  let c := [nl] ++ str "#topic" ++ [nl] in
  let settings :=
    Settings DEFAULT_SOURCE_TEMPLATE (a ++ str "{{title}}" ++ b ++ str "{{date}}" ++ c)
      DEFAULT_ARGUMENT_TEMPLATE true [] [] [] true in
  noteContent settings topic (str "On Reefs") (str "2025-01-31")
  = a ++ str "On Reefs" ++ b ++ str "2025-01-31" ++ c.
Proof.
  intros a b c settings.
  apply (noteContent_fills_template settings topic
           (str "On Reefs") (str "2025-01-31") a b c);
    first [discriminate | reflexivity | apply (bool_decide_unpack _); vm_compute; exact I].
Defined.

(** A [$] in the title is read as part of a replacement pattern, and a
    variable in the title is replaced in its turn. *)
Example title_read_as_pattern :
  let settings := Settings [] (str "# {{title}}") [] false [] [] [] false in
  noteContent settings topic (str "5$$ off") (str "2025-01-31") = str "# 5$ off"
  ∧ noteContent settings topic (str "Log {{date}}") (str "2025-01-31")
    = str "# Log 2025-01-31".
Proof. split; reflexivity. Qed.

(** ** The generated templates file *)

Section GeneratedTemplates.

Lemma substitute_one (c d : ascii) (out s : text) :
  substitute [c] out 0 (d :: s)
  = if bool_decide (c = d) then out ++ substitute [c] out 0 s
    else d :: substitute [c] out 0 s.
Proof.
  cbn [substitute startsWith length Nat.sub].
  destruct (bool_decide (c = d)); reflexivity.
Qed.

Lemma substitute_two (c1 c2 d : ascii) (out s : text) :
  substitute [c1; c2] out 0 (d :: s)
  = if bool_decide (c1 = d) && startsWith [c2] s
    then out ++ substitute [c1; c2] out 1 s
    else d :: substitute [c1; c2] out 0 s.
Proof. reflexivity. Qed.

Lemma ticks_escaped (s : text) :
  substitute [backtick] [backslash; backtick] 0
    (substitute [backslash] [backslash; backslash] 0 s)
  = escapedTicks s.
Proof.
  induction s as [|c s IH]; [reflexivity|].
  rewrite substitute_one. cbn [escapedTicks].
  rewrite (bool_decide_ext (backslash = c) (c = backslash)) by (split; congruence).
  case_bool_decide as Hbs.
  - subst c. cbn [app]. rewrite !substitute_one.
    rewrite (bool_decide_eq_false_2 (backtick = backslash)) by discriminate.
    rewrite IH. reflexivity.
  - rewrite substitute_one.
    rewrite (bool_decide_ext (backtick = c) (c = backtick)) by (split; congruence).
    case_bool_decide as Hbt; cbn [app]; rewrite IH; reflexivity.
Qed.

Lemma escapedTicks_head (s : text) :
  startsWith ["{"%char] (escapedTicks s) = startsWith ["{"%char] s.
Proof.
  destruct s as [|c s]; [reflexivity|]. cbn [escapedTicks].
  case_bool_decide as Hbs; [subst c; reflexivity|].
  case_bool_decide as Hbt; [subst c; reflexivity | reflexivity].
Qed.

Lemma dollars_escaped (s : text) :
  substitute (str "${") (backslash :: str "${") 0 (escapedTicks s) = escaped s.
Proof.
  change (str "${") with ["$"%char; "{"%char].
  set (out := backslash :: ["$"%char; "{"%char]).
  induction s as [|c s IH]; [reflexivity|]. cbn [escapedTicks escaped].
  case_bool_decide as Hbs.
  { subst c. rewrite !substitute_two. cbn [andb bool_decide]. rewrite IH. reflexivity. }
  case_bool_decide as Hbt.
  { subst c. rewrite !substitute_two. cbn [andb bool_decide]. rewrite IH. reflexivity. }
  rewrite substitute_two, escapedTicks_head.
  rewrite (bool_decide_ext ("$"%char = c) (c = "$"%char)) by (split; congruence).
  case_bool_decide as Hdollar; cbn [andb]; [|rewrite IH; reflexivity].
  destruct s as [|d s]; [reflexivity|]. cbn [startsWith andb].
  rewrite (bool_decide_ext ("{"%char = d) (d = "{"%char)) by (split; congruence).
  case_bool_decide as Hbrace; [|rewrite IH; reflexivity].
  subst d.
  change (escapedTicks ("{"%char :: s)) with ("{"%char :: escapedTicks s) in *.
  change (escaped ("{"%char :: s)) with ("{"%char :: escaped s) in *.
  rewrite substitute_two in IH.
  change (bool_decide ("$"%char = "{"%char)) with false in IH. cbn [andb] in IH.
  injection IH as IH. cbn [substitute]. rewrite IH. subst c. reflexivity.
Qed.

Lemma escapedContent_escaped (content : text) : escapedContent content = escaped content.
Proof.
  unfold escapedContent.
  change (Lit backslash) with (lit [backslash]).
  change (Lit backtick) with (lit [backtick]).
  rewrite (replaceAll_lit [backslash] [backslash; backslash] [backslash; backslash])
    by (discriminate || reflexivity).
  rewrite (replaceAll_lit [backtick] [backslash; backtick] [backslash; backtick])
    by (discriminate || reflexivity).
  rewrite (replaceAll_lit (str "${") (backslash :: str "${") (backslash :: str "${"))
    by (discriminate || reflexivity).
  rewrite ticks_escaped. apply dollars_escaped.
Qed.

Lemma escaped_head (d : ascii) (s : text) :
  d ≠ "{"%char → ∃ e rest, escaped (d :: s) = e :: rest ∧ e ≠ "{"%char.
Proof.
  intros Hd. cbn [escaped].
  case_bool_decide; [eexists _, _; split; [reflexivity | discriminate]|].
  case_bool_decide; [eexists _, _; split; [reflexivity | discriminate]|].
  case_bool_decide; [|eexists _, _; split; [reflexivity | exact Hd]].
  destruct s as [|d' s]; [eexists _, _; split; [reflexivity | exact Hd]|].
  case_bool_decide; eexists _, _; (split; [reflexivity|]); [discriminate | exact Hd].
Qed.

Lemma templateValue_escaped (s : text) :
  carriageReturn ∉ s → templateValue (escaped s) = Some s.
Proof.
  induction s as [|c s IH]; [reflexivity|].
  intros [Hcr Hs]%not_elem_of_cons. specialize (IH Hs). cbn [escaped].
  case_bool_decide as Hbs.
  { subst c. cbn [templateValue bool_decide]. rewrite IH. reflexivity. }
  case_bool_decide as Hbt.
  { subst c. cbn [templateValue bool_decide]. rewrite IH. reflexivity. }
  case_bool_decide as Hdollar.
  - subst c. destruct s as [|d s]; [reflexivity|].
    case_bool_decide as Hbrace.
    + cbn [templateValue bool_decide]. rewrite IH. reflexivity.
    + destruct (escaped_head d s Hbrace) as (e & rest & He & Hne).
      rewrite He in *. cbn [templateValue bool_decide].
      rewrite (bool_decide_eq_false_2 (e = "{"%char)) by exact Hne.
      cbn [templateValue] in IH. rewrite IH. reflexivity.
  - cbn [templateValue].
    rewrite (bool_decide_eq_false_2 (c = backslash)) by exact Hbs.
    rewrite (bool_decide_eq_false_2 (c = backtick)) by exact Hbt.
    rewrite (bool_decide_eq_false_2 (c = "$"%char)) by exact Hdollar.
    rewrite (bool_decide_eq_false_2 (c = carriageReturn)) by congruence.
    rewrite IH. reflexivity.
Qed.

End GeneratedTemplates.

(** X23 --- The escaping of [generateTemplatesFile] is undone by the
    template literal it is written into: for a template file without
    carriage returns, the constant of the generated file has the content
    of the template file as its value. *)
Theorem escapedContent_round_trip (content : text) :
  carriageReturn ∉ content →
  templateValue (escapedContent content) = Some content.
Proof.
  intros Hcr. rewrite escapedContent_escaped. apply templateValue_escaped, Hcr.
Qed.

Lemma escapedContent_round_trip_witness :
  let content := str "cost: ${n} `code` C:" ++ [backslash] ++ str "notes" in
  templateValue (escapedContent content) = Some content.
Proof.
  intros content. apply escapedContent_round_trip.
  apply (bool_decide_unpack _). vm_compute. exact I.
Defined.

(** With a carriage return the value differs from the file. *)
Example carriage_return_not_kept :
  templateValue (escapedContent (str "a" ++ [carriageReturn; nl] ++ str "b"))
  = Some (str "a" ++ [nl] ++ str "b").
Proof. reflexivity. Qed.

(** ** The label map after a refresh *)

Section Refresh.

Variable settings : STAPluginSettings.
Variable view : string → lookups.

Lemma refreshAllFileLabels_step (file : string * text) (files : list (string * text))
    (fileLabels : labelMap) :
  refreshAllFileLabels settings (file :: files) view fileLabels
  = match updateVisualLabel settings
            (updateFileLabel settings fileLabels file.1 file.2 (view file.1)).1
            file.1 (view file.1) with
    | Thrown =>
        ((updateFileLabel settings fileLabels file.1 file.2 (view file.1)).1, Thrown)
    | Returned _ =>
        refreshAllFileLabels settings files view
          (updateFileLabel settings fileLabels file.1 file.2 (view file.1)).1
    end.
Proof. reflexivity. Qed.

Lemma throwsFor_spec (fileLabels : labelMap) (path : string) :
  updateVisualLabel settings fileLabels path (view path) = Thrown
  ↔ throwsFor settings view path.
Proof. apply updateVisualLabel_thrown. Qed.

Lemma refreshAllFileLabels_untouched (files : list (string * text)) :
  ∀ fileLabels path, path ∉ map fst files →
    (refreshAllFileLabels settings files view fileLabels).1 !! path = fileLabels !! path.
Proof.
  induction files as [|file files IH]; intros fileLabels path Hpath; [reflexivity|].
  cbn [map] in Hpath. apply not_elem_of_cons in Hpath as [Hne Hpath].
  rewrite refreshAllFileLabels_step.
  destruct (updateVisualLabel _ _ _ _); cbn [fst]; [|rewrite IH by exact Hpath];
    rewrite updateFileLabel_map;
    (destruct (decide (path = file.1)); [contradiction | reflexivity]).
Qed.

(** While no lookup throws, the loop goes through all files. *)
Lemma refreshAllFileLabels_through (files : list (string * text)) :
  Forall (λ file, ¬ throwsFor settings view file.1) files →
  NoDup (map fst files) →
  ∀ fileLabels,
    (refreshAllFileLabels settings files view fileLabels).2 = Returned ()
    ∧ ∀ path content, (path, content) ∈ files →
        (refreshAllFileLabels settings files view fileLabels).1 !! path
        = identifyNoteType settings content.
Proof.
  induction 1 as [|file files Hfile _ IH]; intros Hnd fileLabels.
  { split; [reflexivity|]. intros path content Hin. apply elem_of_nil in Hin as []. }
  cbn [map] in Hnd. apply NoDup_cons in Hnd as [Hfresh Hnd].
  rewrite refreshAllFileLabels_step.
  destruct (updateVisualLabel _ _ _ _) eqn:Hvisual;
    [apply throwsFor_spec in Hvisual; contradiction|].
  destruct (IH Hnd (updateFileLabel settings fileLabels file.1 file.2 (view file.1)).1)
    as [Hend Hfiles].
  split; [exact Hend|]. intros path content Hin.
  apply elem_of_cons in Hin as [<-|Hin]; [|apply (Hfiles _ _ Hin)].
  cbn [fst snd] in *. rewrite refreshAllFileLabels_untouched by exact Hfresh.
  rewrite updateFileLabel_map. destruct (decide (path = path)); [reflexivity | contradiction].
Qed.

(** The loop ends at the first file whose lookups throw; that file has
    been given its entry, the files after it are not reached. *)
Lemma refreshAllFileLabels_stopped (reached : list (string * text))
    (file : string * text) (later : list (string * text)) :
  Forall (λ file, ¬ throwsFor settings view file.1) reached →
  throwsFor settings view file.1 →
  NoDup (map fst (reached ++ [file])) →
  ∀ fileLabels,
    let refreshed := refreshAllFileLabels settings (reached ++ file :: later) view fileLabels in
    refreshed.2 = Thrown
    ∧ (∀ path content, (path, content) ∈ reached ++ [file] →
         refreshed.1 !! path = identifyNoteType settings content)
    ∧ (∀ path, path ∉ map fst (reached ++ [file]) →
         refreshed.1 !! path = fileLabels !! path).
Proof.
  intros Hreached Hthrows.
  induction Hreached as [|first reached Hfirst _ IH]; intros Hnd fileLabels refreshed;
    subst refreshed; cbn [app]; rewrite refreshAllFileLabels_step.
  - destruct (updateVisualLabel _ _ _ _) eqn:Hvisual.
    2: { rewrite (proj2 (throwsFor_spec _ _) Hthrows) in Hvisual. discriminate. }
    cbn [fst snd]. split; [reflexivity|]. split.
    + intros path content Hin. apply list_elem_of_singleton in Hin as <-.
      cbn [fst snd]. rewrite updateFileLabel_map.
      destruct (decide (path = path)); [reflexivity | contradiction].
    + intros path Hpath. cbn in Hpath. apply not_elem_of_cons in Hpath as [Hne _].
      rewrite updateFileLabel_map. destruct (decide (path = file.1)); [contradiction | reflexivity].
  - cbn [app map] in Hnd. apply NoDup_cons in Hnd as [Hfresh Hnd].
    destruct (updateVisualLabel _ _ _ _) eqn:Hvisual;
      [apply throwsFor_spec in Hvisual; contradiction|].
    destruct (IH Hnd (updateFileLabel settings fileLabels first.1 first.2 (view first.1)).1)
      as (Hend & Hfiles & Hothers).
    split; [exact Hend|]. split.
    + intros path content Hin. cbn [app] in Hin.
      apply elem_of_cons in Hin as [<-|Hin]; [|apply (Hfiles _ _ Hin)].
      cbn [fst snd] in *. rewrite Hothers by exact Hfresh.
      rewrite updateFileLabel_map. destruct (decide (path = path)); [reflexivity | contradiction].
    + intros path Hpath. cbn [app map] in Hpath.
      apply not_elem_of_cons in Hpath as [Hne Hpath].
      rewrite Hothers by exact Hpath. rewrite updateFileLabel_map.
      destruct (decide (path = first.1)); [contradiction | reflexivity].
Qed.

End Refresh.

(** X24 --- [refreshAllFileLabels] brings the label map in step with the
    identification up to the first file whose lookups throw, which they do
    for no file with a plain path and for none when labels are hidden.
    The files of the vault having pairwise different paths: when no lookup
    throws, the loop returns and every markdown file has the entry
    [identifyNoteType] gives for its content, none when it gives none, and,
    started from an empty map, the files with an entry are those
    [getAllSTANotes] lists; when the lookups of a file throw, the loop
    throws, that file and the files before it have their entries, and the
    files after it keep what they had.  Entries of paths that are not
    files of the vault are left as they were, stale ones too. *)
Theorem refreshAllFileLabels_agrees (settings : STAPluginSettings)
    (view : string → lookups) (fileLabels : labelMap)
    (reached later : list (string * text)) :
  NoDup (map fst (reached ++ later)) →
  Forall (λ file, ¬ throwsFor settings view file.1) reached →
  (∀ path, plainPath path → ¬ throwsFor settings view path)
  ∧ (showFileExplorerLabels settings = false → ∀ path, ¬ throwsFor settings view path)
  ∧ (∀ path, path ∉ map fst (reached ++ later) →
       (refreshAllFileLabels settings (reached ++ later) view fileLabels).1 !! path
       = fileLabels !! path)
  ∧ (later = [] →
       (refreshAllFileLabels settings reached view fileLabels).2 = Returned ()
       ∧ (∀ path content, (path, content) ∈ reached →
            (refreshAllFileLabels settings reached view fileLabels).1 !! path
            = identifyNoteType settings content)
       ∧ (∀ path content, (path, content) ∈ reached →
            (is_Some ((refreshAllFileLabels settings reached view ∅).1 !! path)
             ↔ (path, content) ∈ getAllSTANotes settings reached None)))
  ∧ (∀ file after, later = file :: after → throwsFor settings view file.1 →
       let refreshed := refreshAllFileLabels settings (reached ++ later) view fileLabels in
       refreshed.2 = Thrown
       ∧ (∀ path content, (path, content) ∈ reached ++ [file] →
            refreshed.1 !! path = identifyNoteType settings content)
       ∧ (∀ path, path ∈ map fst after → refreshed.1 !! path = fileLabels !! path)).
Proof.
  intros Hnd Hreached. split; [|split; [|split; [|split]]].
  - intros path Hplain (_ & _ & Hthrows).
    rewrite (byQuery_plainPath _ _ Hplain) in Hthrows.
    destruct (byDataPath (view path) (str path)); discriminate.
  - intros Hhidden path (Hshow & _). congruence.
  - apply refreshAllFileLabels_untouched.
  - intros ->. rewrite app_nil_r in Hnd.
    destruct (refreshAllFileLabels_through settings view reached Hreached Hnd fileLabels)
      as [Hend Hfiles].
    split; [exact Hend|]. split; [exact Hfiles|].
    intros path content Hin.
    destruct (refreshAllFileLabels_through settings view reached Hreached Hnd ∅)
      as [_ Hfresh].
    rewrite (Hfresh path content Hin), getAllSTANotes_elem. cbn [snd]. split.
    + intros [t Ht]. split; [exact Hin|]. exists t. split; [exact Ht | discriminate].
    + intros [_ (t & Ht & _)]. rewrite Ht. eauto.
  - intros file after -> Hthrows refreshed.
    assert (Hsplit : reached ++ file :: after = (reached ++ [file]) ++ after)
      by (rewrite <- app_assoc; reflexivity).
    rewrite Hsplit, map_app in Hnd. apply NoDup_app in Hnd as (Hnd & Hdisjoint & _).
    destruct (refreshAllFileLabels_stopped settings view reached file after
                Hreached Hthrows Hnd fileLabels) as (Hend & Hfiles & Hothers).
    split; [exact Hend|]. split; [exact Hfiles|].
    intros path Hpath. apply Hothers. intros Hin. exact (Hdisjoint path Hin Hpath).
Qed.

Lemma refreshAllFileLabels_agrees_witness :
  let reached := [("a.md"%string, str "#claim one")] in
  let later := [(quotedPath, str "#topic two"); ("b.md"%string, str "#source three")] in
  let view := λ _ : string, nothingVisible in
  let fileLabels : labelMap := {["b.md"%string := topic]} in
  let refreshed := refreshAllFileLabels DEFAULT_SETTINGS (reached ++ later) view fileLabels in
  refreshed.2 = Thrown
  ∧ refreshed.1 !! "a.md"%string = Some argument
  ∧ refreshed.1 !! quotedPath = Some topic
  ∧ refreshed.1 !! "b.md"%string = Some topic.
Proof.
  intros reached later view fileLabels refreshed.
  assert (Hnd : NoDup (map fst (reached ++ later)))
    by (apply (bool_decide_unpack _); vm_compute; exact I).
  assert (Hreached : Forall (λ file, ¬ throwsFor DEFAULT_SETTINGS view file.1) reached).
  { constructor; [|constructor]. intros (_ & _ & Hthrows). discriminate. }
  destruct (refreshAllFileLabels_agrees DEFAULT_SETTINGS view fileLabels reached later
              Hnd Hreached) as (_ & _ & _ & _ & Hstopped).
  destruct (Hstopped (quotedPath, str "#topic two")
              [("b.md"%string, str "#source three")] eq_refl)
    as (Hend & Hfiles & Hafter).
  { repeat split. }
  split; [exact Hend|]. split; [|split].
  - exact (Hfiles "a.md"%string (str "#claim one") ltac:(in_list)).
  - exact (Hfiles quotedPath (str "#topic two") ltac:(in_list)).
  - exact (Hafter "b.md"%string ltac:(in_list)).
Defined.

(** ** The label of a new note *)

(** X25 --- A note made from the default topic template is first given
    the label of a topic, the type asked for, and at the first update of
    its label that of a source; one made from the default argument
    template keeps the label of an argument. *)
Theorem new_note_label_after_update (fileLabels : labelMap) (path : string)
    (title date : text) (view : lookups) (views : nat → lookups)
    (type : STANoteType) :
  let content := noteContent DEFAULT_SETTINGS type title date in
  let created := (labelNewNote DEFAULT_SETTINGS fileLabels path type views).1 in
  let updated := (updateFileLabel DEFAULT_SETTINGS created path content view).1 in
  created !! path = Some type
  ∧ (type = topic → updated !! path = Some source)
  ∧ (type = argument → updated !! path = Some argument).
Proof.
  intros content created updated. subst created updated.
  unfold labelNewNote. cbn [DEFAULT_SETTINGS showFileExplorerLabels fst].
  split; [apply lookup_insert_eq|].
  rewrite updateFileLabel_map. destruct (decide (path = path)); [|contradiction].
  subst content. split; intros ->.
  - rewrite topic_note_content. reflexivity.
  - unfold noteContent. cbn [templateFor DEFAULT_SETTINGS argumentTemplate].
    rewrite (replaceAll_no_match false Pattern.titleVar title DEFAULT_ARGUMENT_TEMPLATE)
      by reflexivity.
    rewrite (replaceAll_no_match false Pattern.dateVar date DEFAULT_ARGUMENT_TEMPLATE)
      by reflexivity.
    reflexivity.
Qed.

Lemma new_note_label_after_update_witness :
  let content := noteContent DEFAULT_SETTINGS topic (str "Reefs") (str "2025-01-31") in
  (updateFileLabel DEFAULT_SETTINGS {["Reefs.md"%string := topic]} "Reefs.md"
                   content nothingVisible).1 !! "Reefs.md"%string
  = Some source.
Proof.
  intros content.
  apply (proj1 (proj2 (new_note_label_after_update ∅ "Reefs.md" (str "Reefs")
                         (str "2025-01-31") nothingVisible (λ _, nothingVisible) topic))).
  reflexivity.
Defined.

(** ** Notes of the default templates without tag-based identification *)

Section MarkerOnly.

Lemma firstMarker_none (s : text) : "*"%char ∉ s → firstMarker s = None.
Proof.
  induction s as [|c s IH]; [reflexivity|].
  intros [Hc Hs]%not_elem_of_cons. cbn [firstMarker]. unfold markerHere.
  replace (startsWith (str "**Type:**") (c :: s)) with false; [apply IH, Hs|].
  symmetry. cbn [str list_ascii_of_string startsWith].
  rewrite bool_decide_eq_false_2 by exact Hc. reflexivity.
Qed.

Lemma default_note_without_star (type : STANoteType) (title date : text) :
  type ≠ source →
  "*"%char ∉ noteContent DEFAULT_SETTINGS type title date.
Proof.
  intros Htype. unfold noteContent. destruct type; [contradiction| |].
  - cbn [templateFor DEFAULT_SETTINGS topicTemplate].
    rewrite (replaceAll_no_match false Pattern.titleVar title DEFAULT_TOPIC_TEMPLATE)
      by reflexivity.
    rewrite (replaceAll_no_match false Pattern.dateVar date DEFAULT_TOPIC_TEMPLATE)
      by reflexivity.
    apply (bool_decide_unpack _). vm_compute. exact I.
  - cbn [templateFor DEFAULT_SETTINGS argumentTemplate].
    rewrite (replaceAll_no_match false Pattern.titleVar title DEFAULT_ARGUMENT_TEMPLATE)
      by reflexivity.
    rewrite (replaceAll_no_match false Pattern.dateVar date DEFAULT_ARGUMENT_TEMPLATE)
      by reflexivity.
    apply (bool_decide_unpack _). vm_compute. exact I.
Qed.

End MarkerOnly.

(** X26 --- With tag-based identification switched off, a topic or an
    argument made from its default template has no type, whatever its
    title: these templates hold no [**Type:**] marker and no variable. *)
Theorem default_notes_unidentified_without_tags (type : STANoteType) (title date : text) :
  type ≠ source →
  identifyNoteType (withoutTags DEFAULT_SETTINGS)
    (noteContent (withoutTags DEFAULT_SETTINGS) type title date)
  = None.
Proof.
  intros Htype.
  change (noteContent (withoutTags DEFAULT_SETTINGS) type title date)
    with (noteContent DEFAULT_SETTINGS type title date).
  unfold identifyNoteType. cbn [withoutTags useTagBasedIdentification].
  rewrite identifyTypeByMarker_firstMarker.
  apply firstMarker_none, default_note_without_star, Htype.
Qed.

Lemma default_notes_unidentified_without_tags_witness :
  identifyNoteType (withoutTags DEFAULT_SETTINGS)
    (noteContent (withoutTags DEFAULT_SETTINGS) argument (str "On **Type:** Source")
       (str "2025-01-31"))
  = None.
Proof. apply default_notes_unidentified_without_tags. discriminate. Defined.

(** ** Notes without tags and marker *)

Section PlainNotes.

Lemma exec_from_none_without (icase : bool) (r : regex) (x : ascii) (s : text) (p : nat) :
  (∀ w cs, denotes icase r w cs → x ∈ w) → x ∉ s → exec_from icase r p s = None.
Proof.
  intros Hr Hx. destruct (exec_from icase r p s) as [m|] eqn:E; [|reflexivity].
  apply exec_from_sound in E as (skipped & Hw%Hr & Hs & _).
  destruct Hx. rewrite Hs, !elem_of_app. auto.
Qed.

Lemma upper_char_hash (d : ascii) : upper_char "#" = upper_char d → d = "#"%char.
Proof. destruct d as [[] [] [] [] [] [] [] []]; vm_compute; congruence. Qed.

Lemma hashtag_has_hash (w : text) (cs : list text) :
  denotes false Pattern.hashtag w cs → "#"%char ∈ w.
Proof.
  unfold Pattern.hashtag. intros H.
  inversion H as [| | |? ? w1 w2 ? ? H1 _| | | | | |]; subst.
  inversion H1 as [|? ? Hlit| | | | | | | |]; subst.
  apply bool_decide_eq_true in Hlit. subst. left.
Qed.

Lemma tagsSection_has_hash (w : text) (cs : list text) :
  denotes true Pattern.tagsSection w cs → "#"%char ∈ w.
Proof.
  unfold Pattern.tagsSection. cbn [lit str list_ascii_of_string]. intros H.
  inversion H as [| | |? ? w1 w2 ? ? H1 _| | | | | |]; subst.
  inversion H1 as [| | |? ? w3 w4 ? ? H3 _| | | | | |]; subst.
  inversion H3 as [|? d Hlit| | | | | | | |]; subst.
  apply bool_decide_eq_true, upper_char_hash in Hlit. subst. left.
Qed.

Lemma frontmatter_starts (w : text) (cs : list text) :
  denotes false Pattern.frontmatter w cs → head w = Some "-"%char.
Proof.
  unfold Pattern.frontmatter. cbn [lit str list_ascii_of_string]. intros H.
  inversion H as [| | |? ? w1 w2 ? ? H1 H2| | | | | |]; subst.
  inversion H1; subst.
  inversion H2 as [| | |? ? w3 w4 ? ? H3 _| | | | | |]; subst.
  inversion H3 as [| | |? ? w5 w6 ? ? H5 _| | | | | |]; subst.
  inversion H5 as [|? d Hlit| | | | | | | |]; subst.
  apply bool_decide_eq_true in Hlit. subst. reflexivity.
Qed.

Lemma exec_frontmatter_none (content : text) :
  head content ≠ Some "-"%char → exec false Pattern.frontmatter content = None.
Proof.
  intros Hhead. unfold exec.
  assert (Hat : match_at false Pattern.frontmatter 0 content = None).
  { destruct (match_at false Pattern.frontmatter 0 content) as [m|] eqn:E; [|reflexivity].
    apply match_at_sound in E as (Hw%frontmatter_starts & Hs & _).
    destruct Hhead. rewrite Hs. destruct (whole m); [discriminate | exact Hw]. }
  destruct content as [|c content]; cbn [exec_from]; rewrite Hat; [reflexivity|].
  unfold Pattern.frontmatter. apply exec_from_bos. lia.
Qed.

Lemma extractTags_plain (content : text) :
  "#"%char ∉ content → head content ≠ Some "-"%char →
  extractTagsFromContent content = [].
Proof.
  intros Hhash Hhead. unfold extractTagsFromContent.
  assert (H1 : hashtagTags content = []).
  { unfold hashtagTags, matchAll. cbn [matches_from].
    rewrite (exec_from_none_without false Pattern.hashtag "#" content 0
               hashtag_has_hash Hhash). reflexivity. }
  assert (H2 : frontmatterTags content = []).
  { unfold frontmatterTags. rewrite (exec_frontmatter_none content Hhead). reflexivity. }
  assert (H3 : sectionTags content = []).
  { unfold sectionTags, exec.
    rewrite (exec_from_none_without true Pattern.tagsSection "#" content 0
               tagsSection_has_hash Hhash). reflexivity. }
  rewrite H1, H2, H3. reflexivity.
Qed.

Lemma identifyTypeByTags_no_tags (settings : STAPluginSettings) :
  identifyTypeByTags settings [] = None.
Proof.
  assert (Hnone : ∀ configured, someTagIncluded configured [] = false).
  { intros configured. unfold someTagIncluded.
    induction configured as [|c cs IH]; [reflexivity|]. cbn [existsb]. rewrite IH.
    reflexivity. }
  unfold identifyTypeByTags. cbn [map]. rewrite !Hnone. reflexivity.
Qed.

End PlainNotes.

(** X27 --- A note that holds no [#] and no [*] and does not begin with a
    hyphen has no tags and no type, whatever the settings: nothing but a
    hashtag, a front matter, a [## Tags] heading or a [**Type:**] marker
    gives a note a type. *)
Theorem plain_note_unidentified (settings : STAPluginSettings) (content : text) :
  ("#"%char ∉ content) → ("*"%char ∉ content) → head content ≠ Some "-"%char →
  extractTagsFromContent content = []
  ∧ identifyNoteType settings content = None.
Proof.
  intros Hhash Hstar Hhead.
  pose proof (extractTags_plain content Hhash Hhead) as Htags.
  split; [exact Htags|]. unfold identifyNoteType.
  rewrite Htags, identifyTypeByTags_no_tags, identifyTypeByMarker_firstMarker.
  rewrite (firstMarker_none content Hstar).
  destruct (useTagBasedIdentification settings); reflexivity.
Qed.

Lemma plain_note_unidentified_witness :
  identifyNoteType DEFAULT_SETTINGS (str "Type: Source, tags: [source]") = None.
Proof.
  apply plain_note_unidentified;
    first [discriminate | apply (bool_decide_unpack _); vm_compute; exact I].
Defined.

(** ** More tags, higher priority *)

Lemma sharesTag_more (configured noteTags noteTags' : list text) :
  noteTags ⊆ noteTags' → sharesTag configured noteTags → sharesTag configured noteTags'.
Proof.
  intros Hsub (c & n & Hc & Hn & Heq). exists c, n. auto.
Qed.

(** X28 --- More tags on a note never lower the type [identifyTypeByTags]
    gives it in the order argument, source, topic, none: a note that is an
    argument stays one, and a note with a type keeps having one. *)
Theorem identifyTypeByTags_monotone (settings : STAPluginSettings)
    (noteTags noteTags' : list text) :
  noteTags ⊆ noteTags' →
  priority (identifyTypeByTags settings noteTags)
  ≤ priority (identifyTypeByTags settings noteTags').
Proof.
  intros Hsub.
  destruct (identifyTypeByTags_cases settings noteTags) as (HA & HS & HT & HN).
  destruct (identifyTypeByTags_cases settings noteTags') as (HA' & HS' & HT' & HN').
  pose proof (sharesTag_more (argumentTags settings) _ _ Hsub) as MA.
  pose proof (sharesTag_more (sourceTags settings) _ _ Hsub) as MS.
  pose proof (sharesTag_more (topicTags settings) _ _ Hsub) as MT.
  destruct (identifyTypeByTags settings noteTags) as [[]|] eqn:E;
    destruct (identifyTypeByTags settings noteTags') as [[]|] eqn:E';
    cbn [priority]; try lia; exfalso.
  - destruct (proj1 HS eq_refl) as [_ Hs]. destruct (proj1 HT' eq_refl) as (_ & Hns & _). auto.
  - destruct (proj1 HS eq_refl) as [_ Hs]. destruct (proj1 HN' eq_refl) as (_ & Hns & _). auto.
  - destruct (proj1 HT eq_refl) as (_ & _ & Ht). destruct (proj1 HN' eq_refl) as (_ & _ & Hnt). auto.
  - pose proof (proj1 HA eq_refl). destruct (proj1 HS' eq_refl) as [Hna _]. auto.
  - pose proof (proj1 HA eq_refl). destruct (proj1 HT' eq_refl) as [Hna _]. auto.
  - pose proof (proj1 HA eq_refl). destruct (proj1 HN' eq_refl) as [Hna _]. auto.
Qed.

Lemma identifyTypeByTags_monotone_witness :
  priority (identifyTypeByTags DEFAULT_SETTINGS [str "theme"])
  ≤ priority (identifyTypeByTags DEFAULT_SETTINGS [str "claim"; str "theme"]).
Proof.
  apply identifyTypeByTags_monotone.
  intros tag Htag. right. exact Htag.
Defined.
